(** * git-sizer: the size-computation engine of [sizes/sizes.go]

    A shallow embedding of the store protocol client ([ReadHeader],
    [ReadTree]), the tree decoder ([NextEntry]), the aggregate record
    [TreeSize] with its merge arithmetic, and the memoizing traversal
    ([ObjectSize], [BlobSize], [TreeSize], [fill], [queueTree]).

    Conventions.
    - [Count] (Go [uint64]) is a [Z]; every Go [+] on it is written with
      its wrap-around [wrap64].
    - Go strings and byte slices are both immutable byte sequences here:
      [list byte].
    - A Go call that may return an [error] or panic yields a [result].
    - The store process is an oracle ([Repository]): for the identifier
      written to a pipe, the bytes the pipe then delivers. The store is
      immutable while a cache lives, so the answer depends on the
      identifier only.
    - The loops of [fill] and [queueTree] take fuel and yield [None]
      when it runs out. [queueTree] is always given enough; for [fill]
      that is the termination property. *)

From Stdlib Require Import ZArith List Strings.String Strings.Byte Lia Bool.
From stdpp Require Import base countable gmap list.
Import ListNotations.

#[local] Open Scope Z_scope.

(** ** Bytes and strings *)

Abbreviation byte := Byte.byte.

(** A Go [string] or [[]byte]. *)
Definition bytes := list byte.

(** The bytes of a Go string literal. *)
Definition str (s : string) : bytes := list_byte_of_string s.

#[global] Instance byte_eq_dec : EqDecision byte := Byte.byte_eq_dec.

#[global] Instance byte_countable : Countable byte :=
  inj_countable Byte.to_N Byte.of_N Byte.of_to_N.

(** [len(s)] as a Go [int]. *)
Definition len {A} (l : list A) : Z := Z.of_nat (length l).

(** ** Counts *)

Definition Count := Z.

Definition MaxUint64 : Z := 2 ^ 64 - 1.

(** Reduction of a mathematical integer to a [uint64]. *)
Definition wrap64 (z : Z) : Z := z mod 2 ^ 64.

Definition is_count (n : Z) : Prop := 0 <= n <= MaxUint64.

(** [Count(len(filename))]: conversion of an [int] to [uint64]. *)
Definition Count_of_len {A} (l : list A) : Count := wrap64 (len l).

(** Return the sum of two Counts, capped at math.MaxUint64. *)
Definition addCapped (n1 n2 : Count) : Count :=
  let n := wrap64 (n1 + n2) in
  if n <? n1 then MaxUint64 else n.

(** The statement [entryCount += 1] of [queueTree]. *)
Definition incEntryCount (entryCount : Count) : Count :=
  wrap64 (entryCount + 1).

(** ** Object identifiers and types *)

(** [type Oid [20]byte]; every identifier the decoder produces has
    exactly 20 bytes. *)
Definition Oid := list byte.

(** [type Type string] *)
Definition ObjType := bytes.

(** ** The aggregate record *)

Record TreeSize := mkTreeSize {
  MaxDepth : Count;
  MaxPathLength : Count;
  TreeCount : Count;
  MaxTreeEntries : Count;
  BlobCount : Count;
  BlobSizeSum : Count;   (* field [BlobSize] of the Go struct *)
  LinkCount : Count;
  SubmoduleCount : Count
}.

(** The zero value [TreeSize{}]. *)
Definition TreeSize_zero : TreeSize := mkTreeSize 0 0 0 0 0 0 0 0.

#[global] Instance TreeSize_eq_dec : EqDecision TreeSize.
Proof. solve_decision. Defined.

(** Set the object's MaxDepth to [max(s.MaxDepth, maxDepth)]. *)
Definition recordDepth (s : TreeSize) (maxDepth : Count) : TreeSize :=
  if MaxDepth s <? maxDepth
  then mkTreeSize maxDepth (MaxPathLength s) (TreeCount s) (MaxTreeEntries s)
                  (BlobCount s) (BlobSizeSum s) (LinkCount s) (SubmoduleCount s)
  else s.

(** Set the object's MaxPathLength to [max(s.MaxPathLength, pathLength)]. *)
Definition recordPathLength (s : TreeSize) (pathLength : Count) : TreeSize :=
  if MaxPathLength s <? pathLength
  then mkTreeSize (MaxDepth s) pathLength (TreeCount s) (MaxTreeEntries s)
                  (BlobCount s) (BlobSizeSum s) (LinkCount s) (SubmoduleCount s)
  else s.

Definition addDescendent (s : TreeSize) (filename : bytes) (s2 : TreeSize)
  : TreeSize :=
  let s := recordDepth s (MaxDepth s2) in
  let s :=
    if 0 <? MaxPathLength s2
    then recordPathLength s
           (addCapped (wrap64 (Count_of_len filename + 1)) (MaxPathLength s2))
    else recordPathLength s (Count_of_len filename) in
  mkTreeSize
    (MaxDepth s)
    (MaxPathLength s)
    (addCapped (TreeCount s) (TreeCount s2))
    (if MaxTreeEntries s <? MaxTreeEntries s2
     then MaxTreeEntries s2 else MaxTreeEntries s)
    (addCapped (BlobCount s) (BlobCount s2))
    (addCapped (BlobSizeSum s) (BlobSizeSum s2))
    (addCapped (LinkCount s) (LinkCount s2))
    (addCapped (SubmoduleCount s) (SubmoduleCount s2)).

(** Record that the object has a blob of the specified [size] as a
    direct descendant. *)
Definition addBlob (s : TreeSize) (filename : bytes) (size : Count)
  : TreeSize :=
  let s := recordDepth s 1 in
  let s := recordPathLength s (Count_of_len filename) in
  mkTreeSize (MaxDepth s) (MaxPathLength s) (TreeCount s) (MaxTreeEntries s)
             (addCapped (BlobCount s) 1)
             (addCapped (BlobSizeSum s) size)
             (LinkCount s) (SubmoduleCount s).

(** Record that the object has a link as a direct descendant. *)
Definition addLink (s : TreeSize) (filename : bytes) : TreeSize :=
  let s := recordDepth s 1 in
  let s := recordPathLength s (Count_of_len filename) in
  mkTreeSize (MaxDepth s) (MaxPathLength s) (TreeCount s) (MaxTreeEntries s)
             (BlobCount s) (BlobSizeSum s)
             (addCapped (LinkCount s) 1) (SubmoduleCount s).

(** Record that the object has a submodule as a direct descendant. *)
Definition addSubmodule (s : TreeSize) (filename : bytes) : TreeSize :=
  let s := recordDepth s 1 in
  let s := recordPathLength s (Count_of_len filename) in
  mkTreeSize (MaxDepth s) (MaxPathLength s) (TreeCount s) (MaxTreeEntries s)
             (BlobCount s) (BlobSizeSum s)
             (LinkCount s) (addCapped (SubmoduleCount s) 1).

(** ** Results of fallible calls *)

(** [strconv.ErrSyntax] and [strconv.ErrRange]. *)
Inductive NumErrKind := ErrSyntax | ErrRange.

(** The error values the engine creates or passes on. *)
Inductive error :=
| EReader (msg : bytes)
    (* the error of a failed pipe read, e.g. [io.EOF] *)
| ENumError (num : bytes) (kind : NumErrKind)
    (* [*strconv.NumError] of [ParseUint] *)
| EMissingObject (oid : Oid)
    (* "missing object %s" *)
| EUnexpectedType (t : ObjType) (oid : Oid)
    (* "unexpected type %s for object %s" *)
| ENoSP
    (* "failed to find SP after mode" *)
| ENoNUL
    (* "failed to find NUL after filename" *)
| ETruncated
    (* "tree entry ends unexpectedly" *)
| EObjectUnexpectedType (oid : Oid) (t : ObjType)
    (* "object %v has unexpected type '%s'" *)
| ENotBlob (oid : Oid) (t : ObjType)
    (* "object %s is a %s, not a blob" *)
| NotYetKnown.
    (* "the size of an object is not yet known" *)

(** Run-time panics: the ones the Go runtime raises and the explicit
    [panic(...)] calls. *)
Inductive panic :=
| PIndexOutOfRange (i n : Z)
| PSliceBounds
| PMakeSliceLen
| PUnknownType (oid : Oid)
    (* "object %v has unknown type" *)
| PNotFilled.
    (* "queueTree() didn't fill tree" *)

Inductive result (A : Type) :=
| Ok (a : A)
| Err (e : error)
| Panic (p : panic).
Arguments Ok {A} a.
Arguments Err {A} e.
Arguments Panic {A} p.

#[global] Instance NumErrKind_eq_dec : EqDecision NumErrKind.
Proof. solve_decision. Defined.
#[global] Instance error_eq_dec : EqDecision error.
Proof. solve_decision. Defined.

(** ** The pipes of the store process *)

(** What a [bufio.Reader] on one of the pipes will deliver: the bytes
    the process still sends, and the error the read that finds them
    exhausted reports. *)
Record Reader := mkReader {
  pending : bytes;
  failure : bytes   (* the message of that error, e.g. "EOF" *)
}.

(** [strings.Split(s, sep)] for a one-byte separator. *)
Fixpoint Split (s : bytes) (sep : byte) : list bytes :=
  match s with
  | [] => [[]]
  | c :: s' =>
      if decide (c = sep) then [] :: Split s' sep
      else match Split s' sep with
           | w :: ws => (c :: w) :: ws
           | [] => [[c]]
           end
  end.

(** The first occurrence of [delim] in [l]: the bytes up to and
    including it, and the bytes after it. *)
Fixpoint cut_line (l : bytes) (delim : byte) : option (bytes * bytes) :=
  match l with
  | [] => None
  | c :: l' =>
      if decide (c = delim) then Some ([c], l')
      else match cut_line l' delim with
           | Some (line, rest) => Some (c :: line, rest)
           | None => None
           end
  end.

(** [ReadString(delim)] of a [bufio.Reader]: the line with its delimiter, or
    what was read and the reader's error. *)
Definition ReadString (r : Reader) (delim : byte)
  : bytes * option error * Reader :=
  match cut_line (pending r) delim with
  | Some (line, rest) => (line, None, mkReader rest (failure r))
  | None => (pending r, Some (EReader (failure r)), mkReader [] (failure r))
  end.

(** The loop [for len(rest) > 0 { n, err := Read(rest); ... }] filling a
    buffer of [n] bytes: every [Read] hands over some of the pending
    bytes, and the one that finds none fails. *)
Definition ReadFull (r : Reader) (n : Z) : result bytes :=
  if n <=? len (pending r)
  then Ok (take (Z.to_nat n) (pending r))
  else Err (EReader (failure r)).

(** ** [strconv.ParseUint] *)

Definition byte_val (c : byte) : Z := Z.of_N (Byte.to_N c).

(** The value of a digit: ['0'..'9'], or a letter of either case. *)
Definition digit_val (c : byte) : option Z :=
  let v := byte_val c in
  if (48 <=? v) && (v <=? 57) then Some (v - 48)
  else
    let lo := Z.lor v 32 in
    if (97 <=? lo) && (lo <=? 122) then Some (lo - 97 + 10) else None.

Fixpoint parse_digits (s0 s : bytes) (base maxVal n : Z) : Z + error :=
  match s with
  | [] => inl n
  | c :: s' =>
      match digit_val c with
      | None => inr (ENumError s0 ErrSyntax)
      | Some d =>
          if base <=? d then inr (ENumError s0 ErrSyntax)
          else
            let n1 := n * base + d in
            if maxVal <? n1 then inr (ENumError s0 ErrRange)
            else parse_digits s0 s' base maxVal n1
      end
  end.

(** [strconv.ParseUint(s, base, bitSize)] for an explicit base ([8] or
    [10] here: no prefix, no underscore) and [bitSize] 0 (the width of
    [uint], 64), 32 or 64. *)
Definition ParseUint (s : bytes) (base bitSize : Z) : Z + error :=
  match s with
  | [] => inr (ENumError s ErrSyntax)
  | _ =>
      let bits := if bitSize =? 0 then 64 else bitSize in
      parse_digits s s base (2 ^ bits - 1) 0
  end.

(** ** The store protocol client *)

(** The store process as the engine sees it: what each pipe delivers
    after the identifier has been written to it. *)
Record Repository := mkRepository {
  checkStdout : Oid -> Reader;   (* [git cat-file --batch-check] *)
  batchStdout : Oid -> Reader    (* [git cat-file --batch] *)
}.

Definition LF : byte := "010"%byte.
Definition SP : byte := " "%byte.
Definition NUL : byte := "000"%byte.

Definition ReadHeader (repo : Repository) (oid : Oid)
  : result (ObjType * Count) :=
  match ReadString (checkStdout repo oid) LF with
  | (_, Some err, _) => Err err
  | (header, None, _) =>
      let header := take (length header - 1) header in
      let words := Split header SP in
      match words !! 1%nat with
      | None => Panic (PIndexOutOfRange 1 (len words))
      | Some w1 =>
          if decide (w1 = str "missing") then Err (EMissingObject oid)
          else
            match words !! 2%nat with
            | None => Panic (PIndexOutOfRange 2 (len words))
            | Some w2 =>
                match ParseUint w2 10 0 with
                | inr err => Err err
                | inl size => Ok (w1, size)
                end
            end
      end
  end.

(** [ReadTree] returns the [data] of the [Tree]. *)
Definition ReadTree (repo : Repository) (oid : Oid) : result bytes :=
  match ReadString (batchStdout repo oid) LF with
  | (_, Some err, _) => Err err
  | (header, None, r) =>
      let header := take (length header - 1) header in
      let words := Split header SP in
      match words !! 1%nat with
      | None => Panic (PIndexOutOfRange 1 (len words))
      | Some w1 =>
          if decide (w1 = str "missing") then Err (EMissingObject oid)
          else if decide (w1 = str "tree") then
            match words !! 2%nat with
            | None => Panic (PIndexOutOfRange 2 (len words))
            | Some w2 =>
                match ParseUint w2 10 0 with
                | inr err => Err err
                | inl size =>
                    (* +1 for LF: *)
                    let n := wrap64 (size + 1) in
                    (* [make] panics on a length that is no [int] *)
                    if 2 ^ 63 - 1 <? n then Panic PMakeSliceLen
                    else
                      match ReadFull r n with
                      | Err err => Err err
                      | Panic p => Panic p
                      | Ok data =>
                          (* remove LF; [data] is empty when
                             [size+1] wrapped to 0: *)
                          if len data - 1 <? 0 then Panic PSliceBounds
                          else Ok (take (Z.to_nat (len data - 1)) data)
                      end
                end
            end
          else Err (EUnexpectedType w1 oid)
      end
  end.

(** ** The tree decoder *)

Record TreeEntry := mkTreeEntry {
  Name : bytes;
  EntryOid : Oid;       (* field [Oid] *)
  Filemode : Z
}.

(** [bytes.IndexByte(b, c)]: the index of the first [c] in [b], or -1. *)
Fixpoint IndexByte (b : bytes) (c : byte) : Z :=
  match b with
  | [] => -1
  | x :: b' =>
      if decide (x = c) then 0
      else let i := IndexByte b' c in if i <? 0 then -1 else i + 1
  end.

(** [NextEntry] on an iterator whose unread part is [data]: [Ok None]
    at the end of the tree, else the entry and the new unread part. *)
Definition NextEntry (data : bytes) : result (option (TreeEntry * bytes)) :=
  if len data =? 0 then Ok None
  else
    let spAt := IndexByte data SP in
    if spAt <? 0 then Err ENoSP
    else
      match ParseUint (take (Z.to_nat spAt) data) 8 32 with
      | inr err => Err err
      | inl mode =>
          let data := drop (Z.to_nat (spAt + 1)) data in
          let nulAt := IndexByte data NUL in
          if nulAt <? 0 then Err ENoNUL
          else
            let name := take (Z.to_nat nulAt) data in
            let data := drop (Z.to_nat (nulAt + 1)) data in
            if len data <? 20 then Err ETruncated
            else Ok (Some (mkTreeEntry name (take 20 data) mode,
                           drop 20 data))
      end.

(** The kind of an entry, by [entry.Filemode&0170000]. *)
Inductive EntryKind := KTree | KCommit | KSymlink | KBlob.

(** The octal constants [0170000], [0040000], [0160000], [0120000]. *)
Definition S_IFMT : Z := 61440.
Definition S_IFDIR : Z := 16384.
Definition S_IFGITLINK : Z := 57344.
Definition S_IFLNK : Z := 40960.

Definition entry_kind (mode : Z) : EntryKind :=
  let m := Z.land mode S_IFMT in
  if m =? S_IFDIR then KTree
  else if m =? S_IFGITLINK then KCommit
  else if m =? S_IFLNK then KSymlink
  else KBlob.

(** ** The work stack *)

Definition ToDoList := list Oid.

Definition Length (t : ToDoList) : Z := len t.
Definition Push (t : ToDoList) (oid : Oid) : ToDoList := t ++ [oid].
(** [t.list[len(t.list)-1]]; [None] stands for the index panic on an
    empty list. *)
Definition Peek (t : ToDoList) : option Oid := last t.
(** [t.list[0 : len(t.list)-1]]; [fill] calls it on a non-empty list
    only. *)
Definition Drop (t : ToDoList) : ToDoList := take (length t - 1) t.

(** ** The size cache *)

Record SizeCache := mkSizeCache {
  treeSizes : gmap Oid TreeSize;
  blobSizes : gmap Oid Count;
  todo : ToDoList
}.

(** [NewSizeCache] *)
Definition NewSizeCache : SizeCache := mkSizeCache ∅ ∅ [].

Definition set_treeSize (c : SizeCache) (oid : Oid) (s : TreeSize) :=
  mkSizeCache (<[oid := s]> (treeSizes c)) (blobSizes c) (todo c).
Definition set_blobSize (c : SizeCache) (oid : Oid) (n : Count) :=
  mkSizeCache (treeSizes c) (<[oid := n]> (blobSizes c)) (todo c).
Definition set_todo (c : SizeCache) (t : ToDoList) :=
  mkSizeCache (treeSizes c) (blobSizes c) t.

(** The [Size] interface: the two kinds of value [ObjectSize] returns. *)
Inductive Size :=
| SizeOfBlob (n : Count)
| SizeOfTree (s : TreeSize).

(** What [ObjectSize] returns: its three results, or a panic. *)
Inductive ObjectSizeResult :=
| Returns (t : ObjType) (s : option Size) (err : option error)
| Panics (p : panic).

Module Cache.

Definition BlobSize (repo : Repository) (cache : SizeCache) (oid : Oid)
  : result Count * SizeCache :=
  match blobSizes cache !! oid with
  | Some size => (Ok size, cache)
  | None =>
      match ReadHeader repo oid with
      | Err err => (Err err, cache)
      | Panic p => (Panic p, cache)
      | Ok (objectType, objectSize) =>
          if decide (objectType = str "blob")
          then (Ok objectSize, set_blobSize cache oid objectSize)
          else (Err (ENotBlob oid objectType), cache)
      end
  end.

(** The local variables of [queueTree] that its loop updates. *)
Record LoopState := mkLoopState {
  ok : bool;
  entryCount : Count;
  size : TreeSize
}.

(** The body of the loop of [queueTree] after a successful [NextEntry]:
    [Ok] to go on with the next entry, otherwise the [return] of the
    blob case. *)
Definition queueTree_entry (repo : Repository) (entry : TreeEntry)
    (st : LoopState) (cache : SizeCache)
  : result LoopState * SizeCache :=
  let entryCount := incEntryCount (entryCount st) in
  match entry_kind (Filemode entry) with
  | KTree =>
      match treeSizes cache !! EntryOid entry with
      | Some subsize =>
          if ok st
          then (Ok (mkLoopState true entryCount
                       (addDescendent (size st) (Name entry) subsize)),
                cache)
          else (Ok (mkLoopState false entryCount (size st)), cache)
      | None =>
          (* Schedule this one to be computed: *)
          (Ok (mkLoopState false entryCount (size st)),
           set_todo cache (Push (todo cache) (EntryOid entry)))
      end
  | KCommit =>
      (Ok (mkLoopState (ok st) entryCount
              (if ok st then addSubmodule (size st) (Name entry)
               else size st)),
       cache)
  | KSymlink =>
      (Ok (mkLoopState (ok st) entryCount
              (if ok st then addLink (size st) (Name entry) else size st)),
       cache)
  | KBlob =>
      match blobSizes cache !! EntryOid entry with
      | Some blobSize =>
          (Ok (mkLoopState (ok st) entryCount
                  (if ok st then addBlob (size st) (Name entry) blobSize
                   else size st)),
           cache)
      | None =>
          match BlobSize repo cache (EntryOid entry) with
          | (Err err, cache) => (Err err, cache)
          | (Panic p, cache) => (Panic p, cache)
          | (Ok blobSize, cache) =>
              (Ok (mkLoopState (ok st) entryCount
                      (addBlob (size st) (Name entry) blobSize)),
               cache)
          end
      end
  end.

(** The loop of [queueTree] over the unread part [iter]; [None] when
    [fuel] iterations did not reach the end. *)
Fixpoint queueTree_loop (fuel : nat) (repo : Repository) (iter : bytes)
    (st : LoopState) (cache : SizeCache)
  : option (result LoopState * SizeCache) :=
  match fuel with
  | O => None
  | S fuel =>
      match NextEntry iter with
      | Err err => Some (Err err, cache)
      | Panic p => Some (Panic p, cache)
      | Ok None => Some (Ok st, cache)
      | Ok (Some (entry, iter)) =>
          match queueTree_entry repo entry st cache with
          | (Err err, cache) => Some (Err err, cache)
          | (Panic p, cache) => Some (Panic p, cache)
          | (Ok st, cache) => queueTree_loop fuel repo iter st cache
          end
      end
  end.

(** Compute and return the size of [tree] if we already know the size
    of its constituents. If the constituents' sizes are not yet known
    but believed to be computable, add any unknown constituents to
    [todo] and return an [NotYetKnown] error. If another error occurred
    while looking up an object, return that error. *)
Definition queueTree (repo : Repository) (cache : SizeCache) (oid : Oid)
  : option (result TreeSize * SizeCache) :=
  match ReadTree repo oid with
  | Err err => Some (Err err, cache)
  | Panic p => Some (Panic p, cache)
  | Ok data =>
      match queueTree_loop (S (length data)) repo data
              (mkLoopState true 0 (mkTreeSize 0 0 1 0 0 0 0 0)) cache with
      | None => None
      | Some (Err err, cache) => Some (Err err, cache)
      | Some (Panic p, cache) => Some (Panic p, cache)
      | Some (Ok st, cache) =>
          if negb (ok st) then Some (Err NotYetKnown, cache)
          else
            (* Now add one to the depth and to the tree count to
               account for this tree itself: *)
            let size := size st in
            let depth := addCapped (MaxDepth size) 1 in
            Some (Ok (mkTreeSize depth (MaxPathLength size) (TreeCount size)
                        (if MaxTreeEntries size <? entryCount st
                         then entryCount st else MaxTreeEntries size)
                        (BlobCount size) (BlobSizeSum size)
                        (LinkCount size) (SubmoduleCount size)),
                  cache)
      end
  end.

(** Compute the sizes of any trees listed in [cache.todo]. [None] when
    [fuel] iterations did not empty the list. *)
Fixpoint fill (fuel : nat) (repo : Repository) (cache : SizeCache)
  : option (result unit * SizeCache) :=
  match fuel with
  | O => None
  | S fuel =>
      if Length (todo cache) =? 0 then Some (Ok tt, cache)
      else
        match Peek (todo cache) with
        | None => Some (Panic (PIndexOutOfRange (-1) 0), cache)
        | Some oid =>
            match treeSizes cache !! oid with
            | Some _ => fill fuel repo (set_todo cache (Drop (todo cache)))
            | None =>
                match queueTree repo cache oid with
                | None => None
                | Some (Ok s, cache) =>
                    let cache := set_treeSize cache oid s in
                    fill fuel repo (set_todo cache (Drop (todo cache)))
                | Some (Err NotYetKnown, cache) => fill fuel repo cache
                | Some (Err err, cache) => Some (Err err, cache)
                | Some (Panic p, cache) => Some (Panic p, cache)
                end
            end
        end
  end.

(** The end of [TreeSize], once [fill] has returned [nil]: "Now the
    size should be in the cache", else
    [panic("queueTree() didn't fill tree")]. *)
Definition TreeSize_filled (cache : SizeCache) (oid : Oid)
  : result TreeSize :=
  match treeSizes cache !! oid with
  | Some s => Ok s
  | None => Panic PNotFilled
  end.

Definition TreeSize (fuel : nat) (repo : Repository) (cache : SizeCache)
    (oid : Oid) : option (result TreeSize * SizeCache) :=
  match treeSizes cache !! oid with
  | Some s => Some (Ok s, cache)
  | None =>
      let cache := set_todo cache (Push (todo cache) oid) in
      match fill fuel repo cache with
      | None => None
      | Some (Err err, cache) => Some (Err err, cache)
      | Some (Panic p, cache) => Some (Panic p, cache)
      | Some (Ok _, cache) => Some (TreeSize_filled cache oid, cache)
      end
  end.

Definition ObjectSize (fuel : nat) (repo : Repository) (cache : SizeCache)
    (oid : Oid) : option (ObjectSizeResult * SizeCache) :=
  match ReadHeader repo oid with
  | Err err => Some (Returns (str "missing") None (Some err), cache)
  | Panic p => Some (Panics p, cache)
  | Ok (objectType, objectSize) =>
      if decide (objectType = str "blob") then
        Some (Returns (str "blob") (Some (SizeOfBlob objectSize)) None,
              set_blobSize cache oid objectSize)
      else if decide (objectType = str "tree") then
        match TreeSize fuel repo cache oid with
        | None => None
        | Some (Ok s, cache) =>
            Some (Returns (str "tree") (Some (SizeOfTree s)) None, cache)
        | Some (Err err, cache) =>
            Some (Returns (str "tree") (Some (SizeOfTree TreeSize_zero))
                    (Some err), cache)
        | Some (Panic p, cache) => Some (Panics p, cache)
        end
      else if decide (objectType = str "commit") then
        Some (Returns (str "commit") None
                (Some (EObjectUnexpectedType oid objectType)), cache)
      else if decide (objectType = str "tag") then
        Some (Returns (str "tag") None
                (Some (EObjectUnexpectedType oid objectType)), cache)
      else Some (Panics (PUnknownType oid), cache)
  end.

End Cache.

(** ** Notions used in the statements *)

(** The entries [NextEntry] yields from [data], up to the end of the
    payload or the first entry that fails to decode. *)
Fixpoint entries_of (fuel : nat) (data : bytes) : list TreeEntry :=
  match fuel with
  | O => []
  | S fuel =>
      match NextEntry data with
      | Ok (Some (e, rest)) => e :: entries_of fuel rest
      | _ => []
      end
  end.

Definition tree_entries (data : bytes) : list TreeEntry :=
  entries_of (S (length data)) data.

#[global] Instance EntryKind_eq_dec : EqDecision EntryKind.
Proof. solve_decision. Defined.

Definition kind_of (e : TreeEntry) : EntryKind := entry_kind (Filemode e).

(** The identifiers of the subtree entries of the tree [oid]: the edges
    of the object graph that the traversal follows. *)
Definition children (repo : Repository) (oid : Oid) : list Oid :=
  match ReadTree repo oid with
  | Ok data =>
      EntryOid <$> filter (λ e, kind_of e = KTree) (tree_entries data)
  | _ => []
  end.

Definition child (repo : Repository) (c p : Oid) : Prop :=
  c ∈ children repo p.

(** Every field of a record is a [uint64]. *)
Definition wf_TreeSize (s : TreeSize) : Prop :=
  is_count (MaxDepth s) ∧ is_count (MaxPathLength s) ∧
  is_count (TreeCount s) ∧ is_count (MaxTreeEntries s) ∧
  is_count (BlobCount s) ∧ is_count (BlobSizeSum s) ∧
  is_count (LinkCount s) ∧ is_count (SubmoduleCount s).

(** Every memoized value is made of [uint64]s. *)
Definition wf_cache (c : SizeCache) : Prop :=
  map_Forall (λ _ s, wf_TreeSize s) (treeSizes c) ∧
  map_Forall (λ _ n, is_count n) (blobSizes c).

(** A property of blob tables that survives the insertion of a size
    the header pipe reports for a blob. *)
Definition blob_closed (repo : Repository) (J : gmap Oid Count → Prop)
  : Prop :=
  ∀ m oid n, J m → ReadHeader repo oid = Ok (str "blob", n) →
             J (<[oid := n]> m).

(** Every entry of the blob table is a size the header pipe reports
    for that identifier, with type "blob". *)
Definition blob_table_ok (repo : Repository) (m : gmap Oid Count) : Prop :=
  ∀ oid n, m !! oid = Some n → ReadHeader repo oid = Ok (str "blob", n).

(** The records merged for the subtree entries among [es]. *)
Definition subrecords (ts : gmap Oid TreeSize) (es : list TreeEntry)
  : list TreeSize :=
  omap (λ e, if decide (kind_of e = KTree) then ts !! EntryOid e else None)
       es.

Definition sum_of (f : TreeSize → Count) (l : list TreeSize) : Z :=
  foldr (λ s acc, f s + acc) 0 l.

Definition max_of (f : TreeSize → Count) (l : list TreeSize) : Z :=
  foldr (λ s acc, Z.max (f s) acc) 0 l.

(** The number of entries of kind [k] among [es]. *)
Definition count_kind (k : EntryKind) (es : list TreeEntry) : Z :=
  len (filter (λ e, kind_of e = k) es).

(** What one entry adds to a record when every subtree is memoized in
    [ts] and every blob size is in [bs]. *)
Definition merge_entry (ts : gmap Oid TreeSize) (bs : gmap Oid Count)
    (s : TreeSize) (e : TreeEntry) : TreeSize :=
  match kind_of e with
  | KTree =>
      match ts !! EntryOid e with
      | Some sub => addDescendent s (Name e) sub
      | None => s
      end
  | KCommit => addSubmodule s (Name e)
  | KSymlink => addLink s (Name e)
  | KBlob =>
      match bs !! EntryOid e with
      | Some n => addBlob s (Name e) n
      | None => s
      end
  end.

Definition subtree_oids (es : list TreeEntry) : list Oid :=
  EntryOid <$> filter (λ e, kind_of e = KTree) es.

(** [resolves repo cache rest P]: some number of iterations of [fill]
    from [cache] either brings the stack down to [rest], in a cache
    that satisfies [P] and whose tree table has only grown, or makes
    [fill] return an error or panic. *)
Definition resolves (repo : Repository) (cache : SizeCache)
    (rest : ToDoList) (P : SizeCache → Prop) : Prop :=
  ∃ n : nat,
    (∃ cache', todo cache' = rest ∧
               treeSizes cache ⊆ treeSizes cache' ∧ P cache' ∧
               ∀ k, Cache.fill (n + k) repo cache = Cache.fill k repo cache')
    ∨ (∃ r cache', r ≠ Ok tt ∧
                   ∀ k, Cache.fill (n + k) repo cache = Some (r, cache')).

Definition memoized (oid : Oid) (cache : SizeCache) : Prop :=
  is_Some (treeSizes cache !! oid).

(** The record merged for one entry, if it is a memoized subtree. *)
Definition entry_sub (ts : gmap Oid TreeSize) (e : TreeEntry)
  : option TreeSize :=
  if decide (kind_of e = KTree) then ts !! EntryOid e else None.

(** 1 for an entry of kind [k], else 0. *)
Definition is_kind (k : EntryKind) (e : TreeEntry) : Z :=
  if decide (kind_of e = k) then 1 else 0.

(** The depth an entry contributes: its record's depth for a subtree,
    1 for a blob, link or submodule. *)
Definition entry_depth (ts : gmap Oid TreeSize) (e : TreeEntry) : Z :=
  match kind_of e with
  | KTree => from_option MaxDepth 0 (ts !! EntryOid e)
  | _ => 1
  end.

(** The maximum depth over the entries. *)
Definition depth_below (ts : gmap Oid TreeSize) (es : list TreeEntry) : Z :=
  foldr (λ e acc, Z.max (entry_depth ts e) acc) 0 es.

(** The size the blob table holds for a blob entry. *)
Definition entry_blob_size (bs : gmap Oid Count) (e : TreeEntry) : Z :=
  if decide (kind_of e = KBlob)
  then match bs !! EntryOid e with Some n => n | None => 0 end
  else 0.

(** The total of the sizes the blob table holds for the blob entries. *)
Definition blob_bytes (bs : gmap Oid Count) (es : list TreeEntry) : Z :=
  foldr (λ e acc, entry_blob_size bs e + acc) 0 es.

Definition entries_resolved (ts : gmap Oid TreeSize) (bs : gmap Oid Count)
    (es : list TreeEntry) : Prop :=
  Forall (λ e, (kind_of e = KTree → is_Some (ts !! EntryOid e)) ∧
               (kind_of e = KBlob → is_Some (bs !! EntryOid e))) es.

(** The header pipe answers the request for [oid] with a line
    [<id> missing]. *)
Definition reports_missing (repo : Repository) (oid : Oid) : Prop :=
  ∃ id rest,
    (SP ∉ id) ∧ (LF ∉ id) ∧
    pending (checkStdout repo oid) = id ++ str " missing" ++ LF :: rest.

(** A payload that stops inside an identifier: after the entries [es],
    a mode, SP, a name and NUL are followed by fewer than 20 bytes. *)
Inductive truncated_payload : bytes → list TreeEntry → Prop :=
| truncated_here mode name partial m :
    ParseUint mode 8 32 = inl m → NUL ∉ name →
    (length partial < 20)%nat →
    truncated_payload (mode ++ SP :: name ++ NUL :: partial) []
| truncated_later data e rest es :
    NextEntry data = Ok (Some (e, rest)) →
    truncated_payload rest es →
    truncated_payload data (e :: es).

(** The size of a blob entry can be had: it is in the blob table, or
    the header pipe reports a blob. *)
Definition blob_known (repo : Repository) (bs : gmap Oid Count)
    (e : TreeEntry) : Prop :=
  kind_of e = KBlob →
  is_Some (bs !! EntryOid e) ∨
  ∃ n, ReadHeader repo (EntryOid e) = Ok (str "blob", n).

(** ** A small object store

    A blob [B] of 10 bytes and the trees
    - [E], empty;
    - [T] = { blob "f" -> B, tree "d" -> E };
    - [X] = { blob "x" -> B };
    - [A] = { blob "xyz" -> B } and [U] = { tree "a" -> A };
    - [K] = { blob "f" -> B, blob "g" -> ... } whose payload stops ten
      bytes into the second identifier. *)

Module Sample.

Definition EOF : bytes := str "EOF".

(** Twenty times the same byte: an identifier. *)
Definition oid_of (c : byte) : Oid := repeat c 20.

Definition oidB : Oid := oid_of "b".
Definition oidE : Oid := oid_of "e".
Definition oidT : Oid := oid_of "t".
Definition oidX : Oid := oid_of "x".
Definition oidA : Oid := oid_of "a".
Definition oidU : Oid := oid_of "u".
Definition oidK : Oid := oid_of "k".
(** An identifier the store does not have. *)
Definition oidZ : Oid := oid_of "z".

(** One entry of a tree payload. *)
Definition entry_bytes (mode name : string) (oid : Oid) : bytes :=
  str mode ++ [SP] ++ str name ++ [NUL] ++ oid.

Definition dataT : bytes :=
  entry_bytes "100644" "f" oidB ++ entry_bytes "40000" "d" oidE.
Definition dataX : bytes := entry_bytes "100644" "x" oidB.
Definition dataA : bytes := entry_bytes "100644" "xyz" oidB.
Definition dataU : bytes := entry_bytes "40000" "a" oidA.
Definition dataK : bytes :=
  entry_bytes "100644" "f" oidB ++
  str "100644 g" ++ [NUL] ++ repeat ("k"%byte) 10.

(** What a pipe holds after a request: a header line and the bytes
    after it. *)
Definition reply (line : string) (payload : bytes) : Reader :=
  mkReader (str line ++ [LF] ++ payload) EOF.

(** The header line of each object. *)
Definition header_of (oid : Oid) : string :=
  if decide (oid = oidB)
  then "6262626262626262626262626262626262626262 blob 10"
  else if decide (oid = oidE)
  then "6565656565656565656565656565656565656565 tree 0"
  else if decide (oid = oidT)
  then "7474747474747474747474747474747474747474 tree 57"
  else if decide (oid = oidX)
  then "7878787878787878787878787878787878787878 tree 29"
  else if decide (oid = oidA)
  then "6161616161616161616161616161616161616161 tree 31"
  else if decide (oid = oidU)
  then "7575757575757575757575757575757575757575 tree 28"
  else if decide (oid = oidK)
  then "6b6b6b6b6b6b6b6b6b6b6b6b6b6b6b6b6b6b6b6b tree 48"
  else "7a7a7a7a7a7a7a7a7a7a7a7a7a7a7a7a7a7a7a7a missing".

(** The payload of each tree, with the LF that follows it. *)
Definition payload_of (oid : Oid) : bytes :=
  if decide (oid = oidE) then [LF]
  else if decide (oid = oidT) then dataT ++ [LF]
  else if decide (oid = oidX) then dataX ++ [LF]
  else if decide (oid = oidA) then dataA ++ [LF]
  else if decide (oid = oidU) then dataU ++ [LF]
  else if decide (oid = oidK) then dataK ++ [LF]
  else [].

Definition repo : Repository :=
  mkRepository (λ oid, reply (header_of oid) [])
               (λ oid, reply (header_of oid) (payload_of oid)).

(** The records of [E], [A], [T] and [U]. *)
Definition recE : TreeSize := mkTreeSize 1 0 1 0 0 0 0 0.
Definition recA : TreeSize := mkTreeSize 2 3 1 1 1 10 0 0.
Definition recT : TreeSize := mkTreeSize 2 1 2 2 1 10 0 0.
Definition recU : TreeSize := mkTreeSize 3 5 2 1 1 10 0 0.

(** A cache in which [E] and [A] are memoized. *)
Definition cacheEA : SizeCache :=
  mkSizeCache (<[oidE := recE]> (<[oidA := recA]> ∅)) ∅ [].

(** [cacheEA] after a pass over a tree that holds the blob [B]. *)
Definition cacheEAB : SizeCache :=
  mkSizeCache (treeSizes cacheEA) (<[oidB := 10]> ∅) [].

(** The cache after [TreeSize] of [U] from an empty cache. *)
Definition cacheU : SizeCache :=
  mkSizeCache (<[oidU := recU]> (<[oidA := recA]> ∅)) (<[oidB := 10]> ∅) [].

(** The cache after the failed [TreeSize] of [K] from an empty cache. *)
Definition cacheK : SizeCache :=
  mkSizeCache ∅ (<[oidB := 10]> ∅) [oidK].

(** A store whose header pipe answers with a line of one field. *)
Definition short_repo : Repository :=
  mkRepository (λ _, mkReader (str "deadbeef" ++ [LF]) EOF)
               (λ _, mkReader (str "deadbeef tree" ++ [LF]) EOF).

End Sample.

(** ** The tree payload format *)

(** The bytes of one entry of a tree payload, the mode given by its
    octal digits: [<mode> SP <name> NUL <20-byte identifier>]. *)
Definition encode_entry (digits : bytes) (e : TreeEntry) : bytes :=
  digits ++ SP :: Name e ++ NUL :: EntryOid e.

(** [digits] and [e] make an entry of the format: the digits are the
    octal mode, the name has no NUL, the identifier has 20 bytes. *)
Definition well_encoded (de : bytes * TreeEntry) : Prop :=
  ParseUint de.1 8 32 = inl (Filemode de.2) ∧
  (NUL ∉ Name de.2) ∧
  length (EntryOid de.2) = 20%nat.

(** A payload: the entries one after the other, without separator. *)
Definition encode_tree (l : list (bytes * TreeEntry)) : bytes :=
  flat_map (λ de, encode_entry de.1 de.2) l.

(** ** The records of the tree table *)

(** The last statements of [queueTree]: one level of depth for the tree
    itself, and its number of entries folded into [MaxTreeEntries]. *)
Definition finish (size : TreeSize) (entryCount : Count) : TreeSize :=
  mkTreeSize (addCapped (MaxDepth size) 1) (MaxPathLength size)
             (TreeCount size)
             (if MaxTreeEntries size <? entryCount
              then entryCount else MaxTreeEntries size)
             (BlobCount size) (BlobSizeSum size)
             (LinkCount size) (SubmoduleCount size).

(** The record of a tree with entries [es], from the records [ts] of
    its subtrees and the sizes [bs] of its blobs. *)
Definition record_of (ts : gmap Oid TreeSize) (bs : gmap Oid Count)
    (es : list TreeEntry) : TreeSize :=
  finish (foldl (merge_entry ts bs) (mkTreeSize 0 0 1 0 0 0 0 0) es)
         (foldl (λ n _, incEntryCount n) 0 es).

(** Every record of the tree table belongs to a tree whose payload the
    store delivers, whose subtrees and blobs are in the tables, and is
    the record of that tree's entries over these tables. *)
Definition tree_table_ok (repo : Repository) (ts : gmap Oid TreeSize)
    (bs : gmap Oid Count) : Prop :=
  ∀ oid s, ts !! oid = Some s →
    ∃ data, ReadTree repo oid = Ok data ∧
            entries_resolved ts bs (tree_entries data) ∧
            s = record_of ts bs (tree_entries data).

(** A cache whose tables agree with the store. *)
Definition cache_ok (repo : Repository) (c : SizeCache) : Prop :=
  wf_cache c ∧
  blob_table_ok repo (blobSizes c) ∧
  tree_table_ok repo (treeSizes c) (blobSizes c).

(** A tree the traversal can size: the store delivers its payload, the
    payload is a sequence of well-formed entries, the store reports a
    blob for each entry that is not a tree, link or submodule, and
    every subtree is such a tree in turn. *)
Inductive healthy (repo : Repository) : Oid → Prop :=
| healthy_tree oid l :
    ReadTree repo oid = Ok (encode_tree l) →
    Forall well_encoded l →
    (∀ e, e ∈ l.*2 → kind_of e = KBlob →
          ∃ n, ReadHeader repo (EntryOid e) = Ok (str "blob", n)) →
    (∀ e, e ∈ l.*2 → kind_of e = KTree → healthy repo (EntryOid e)) →
    healthy repo oid.

(** ** Identifiers in hexadecimal: [encoding/hex], [NewOid] and
    [Oid.String] *)

Inductive HexError :=
| InvalidByteError (b : byte)
    (* "encoding/hex: invalid byte: %#U" *)
| ErrLength.
    (* "encoding/hex: odd length hex string" *)

Inductive OidError :=
| EHex (e : HexError)
| EWrongLength.
    (* "hex oid has the wrong length" *)

Definition byte_of_Z (z : Z) : byte :=
  match Byte.of_N (Z.to_N z) with
  | Some b => b
  | None => "000"%byte
  end.

Definition hextable : bytes := str "0123456789abcdef".

(** [hextable[v]] *)
Definition hex_digit (v : Z) : byte := nth (Z.to_nat v) hextable "0"%byte.

(** [hex.EncodeToString] *)
Definition EncodeToString (src : bytes) : bytes :=
  flat_map (λ v, [hex_digit (Z.shiftr (byte_val v) 4);
                  hex_digit (Z.land (byte_val v) 15)]) src.

(** The value of a hexadecimal digit of either case. *)
Definition fromHexChar (c : byte) : option Z :=
  let v := byte_val c in
  if (48 <=? v) && (v <=? 57) then Some (v - 48)
  else if (97 <=? v) && (v <=? 102) then Some (v - 97 + 10)
  else if (65 <=? v) && (v <=? 70) then Some (v - 65 + 10)
  else None.

(** [hex.Decode]: the bytes decoded before the end or the first error.
    A bad character is reported before an odd length. *)
Fixpoint Decode (src : bytes) : bytes * option HexError :=
  match src with
  | [] => ([], None)
  | [p] =>
      match fromHexChar p with
      | None => ([], Some (InvalidByteError p))
      | Some _ => ([], Some ErrLength)
      end
  | p :: q :: src =>
      match fromHexChar p, fromHexChar q with
      | None, _ => ([], Some (InvalidByteError p))
      | Some _, None => ([], Some (InvalidByteError q))
      | Some a, Some b =>
          let '(dst, err) := Decode src in
          (byte_of_Z (Z.lor (Z.shiftl a 4) b) :: dst, err)
      end
  end.

(** [hex.DecodeString] *)
Definition DecodeString (s : bytes) : bytes * option HexError := Decode s.

Definition NewOid (s : bytes) : Oid + OidError :=
  match DecodeString s with
  | (_, Some err) => inr (EHex err)
  | (oidBytes, None) =>
      if decide (length oidBytes = 20%nat) then inl oidBytes
      else inr EWrongLength
  end.

(** [Oid.String] *)
Definition Oid_String (oid : Oid) : bytes := EncodeToString oid.

(** A byte with an upper-case ASCII letter turned into lower case. *)
Definition lower (c : byte) : byte :=
  let v := byte_val c in
  if (65 <=? v) && (v <=? 90) then byte_of_Z (v + 32) else c.

(** ** The same entries in another order *)

Module Permuted.

(** A tree [P] with the entries of [Sample.dataT] in reverse order. *)
Definition oidP : Oid := Sample.oid_of "p".

Definition dataP : bytes :=
  Sample.entry_bytes "40000" "d" Sample.oidE ++
  Sample.entry_bytes "100644" "f" Sample.oidB.

(** [Sample.repo] with the tree [P] added. *)
Definition repo : Repository :=
  mkRepository
    (checkStdout Sample.repo)
    (λ oid, if decide (oid = oidP)
            then Sample.reply "7070707070707070707070707070707070707070 tree 57"
                   (dataP ++ [LF])
            else batchStdout Sample.repo oid).

End Permuted.

(** * Reference filter options ([internal/refopts/filter_value.go])

    The option value is modelled over the parts of the packages [git]
    and [refopts] it uses, which are parameters here: the filters, the
    combiners and the table of reference groups. *)

Module RefOpts.

Inductive FilterError (RegexpError Symbol : Type) :=
| ERegexp (e : RegexpError)
    (* the error of [git.RegexpFilter], passed on *)
| EMissingRefgroupName
    (* "missing refgroup name" *)
| EUndefinedRefgroup (name : Symbol)
    (* "undefined refgroup '%s'" *)
| EParseBool (s : bytes)
    (* the syntax error of [strconv.ParseBool] *)
| EInvalidRegexp (s : bytes).
    (* "invalid regexp: %q" *)
Arguments ERegexp {RegexpError Symbol} e.
Arguments EMissingRefgroupName {RegexpError Symbol}.
Arguments EUndefinedRefgroup {RegexpError Symbol} name.
Arguments EParseBool {RegexpError Symbol} s.
Arguments EInvalidRegexp {RegexpError Symbol} s.

(** [strconv.ParseBool] *)
Definition ParseBool (s : bytes) : option bool :=
  if decide (s ∈ [str "1"; str "t"; str "T"; str "TRUE"; str "true";
                  str "True"])
  then Some true
  else if decide (s ∈ [str "0"; str "f"; str "F"; str "FALSE"; str "false";
                       str "False"])
  then Some false
  else None.

(** [strings.HasPrefix] and [strings.HasSuffix] *)
Definition HasPrefix (s p : bytes) : bool := bool_decide (p `prefix_of` s).
Definition HasSuffix (s p : bytes) : bool := bool_decide (p `suffix_of` s).

(** The slice [s[lo:hi]]; [None] stands for the panic on bounds out of
    range. *)
Definition slice (s : bytes) (lo hi : Z) : option bytes :=
  if (0 <=? lo) && (lo <=? hi) && (hi <=? len s)
  then Some (take (Z.to_nat (hi - lo)) (drop (Z.to_nat lo) s))
  else None.

Record filterValue (Combiner : Type) := mkFilterValue {
  combiner : Combiner;
  pattern : bytes;
  regexp : bool
}.
Arguments mkFilterValue {Combiner} combiner pattern regexp.
Arguments combiner {Combiner} f.
Arguments pattern {Combiner} f.
Arguments regexp {Combiner} f.

Section FilterValue.

Context {ReferenceFilter RegexpError Combiner RefGroup Symbol : Type}.
Context `{!EqDecision Symbol}.

(** [git.RegexpFilter] and [git.PrefixFilter] *)
Variable RegexpFilter : bytes → ReferenceFilter + RegexpError.
Variable PrefixFilter : bytes → ReferenceFilter.
(** [Combiner.Inverted] and [Combiner.Combine] *)
Variable Inverted : Combiner → Combiner.
Variable Combine :
  Combiner → ReferenceFilter → ReferenceFilter → ReferenceFilter.
(** [sizes.RefGroupSymbol(s)] and the symbol [""] *)
Variable RefGroupSymbol : bytes → Symbol.
Variable noSymbol : Symbol.
(** [v.rgb.groups[name]]; [None] for [nil] *)
Variable groups : Symbol → option RefGroup.
(** [refGroupFilter{refGroup}] *)
Variable refGroupFilter : RefGroup → ReferenceFilter.

(** Interpret an option argument flexibly; the outer [None] stands for
    a run-time panic on an index or slice out of range. *)
Definition interpretFlexibly (s : bytes)
  : option (ReferenceFilter + FilterError RegexpError Symbol) :=
  if (2 <=? len s) && HasPrefix s (str "/") && HasSuffix s (str "/") then
    match slice s 1 (len s - 1) with
    | None => None
    | Some pattern =>
        Some match RegexpFilter pattern with
             | inl f => inl f
             | inr e => inr (ERegexp e)
             end
    end
  else
    match (if 1 <=? len s
           then match s !! 0%nat with
                | None => None
                | Some c => Some (bool_decide (c = "@"%byte))
                end
           else Some false) with
    | None => None
    | Some true =>
        match slice s 1 (len s) with
        | None => None
        | Some rest =>
            let name := RefGroupSymbol rest in
            if decide (name = noSymbol) then Some (inr EMissingRefgroupName)
            else
              match groups name with
              | None => Some (inr (EUndefinedRefgroup name))
              | Some refGroup => Some (inl (refGroupFilter refGroup))
              end
        end
    | Some false => Some (inl (PrefixFilter s))
    end.

(** [Set], on the top-level filter [filter] of the builder: the error
    it returns, if any, and the top-level filter afterwards. *)
Definition Set_ (v : filterValue Combiner) (s : bytes)
    (filter : ReferenceFilter)
  : option (option (FilterError RegexpError Symbol) * ReferenceFilter) :=
  let chosen : Combiner * bytes + FilterError RegexpError Symbol :=
    if decide (pattern v ≠ [])
    then match ParseBool s with
         | None => inr (EParseBool s)
         | Some b =>
             inl (if b then combiner v else Inverted (combiner v), pattern v)
         end
    else inl (combiner v, s) in
  match chosen with
  | inr e => Some (Some e, filter)
  | inl (combiner, pattern) =>
      let interpreted :=
        if regexp v
        then Some match RegexpFilter pattern with
                  | inl f => inl f
                  | inr _ => inr (EInvalidRegexp s)
                  end
        else interpretFlexibly pattern in
      match interpreted with
      | None => None
      | Some (inr e) => Some (Some e, filter)
      | Some (inl f) => Some (None, Combine combiner filter f)
      end
  end.

(** [Type] *)
Definition Type_ (v : filterValue Combiner) : string :=
  if decide (pattern v ≠ []) then "bool"
  else if regexp v then "regexp" else "prefix".

End FilterValue.

End RefOpts.

(** * Properties *)

(** ** Saturating arithmetic *)

Lemma wrap64_small z : 0 <= z <= MaxUint64 → wrap64 z = z.
Proof. unfold wrap64, MaxUint64. intros H. apply Z.mod_small. lia. Qed.

Lemma wrap64_range z : is_count (wrap64 z).
Proof.
  unfold is_count, wrap64, MaxUint64.
  pose proof (Z.mod_pos_bound z (2 ^ 64) ltac:(lia)). lia.
Qed.

Lemma wrap64_overflow z :
  MaxUint64 < z <= 2 * MaxUint64 + 1 → wrap64 z = z - 2 ^ 64.
Proof.
  unfold wrap64, MaxUint64. intros H. symmetry.
  apply Z.mod_unique with (q := 1); lia.
Qed.

Lemma addCapped_min n1 n2 :
  is_count n1 → is_count n2 → addCapped n1 n2 = Z.min (n1 + n2) MaxUint64.
Proof.
  unfold is_count, addCapped. intros H1 H2.
  destruct (Z_le_gt_dec (n1 + n2) MaxUint64) as [Hle | Hgt].
  - rewrite wrap64_small by lia.
    destruct (Z.ltb_spec (n1 + n2) n1); lia.
  - rewrite wrap64_overflow by lia.
    destruct (Z.ltb_spec (n1 + n2 - 2 ^ 64) n1); unfold MaxUint64 in *; lia.
Qed.

Lemma addCapped_count n1 n2 :
  is_count n1 → is_count n2 → is_count (addCapped n1 n2).
Proof.
  intros H1 H2. rewrite addCapped_min by done. unfold is_count in *. lia.
Qed.

Lemma addCapped_min_l a b :
  0 <= a → is_count b →
  addCapped (Z.min a MaxUint64) b = Z.min (a + b) MaxUint64.
Proof.
  intros Ha Hb. rewrite addCapped_min; unfold is_count in *; lia.
Qed.

(** ** The decoder *)

Lemma IndexByte_range b c : IndexByte b c = -1 ∨ 0 <= IndexByte b c < len b.
Proof.
  unfold len. induction b as [|x b IH]; simpl; [by left|].
  destruct (decide (x = c)); [right; lia|].
  destruct (Z.ltb_spec (IndexByte b c) 0); [by left | right; lia].
Qed.

Lemma IndexByte_app_here (w rest : bytes) (c : byte) :
  c ∉ w → IndexByte (w ++ c :: rest) c = len w.
Proof.
  unfold len. induction w as [|x w IH]; simpl; intros Hw.
  - by rewrite decide_True.
  - rewrite decide_False by set_solver.
    rewrite IH by set_solver.
    destruct (Z.ltb_spec (Z.of_nat (length w)) 0); lia.
Qed.

Lemma parse_digits_error s0 s base maxVal n e :
  parse_digits s0 s base maxVal n = inr e → ∃ k, e = ENumError s0 k.
Proof.
  revert n. induction s as [|c s IH]; simpl; intros n H; [done|].
  destruct (digit_val c) as [d|]; [|naive_solver].
  destruct (base <=? d); [naive_solver|].
  destruct (maxVal <? n * base + d); [naive_solver|]. eauto.
Qed.

Lemma digit_val_nonneg c d : digit_val c = Some d → 0 <= d.
Proof.
  unfold digit_val. intros H.
  repeat case_match; simplify_eq;
    match goal with
    | E : (_ && _)%bool = true |- _ =>
        apply andb_true_iff in E; destruct E as [E1 E2];
        apply Z.leb_le in E1; lia
    end.
Qed.

Lemma parse_digits_range s0 s base maxVal n v :
  0 <= base → 0 <= n <= maxVal →
  parse_digits s0 s base maxVal n = inl v → 0 <= v <= maxVal.
Proof.
  intros Hb. revert n. induction s as [|c s IH]; simpl; intros n Hn H.
  - by simplify_eq.
  - destruct (digit_val c) as [d|] eqn:Hd; [|done].
    apply digit_val_nonneg in Hd.
    destruct (base <=? d); [done|].
    destruct (Z.ltb_spec maxVal (n * base + d)); [done|].
    apply (IH (n * base + d)); [nia | done].
Qed.

Lemma ParseUint_error s base bitSize e :
  ParseUint s base bitSize = inr e → ∃ k, e = ENumError s k.
Proof.
  unfold ParseUint. destruct s; [naive_solver|].
  apply parse_digits_error.
Qed.

Lemma ParseUint_nonempty s base bitSize v :
  ParseUint s base bitSize = inl v → s ≠ [].
Proof. by destruct s. Qed.

Lemma ParseUint_count s base v :
  0 <= base → ParseUint s base 0 = inl v → is_count v.
Proof.
  unfold ParseUint, is_count. destruct s; [done|]. intros Hb H.
  apply parse_digits_range in H; [done | done | simpl; lia].
Qed.

(** A decoded entry takes at least 23 bytes off the unread part: a
    mode digit, SP, NUL and the identifier. *)
Lemma NextEntry_shrinks data e rest :
  NextEntry data = Ok (Some (e, rest)) →
  (length rest + 23 <= length data)%nat ∧ length (EntryOid e) = 20%nat.
Proof.
  unfold NextEntry, len. intros H.
  destruct (Z.eqb_spec (Z.of_nat (length data)) 0); [done|].
  destruct (Z.ltb_spec (IndexByte data SP) 0) as [|Hsp]; [done|].
  destruct (ParseUint _ 8 32) as [mode|] eqn:Hmode; [|done].
  apply ParseUint_nonempty in Hmode.
  destruct (Z.ltb_spec (IndexByte (drop (Z.to_nat (IndexByte data SP + 1)) data) NUL) 0)
    as [|Hnul]; [done|].
  match type of H with (if ?b then _ else _) = _ =>
    destruct (Z.ltb_spec0 (Z.of_nat (length (drop (Z.to_nat (IndexByte (drop (Z.to_nat (IndexByte data SP + 1)) data) NUL + 1)) (drop (Z.to_nat (IndexByte data SP + 1)) data)))) 20) as [|Hlen]
  end; [done|].
  simplify_eq. simpl.
  assert (IndexByte data SP ≠ 0) as Hne.
  { intros Heq. rewrite Heq in Hmode. by apply Hmode. }
  rewrite !length_drop in Hlen |- *. rewrite length_take, !length_drop. lia.
Qed.

(** ** The protocol client *)

Lemma ReadHeader_Ok_inv repo oid t n :
  ReadHeader repo oid = Ok (t, n) → t ≠ str "missing" ∧ is_count n.
Proof.
  unfold ReadHeader. intros H.
  destruct (ReadString _ _) as [[header [err|]] r]; [done|].
  repeat case_match; simplify_eq.
  split; [done|]. by eapply ParseUint_count; [|eassumption].
Qed.

Lemma ReadHeader_Err_inv repo oid e :
  ReadHeader repo oid = Err e →
  (∃ m, e = EReader m) ∨ e = EMissingObject oid ∨ (∃ s k, e = ENumError s k).
Proof.
  unfold ReadHeader, ReadString. intros H.
  repeat case_match; simplify_eq; eauto.
  match goal with E : ParseUint _ _ _ = inr _ |- _ =>
    apply ParseUint_error in E as [k ->] end.
  eauto.
Qed.

(** ** [BlobSize] *)

Lemma BlobSize_inv repo cache oid r cache' :
  Cache.BlobSize repo cache oid = (r, cache') →
  treeSizes cache' = treeSizes cache ∧ todo cache' = todo cache ∧
  blobSizes cache ⊆ blobSizes cache' ∧
  r ≠ Err NotYetKnown ∧
  (∀ n, r = Ok n → blobSizes cache' !! oid = Some n) ∧
  (∀ J, blob_closed repo J → J (blobSizes cache) → J (blobSizes cache')) ∧
  ((∀ n, r ≠ Ok n) → cache' = cache).
Proof.
  unfold Cache.BlobSize. intros H.
  destruct (blobSizes cache !! oid) as [n|] eqn:Hb.
  { simplify_eq. naive_solver. }
  destruct (ReadHeader repo oid) as [[t n]|e|p] eqn:Hh.
  - case_decide; simplify_eq; simpl.
    + split_and!; try done.
      * by apply insert_subseteq.
      * intros n' [= <-]. by rewrite lookup_insert_eq.
      * intros J HJ HJm. by apply HJ.
      * intros Hn'. by destruct (Hn' n).
    + by split_and!.
  - apply ReadHeader_Err_inv in Hh.
    simplify_eq. split_and!; try done.
    intros [= ->]. by destruct Hh as [[? ?]|[?|(?&?&?)]].
  - simplify_eq. by split_and!.
Qed.

(** ** One pass over a tree: [queueTree] *)

Lemma merge_entry_weaken (ts : gmap Oid TreeSize) (bs bs' : gmap Oid Count)
    (s : TreeSize) (e : TreeEntry) :
  bs ⊆ bs' → (kind_of e = KBlob → is_Some (bs !! EntryOid e)) →
  merge_entry ts bs s e = merge_entry ts bs' s e.
Proof.
  unfold merge_entry. intros Hsub Hb.
  destruct (kind_of e); try done.
  destruct Hb as [n Hn]; [done|].
  by rewrite Hn, (lookup_weaken _ _ _ _ Hn Hsub).
Qed.

(** The effect of the loop body on the cache and on the loop
    variables. *)
Lemma queueTree_entry_inv repo e st cache r cache' :
  Cache.queueTree_entry repo e st cache = (r, cache') →
  treeSizes cache' = treeSizes cache ∧
  blobSizes cache ⊆ blobSizes cache' ∧
  (∀ J, blob_closed repo J → J (blobSizes cache) → J (blobSizes cache')) ∧
  r ≠ Err NotYetKnown ∧
  ∃ pushed,
    todo cache' = todo cache ++ pushed ∧
    (pushed = [] ∨
     pushed = [EntryOid e] ∧ kind_of e = KTree ∧
     treeSizes cache !! EntryOid e = None) ∧
    (kind_of e = KTree →
     is_Some (treeSizes cache !! EntryOid e) ∨ pushed = [EntryOid e]) ∧
    ∀ st', r = Ok st' →
      Cache.ok st' = Cache.ok st && bool_decide (pushed = []) ∧
      Cache.entryCount st' = incEntryCount (Cache.entryCount st) ∧
      (Cache.ok st' = true →
       Cache.size st' =
         merge_entry (treeSizes cache) (blobSizes cache') (Cache.size st) e ∧
       (kind_of e = KTree → is_Some (treeSizes cache !! EntryOid e)) ∧
       (kind_of e = KBlob → is_Some (blobSizes cache' !! EntryOid e))).
Proof.
  unfold Cache.queueTree_entry, merge_entry, kind_of. intros H.
  destruct (entry_kind (Filemode e)) eqn:Hk.
  - (* Tree *)
    destruct (treeSizes cache !! EntryOid e) as [sub|] eqn:Hsub.
    + destruct (Cache.ok st) eqn:Hok; simplify_eq;
        (split_and!; [done..|]);
        exists []; rewrite app_nil_r; (split_and!; [done|by left|eauto|]);
        intros st' [= <-]; simpl; split_and!; try done.
    + simplify_eq. simpl. split_and!; [done..|].
      exists [EntryOid e]. split_and!; [done|by right|by right|].
      intros st' [= <-]. simpl. rewrite andb_false_r. done.
  - (* Commit *)
    simplify_eq. split_and!; [done..|].
    exists []. rewrite app_nil_r. split_and!; [done|by left|done|].
    intros st' [= <-]. simpl. rewrite andb_true_r. split_and!; try done.
    by intros ->.
  - (* Symlink *)
    simplify_eq. split_and!; [done..|].
    exists []. rewrite app_nil_r. split_and!; [done|by left|done|].
    intros st' [= <-]. simpl. rewrite andb_true_r. split_and!; try done.
    by intros ->.
  - (* Blob *)
    destruct (blobSizes cache !! EntryOid e) as [n|] eqn:Hb.
    + simplify_eq. split_and!; [done..|].
      exists []. rewrite app_nil_r. split_and!; [done|by left|done|].
      intros st' [= <-]. simpl. rewrite andb_true_r. split_and!; try done.
      intros ->. rewrite Hb. split_and!; [done|done|eauto].
    + destruct (Cache.BlobSize repo cache (EntryOid e)) as [rb cb] eqn:HB.
      apply BlobSize_inv in HB as (Hts & Htodo & Hbs & Hne & Hn & Hwf & _).
      destruct rb as [n|err|p]; simplify_eq;
        (split_and!; [done|done|done|try done|]);
        try (intros [= ->]; done);
        (exists []; rewrite app_nil_r; split_and!; [done|by left|done|]);
        intros st' Hst'; simplify_eq.
      simpl. rewrite andb_true_r. split_and!; try done.
      intros _. rewrite (Hn n eq_refl). split_and!; [done|done|eauto].
Qed.

(** The loop of [queueTree]: it never touches the tree table, only adds
    to the blob table, pushes only subtree entries that are not
    memoized, and ends with [ok] exactly when it pushed nothing; a pass
    that ends with [ok] has folded every entry into the record. *)
Lemma queueTree_loop_inv repo fuel : ∀ data st cache r cache',
  Cache.queueTree_loop fuel repo data st cache = Some (r, cache') →
  treeSizes cache' = treeSizes cache ∧
  blobSizes cache ⊆ blobSizes cache' ∧
  (∀ J, blob_closed repo J → J (blobSizes cache) → J (blobSizes cache')) ∧
  r ≠ Err NotYetKnown ∧
  ∃ pushed,
    todo cache' = todo cache ++ pushed ∧
    Forall (λ c, c ∈ subtree_oids (entries_of fuel data) ∧
                 treeSizes cache !! c = None) pushed ∧
    ∀ st', r = Ok st' →
      Cache.ok st' = Cache.ok st && bool_decide (pushed = []) ∧
      Cache.entryCount st' =
        foldl (λ n _, incEntryCount n) (Cache.entryCount st)
              (entries_of fuel data) ∧
      Forall (λ c, is_Some (treeSizes cache !! c) ∨ c ∈ pushed)
             (subtree_oids (entries_of fuel data)) ∧
      (Cache.ok st' = true →
       Cache.size st' =
         foldl (merge_entry (treeSizes cache) (blobSizes cache'))
               (Cache.size st) (entries_of fuel data) ∧
       Forall (λ e,
                 (kind_of e = KTree → is_Some (treeSizes cache !! EntryOid e)) ∧
                 (kind_of e = KBlob → is_Some (blobSizes cache' !! EntryOid e)))
              (entries_of fuel data)).
Proof.
  induction fuel as [|fuel IH]; intros data st cache r cache' H; [done|].
  simpl in H |- *.
  destruct (NextEntry data) as [[[e rest]|]|err|p] eqn:HN.
  - destruct (Cache.queueTree_entry repo e st cache) as [re c1] eqn:HE.
    apply queueTree_entry_inv in HE
      as (Hts1 & Hbs1 & Hwf1 & Hne1 & p1 & Htodo1 & Hp1 & Hcov1 & Hst1).
    destruct re as [st1|err|p].
    + apply IH in H as (Hts & Hbs & Hwf & Hne & p2 & Htodo & Hp2 & Hst).
      split; [congruence|]. split; [by trans (blobSizes c1)|].
      split; [intros J HJ HJm; by apply Hwf, Hwf1|]. split; [done|].
      exists (p1 ++ p2). split_and!.
      * by rewrite Htodo, Htodo1, app_assoc.
      * apply Forall_app. split.
        -- destruct Hp1 as [->|(-> & Hk & Hnone)]; [done|].
           apply Forall_singleton. split; [|done].
           unfold subtree_oids. rewrite filter_cons_True by done.
           rewrite fmap_cons. apply list_elem_of_here.
        -- eapply Forall_impl; [exact Hp2|]. simpl. intros c [Hc Hnone].
           split; [|congruence].
           unfold subtree_oids in *. rewrite filter_cons.
           case_decide; [rewrite fmap_cons; by apply list_elem_of_further|done].
      * intros st' ->.
        destruct (Hst1 st1 eq_refl) as (Hok1 & Hec1 & Hsz1).
        destruct (Hst st' eq_refl) as (Hok & Hec & Hcov & Hsz).
        split_and!.
        -- rewrite Hok, Hok1, <- andb_assoc. f_equal.
           destruct p1, p2; done.
        -- by rewrite Hec, Hec1.
        -- unfold subtree_oids in *. rewrite filter_cons.
           assert (Forall (λ c, is_Some (treeSizes cache !! c) ∨ c ∈ p1 ++ p2)
                     (EntryOid <$> filter (λ e, kind_of e = KTree)
                                          (entries_of fuel rest))) as Hrest.
           { eapply Forall_impl; [exact Hcov|]. simpl. intros c [Hc|Hc].
             - left. by rewrite <- Hts1.
             - right. apply elem_of_app. by right. }
           case_decide as Hk; [|done].
           rewrite fmap_cons. apply Forall_cons. split; [|done].
           destruct (Hcov1 Hk) as [Hm| ->]; [by left|].
           right. apply elem_of_app. left. apply list_elem_of_here.
        -- intros Hok'. rewrite Hok' in Hok. symmetry in Hok.
           apply andb_true_iff in Hok as [Hok1' _].
           destruct (Hsz Hok') as [Hsize Hall].
           destruct (Hsz1 Hok1') as (Hsize1 & Htree1 & Hblob1).
           rewrite Hts1 in Hsize, Hall. split.
           ++ rewrite Hsize, Hsize1.
              by rewrite (merge_entry_weaken _ _ (blobSizes cache')).
           ++ apply Forall_cons. split; [|done]. split; [done|].
              intros Hk. destruct (Hblob1 Hk) as [n Hn].
              exists n. by eapply lookup_weaken.
    + simplify_eq. split_and!; try done.
      exists p1. split_and!; [done| |done].
      destruct Hp1 as [->|(-> & Hk & Hnone)]; [done|].
      apply Forall_singleton. split; [|done].
      unfold subtree_oids. rewrite filter_cons_True by done.
      rewrite fmap_cons. apply list_elem_of_here.
    + simplify_eq. split_and!; try done.
      exists p1. split_and!; [done| |done].
      destruct Hp1 as [->|(-> & Hk & Hnone)]; [done|].
      apply Forall_singleton. split; [|done].
      unfold subtree_oids. rewrite filter_cons_True by done.
      rewrite fmap_cons. apply list_elem_of_here.
  - simplify_eq. split_and!; try done.
    exists []. rewrite app_nil_r. split_and!; try done.
    intros st' [= <-]. rewrite andb_true_r. split_and!; done.
  - simplify_eq. split_and!; try done.
    + intros [= ->]. unfold NextEntry in HN.
      repeat case_match; simplify_eq.
      match goal with E : ParseUint _ _ _ = inr _ |- _ =>
        by apply ParseUint_error in E as [? ?] end.
    + exists []. by rewrite app_nil_r.
  - simplify_eq. split_and!; try done.
    exists []. by rewrite app_nil_r.
Qed.

(** The loop of [queueTree] ends: each entry shortens the unread part. *)
Lemma queueTree_loop_total repo fuel : ∀ data st cache,
  (length data < fuel)%nat →
  is_Some (Cache.queueTree_loop fuel repo data st cache).
Proof.
  induction fuel as [|fuel IH]; intros data st cache Hlen; [lia|].
  simpl. destruct (NextEntry data) as [[[e rest]|]|err|p] eqn:HN; try by eexists.
  apply NextEntry_shrinks in HN as [HN _].
  destruct (Cache.queueTree_entry repo e st cache) as [[st1|err|p] c1];
    try by eexists.
  apply IH. lia.
Qed.

Lemma queueTree_total repo cache oid :
  is_Some (Cache.queueTree repo cache oid).
Proof.
  unfold Cache.queueTree.
  destruct (ReadTree repo oid) as [data|err|p]; try by eexists.
  destruct (queueTree_loop_total repo (S (length data)) data
              (Cache.mkLoopState true 0 (mkTreeSize 0 0 1 0 0 0 0 0)) cache)
    as [[r c1] ->]; [lia|].
  destruct r as [st|err|p]; try by eexists.
  destruct (negb (Cache.ok st)); by eexists.
Qed.

(** What a pass over the tree [oid] does to the cache. *)
Lemma queueTree_inv repo cache oid r cache' :
  Cache.queueTree repo cache oid = Some (r, cache') →
  treeSizes cache' = treeSizes cache ∧
  blobSizes cache ⊆ blobSizes cache' ∧
  (∀ J, blob_closed repo J → J (blobSizes cache) → J (blobSizes cache')) ∧
  ∃ pushed,
    todo cache' = todo cache ++ pushed ∧
    Forall (λ c, child repo c oid ∧ treeSizes cache !! c = None) pushed ∧
    (r = Err NotYetKnown →
     pushed ≠ [] ∧
     ∀ c, child repo c oid → is_Some (treeSizes cache !! c) ∨ c ∈ pushed) ∧
    (∀ s, r = Ok s → pushed = []).
Proof.
  unfold Cache.queueTree, child, children. intros H.
  destruct (ReadTree repo oid) as [data|err|p] eqn:HR.
  2,3: simplify_eq; split_and!; try done;
       exists []; rewrite app_nil_r; split_and!; try done.
  2: { intros [= ->]. unfold ReadTree, ReadString, ReadFull in HR.
       repeat case_match; simplify_eq.
       match goal with E : ParseUint _ _ _ = inr _ |- _ =>
         by apply ParseUint_error in E as [? ?] end. }
  destruct (Cache.queueTree_loop _ _ _ _ _) as [[rl c1]|] eqn:HL; [|done].
  apply queueTree_loop_inv in HL
    as (Hts & Hbs & Hwf & Hne & pushed & Htodo & Hp & Hst).
  fold (tree_entries data) in Hp, Hst. unfold subtree_oids in Hp, Hst.
  destruct rl as [st|err|p].
  - destruct (Hst st eq_refl) as (Hok & _ & Hcov & _). simpl in Hok.
    destruct (Cache.ok st) eqn:Hokst; simpl in H; simplify_eq;
      (split_and!; [done..|]); exists pushed; split_and!; try done.
    + symmetry in Hok. apply bool_decide_eq_true in Hok. done.
    + intros _. split.
      * intros ->. done.
      * intros c Hc. by eapply Forall_forall in Hcov.
  - simplify_eq. split_and!; try done.
    exists pushed. split_and!; try done.
    intros Heq. by simplify_eq.
  - simplify_eq. split_and!; try done.
    exists pushed. split_and!; try done.
Qed.

(** ** The work stack *)

Lemma Peek_Push t oid : Peek (Push t oid) = Some oid.
Proof. apply last_snoc. Qed.

Lemma Drop_Push t oid : Drop (Push t oid) = t.
Proof.
  unfold Drop, Push. rewrite length_app. simpl.
  replace (length t + 1 - 1)%nat with (length t) by lia.
  apply take_app_length.
Qed.

Lemma Length_Push t oid : (Length (Push t oid) =? 0) = false.
Proof.
  unfold Length, Push, len. rewrite length_app. simpl.
  apply Z.eqb_neq. lia.
Qed.

Lemma Length_zero t : (Length t =? 0) = true → t = [].
Proof.
  unfold Length, len. intros H%Z.eqb_eq. destruct t; [done|simpl in H; lia].
Qed.

Lemma Peek_Some t oid : Peek t = Some oid → ∃ rest, t = Push rest oid.
Proof. apply last_Some. Qed.

(** ** The fixpoint loop: [fill] *)

(** One iteration of [fill] on a stack whose top is [oid]. *)
Lemma fill_step fuel repo cache rest oid :
  todo cache = Push rest oid →
  Cache.fill (S fuel) repo cache =
    match treeSizes cache !! oid with
    | Some _ => Cache.fill fuel repo (set_todo cache rest)
    | None =>
        match Cache.queueTree repo cache oid with
        | None => None
        | Some (Ok s, cache) =>
            Cache.fill fuel repo
              (set_todo (set_treeSize cache oid s) (Drop (todo cache)))
        | Some (Err NotYetKnown, cache) => Cache.fill fuel repo cache
        | Some (Err err, cache) => Some (Err err, cache)
        | Some (Panic p, cache) => Some (Panic p, cache)
        end
    end.
Proof.
  intros Htodo. simpl.
  rewrite Htodo, Length_Push, Peek_Push, Drop_Push. done.
Qed.

(** When [fill] returns without error the stack is empty, the tree
    table has only grown, and every identifier that was on the stack
    has a record. *)
Lemma fill_ok_memoized repo fuel : ∀ cache cache',
  Cache.fill fuel repo cache = Some (Ok tt, cache') →
  todo cache' = [] ∧
  treeSizes cache ⊆ treeSizes cache' ∧
  Forall (λ oid, is_Some (treeSizes cache' !! oid)) (todo cache).
Proof.
  induction fuel as [|fuel IH]; intros cache cache' H; [done|].
  destruct (Length (todo cache) =? 0) eqn:Hlen.
  { simpl in H. rewrite Hlen in H. simplify_eq.
    apply Length_zero in Hlen. rewrite Hlen. done. }
  destruct (Peek (todo cache)) as [oid|] eqn:HP.
  2: { simpl in H. rewrite Hlen, HP in H. done. }
  apply Peek_Some in HP as [rest Htodo].
  rewrite (fill_step _ _ _ _ _ Htodo) in H. rewrite Htodo.
  destruct (treeSizes cache !! oid) as [s0|] eqn:Hmem.
  - apply IH in H as (Hempty & Hsub & Hall). simpl in Hsub, Hall.
    split_and!; [done..|].
    apply Forall_app. split; [done|].
    apply Forall_singleton. exists s0. by eapply lookup_weaken.
  - destruct (Cache.queueTree repo cache oid) as [[r c1]|] eqn:HQ; [|done].
    apply queueTree_inv in HQ
      as (Hts & _ & _ & pushed & Htodo1 & _ & _ & Hok).
    destruct r as [s|err|p]; [| |done].
    + rewrite (Hok s eq_refl), app_nil_r, Htodo in Htodo1.
      apply IH in H as (Hempty & Hsub & Hall). simpl in Hsub, Hall.
      rewrite Htodo1, Drop_Push in Hall. rewrite Hts in Hsub.
      assert (treeSizes cache ⊆ treeSizes cache') as Hsub'.
      { etrans; [|exact Hsub]. by apply insert_subseteq. }
      split_and!; [done..|].
      apply Forall_app. split; [done|].
      apply Forall_singleton. exists s.
      eapply lookup_weaken; [|exact Hsub]. apply lookup_insert_eq.
    + destruct err; try done.
      apply IH in H as (Hempty & Hsub & Hall).
      rewrite Htodo1, Htodo in Hall. apply Forall_app in Hall as [Hall _].
      rewrite Hts in Hsub. done.
Qed.

(** ** Termination of [fill] *)

Lemma resolves_all repo (pushed : list Oid) :
  Forall (λ c, ∀ cache rest, todo cache = Push rest c →
               resolves repo cache rest (memoized c)) pushed →
  ∀ cache rest, todo cache = rest ++ pushed →
    resolves repo cache rest (λ c', Forall (λ c, memoized c c') pushed).
Proof.
  induction pushed as [|c pushed IH] using rev_ind; intros Hall cache rest Htodo.
  - exists 0%nat. left. exists cache. rewrite app_nil_r in Htodo. done.
  - rewrite Forall_app, Forall_singleton in Hall. destruct Hall as [Hall Hc].
    rewrite app_assoc in Htodo.
    destruct (Hc cache (rest ++ pushed) Htodo)
      as [n1 [(c1 & Htodo1 & Hsub1 & Hm1 & Hrun1)|(r & c1 & Hr & Hrun1)]].
    2: { exists n1. right. by exists r, c1. }
    destruct (IH Hall c1 rest Htodo1)
      as [n2 [(c2 & Htodo2 & Hsub2 & Hm2 & Hrun2)|(r & c2 & Hr & Hrun2)]].
    + exists (n1 + n2)%nat. left. exists c2. split_and!; [done|by etrans| |].
      * apply Forall_app. split; [done|]. apply Forall_singleton.
        destruct Hm1 as [s Hs]. exists s. by eapply lookup_weaken.
      * intros k. by rewrite <- Nat.add_assoc, Hrun1, Hrun2.
    + exists (n1 + n2)%nat. right. exists r, c2. split; [done|].
      intros k. by rewrite <- Nat.add_assoc, Hrun1, Hrun2.
Qed.

(** An identifier on top of the stack whose descendants form a
    well-founded graph is resolved (or an error stops the loop) after
    finitely many iterations. *)
Lemma resolves_top repo oid :
  Acc (child repo) oid →
  ∀ cache rest, todo cache = Push rest oid →
    resolves repo cache rest (memoized oid).
Proof.
  induction 1 as [oid _ IH]. intros cache rest Htodo.
  destruct (treeSizes cache !! oid) as [s0|] eqn:Hmem.
  { exists 1%nat. left. exists (set_todo cache rest).
    split_and!; [done|done|by exists s0|].
    intros k. change (1 + k)%nat with (S k).
    rewrite (fill_step _ _ _ _ _ Htodo), Hmem. done. }
  destruct (queueTree_total repo cache oid) as [[r c1] HQ].
  pose proof HQ as HQ'.
  apply queueTree_inv in HQ'
    as (Hts & _ & _ & pushed & Htodo1 & Hp & Hnyk & Hok).
  destruct r as [s|err|p].
  - (* the record is complete *)
    exists 1%nat. left.
    exists (set_todo (set_treeSize c1 oid s) (Drop (todo c1))).
    rewrite (Hok s eq_refl), app_nil_r in Htodo1.
    split_and!; [simpl..|].
    + by rewrite Htodo1, Htodo, Drop_Push.
    + rewrite Hts. by apply insert_subseteq.
    + exists s. apply lookup_insert_eq.
    + intros k. change (1 + k)%nat with (S k).
    rewrite (fill_step _ _ _ _ _ Htodo), Hmem, HQ. done.
  - destruct (decide (err = NotYetKnown)) as [->|Herr].
    2: { exists 1%nat. right. exists (Err err), c1. split; [done|].
         intros k. change (1 + k)%nat with (S k).
    rewrite (fill_step _ _ _ _ _ Htodo), Hmem, HQ.
         by destruct err. }
    (* children were pushed: resolve them, then retry *)
    destruct (Hnyk eq_refl) as [Hne Hcov].
    assert (Forall (λ c, ∀ cache rest, todo cache = Push rest c →
                         resolves repo cache rest (memoized c)) pushed) as Hall.
    { eapply Forall_impl; [exact Hp|]. simpl. intros c [Hc _]. by apply IH. }
    rewrite Htodo in Htodo1.
    destruct (resolves_all repo pushed Hall c1 (Push rest oid) Htodo1)
      as [n1 [(c2 & Htodo2 & Hsub2 & Hm2 & Hrun2)|(r & c2 & Hr & Hrun2)]].
    2: { exists (1 + n1)%nat. right. exists r, c2. split; [done|].
         intros k. change (1 + n1 + k)%nat with (S (n1 + k)).
         rewrite (fill_step _ _ _ _ _ Htodo), Hmem, HQ. apply Hrun2. }
    assert (∀ k, Cache.fill (1 + n1 + k) repo cache = Cache.fill k repo c2)
      as Hrun.
    { intros k. change (1 + n1 + k)%nat with (S (n1 + k)).
      rewrite (fill_step _ _ _ _ _ Htodo), Hmem, HQ. apply Hrun2. }
    rewrite Hts in Hsub2.
    destruct (treeSizes c2 !! oid) as [s2|] eqn:Hmem2.
    { exists (1 + n1 + 1)%nat. left. exists (set_todo c2 rest).
      split_and!; [done|done|by exists s2|].
      intros k. rewrite <- Nat.add_assoc, Hrun. change (1 + k)%nat with (S k).
      rewrite (fill_step _ _ _ _ _ Htodo2), Hmem2. done. }
    destruct (queueTree_total repo c2 oid) as [[r3 c3] HQ3].
    pose proof HQ3 as HQ3'.
    apply queueTree_inv in HQ3'
      as (Hts3 & _ & _ & pushed3 & Htodo3 & Hp3 & Hnyk3 & Hok3).
    destruct r3 as [s3|err3|p3].
    + exists (1 + n1 + 1)%nat. left.
      exists (set_todo (set_treeSize c3 oid s3) (Drop (todo c3))).
      rewrite (Hok3 s3 eq_refl), app_nil_r in Htodo3.
      split_and!; [simpl..|].
      * by rewrite Htodo3, Htodo2, Drop_Push.
      * rewrite Hts3. etrans; [exact Hsub2|]. by apply insert_subseteq.
      * exists s3. apply lookup_insert_eq.
      * intros k. rewrite <- Nat.add_assoc, Hrun. change (1 + k)%nat with (S k).
        rewrite (fill_step _ _ _ _ _ Htodo2), Hmem2, HQ3. done.
    + destruct (decide (err3 = NotYetKnown)) as [->|Herr3].
      { (* impossible: every child has a record by now *)
        destruct (Hnyk3 eq_refl) as [Hne3 _]. exfalso.
        destruct pushed3 as [|c pushed3]; [done|].
        apply Forall_cons in Hp3 as [[Hc Hnone] _].
        destruct (Hcov c Hc) as [[s Hs]|Hin].
        - by rewrite (lookup_weaken _ _ _ _ Hs Hsub2) in Hnone.
        - eapply Forall_forall in Hm2; [|exact Hin].
          destruct Hm2 as [s Hs]. by rewrite Hs in Hnone. }
      exists (1 + n1 + 1)%nat. right. exists (Err err3), c3. split; [done|].
      intros k. rewrite <- Nat.add_assoc, Hrun. change (1 + k)%nat with (S k).
      rewrite (fill_step _ _ _ _ _ Htodo2), Hmem2, HQ3. by destruct err3.
    + exists (1 + n1 + 1)%nat. right. exists (Panic p3), c3. split; [done|].
      intros k. rewrite <- Nat.add_assoc, Hrun. change (1 + k)%nat with (S k).
      rewrite (fill_step _ _ _ _ _ Htodo2), Hmem2, HQ3. done.
  - exists 1%nat. right. exists (Panic p), c1. split; [done|].
    intros k. change (1 + k)%nat with (S k).
    rewrite (fill_step _ _ _ _ _ Htodo), Hmem, HQ. done.
Qed.

(** ** The merge arithmetic *)

Lemma recordDepth_max s d :
  recordDepth s d =
  mkTreeSize (Z.max (MaxDepth s) d) (MaxPathLength s) (TreeCount s)
             (MaxTreeEntries s) (BlobCount s) (BlobSizeSum s)
             (LinkCount s) (SubmoduleCount s).
Proof.
  unfold recordDepth. destruct (Z.ltb_spec (MaxDepth s) d).
  - by rewrite Z.max_r by lia.
  - rewrite Z.max_l by lia. by destruct s.
Qed.

Lemma recordPathLength_max s n :
  recordPathLength s n =
  mkTreeSize (MaxDepth s) (Z.max (MaxPathLength s) n) (TreeCount s)
             (MaxTreeEntries s) (BlobCount s) (BlobSizeSum s)
             (LinkCount s) (SubmoduleCount s).
Proof.
  unfold recordPathLength. destruct (Z.ltb_spec (MaxPathLength s) n).
  - by rewrite Z.max_r by lia.
  - rewrite Z.max_l by lia. by destruct s.
Qed.

Lemma Count_of_len_count {A} (l : list A) : is_count (Count_of_len l).
Proof. apply wrap64_range. Qed.

Lemma is_count_max a b : is_count a → is_count b → is_count (Z.max a b).
Proof. unfold is_count. lia. Qed.

Lemma is_count_1 : is_count 1.
Proof. unfold is_count, MaxUint64. lia. Qed.

Create HintDb counts.
#[local] Hint Resolve addCapped_count wrap64_range Count_of_len_count
  is_count_max is_count_1 : counts.

Lemma addDescendent_wf s name s2 :
  wf_TreeSize s → wf_TreeSize s2 → wf_TreeSize (addDescendent s name s2).
Proof.
  unfold wf_TreeSize, addDescendent.
  intros (?&?&?&?&?&?&?&?) (?&?&?&?&?&?&?&?).
  rewrite recordDepth_max.
  destruct (0 <? MaxPathLength s2); rewrite recordPathLength_max; simpl;
    (split_and!; auto with counts);
    destruct (MaxTreeEntries s <? MaxTreeEntries s2); done.
Qed.

Lemma addBlob_wf s name n :
  wf_TreeSize s → is_count n → wf_TreeSize (addBlob s name n).
Proof.
  unfold wf_TreeSize, addBlob. intros (?&?&?&?&?&?&?&?) ?.
  rewrite recordDepth_max, recordPathLength_max. simpl.
  split_and!; auto with counts.
Qed.

Lemma addLink_wf s name : wf_TreeSize s → wf_TreeSize (addLink s name).
Proof.
  unfold wf_TreeSize, addLink. intros (?&?&?&?&?&?&?&?).
  rewrite recordDepth_max, recordPathLength_max. simpl.
  split_and!; auto with counts.
Qed.

Lemma addSubmodule_wf s name :
  wf_TreeSize s → wf_TreeSize (addSubmodule s name).
Proof.
  unfold wf_TreeSize, addSubmodule. intros (?&?&?&?&?&?&?&?).
  rewrite recordDepth_max, recordPathLength_max. simpl.
  split_and!; auto with counts.
Qed.

Lemma subrecords_cons ts e es :
  subrecords ts (e :: es) = option_list (entry_sub ts e) ++ subrecords ts es.
Proof.
  unfold subrecords, entry_sub. simpl.
  by destruct (decide (kind_of e = KTree)); [destruct (ts !! EntryOid e)|].
Qed.

Lemma sum_of_app f l1 l2 : sum_of f (l1 ++ l2) = sum_of f l1 + sum_of f l2.
Proof. unfold sum_of. induction l1; simpl; lia. Qed.


Lemma count_kind_cons k e es :
  count_kind k (e :: es) = is_kind k e + count_kind k es.
Proof.
  unfold count_kind, is_kind, len. rewrite filter_cons.
  destruct (decide (kind_of e = k)); simpl; lia.
Qed.

Lemma count_kind_nonneg k es : 0 <= count_kind k es.
Proof. unfold count_kind, len. lia. Qed.

Lemma sum_of_nonneg f l :
  Forall (λ s, 0 <= f s) l → 0 <= sum_of f l.
Proof. unfold sum_of. induction 1; simpl; lia. Qed.

Lemma max_of_nonneg f l : 0 <= max_of f l.
Proof. unfold max_of. induction l; simpl; lia. Qed.

Lemma max_of_app f l1 l2 :
  max_of f (l1 ++ l2) = Z.max (max_of f l1) (max_of f l2).
Proof.
  pose proof (max_of_nonneg f l2) as H. unfold max_of in *.
  induction l1; simpl; lia.
Qed.

Lemma subrecords_wf ts es :
  map_Forall (λ _ s, wf_TreeSize s) ts → Forall wf_TreeSize (subrecords ts es).
Proof.
  intros Hts. induction es as [|e es IH]; [constructor|].
  rewrite subrecords_cons. apply Forall_app. split; [|done].
  unfold entry_sub. destruct (decide (kind_of e = KTree)); [|constructor].
  destruct (ts !! EntryOid e) as [sub|] eqn:Hsub; [|constructor].
  apply Forall_singleton. by eapply Hts.
Qed.

(** The fields of a record after one entry has been merged. *)
Lemma merge_entry_fields ts bs s0 e :
  map_Forall (λ _ s, wf_TreeSize s) ts →
  map_Forall (λ _ n, is_count n) bs →
  wf_TreeSize s0 →
  (kind_of e = KTree → is_Some (ts !! EntryOid e)) →
  (kind_of e = KBlob → is_Some (bs !! EntryOid e)) →
  let s := merge_entry ts bs s0 e in
  let sub := option_list (entry_sub ts e) in
  wf_TreeSize s ∧
  TreeCount s = Z.min (TreeCount s0 + sum_of TreeCount sub) MaxUint64 ∧
  BlobCount s =
    Z.min (BlobCount s0 + sum_of BlobCount sub + is_kind KBlob e) MaxUint64 ∧
  LinkCount s =
    Z.min (LinkCount s0 + sum_of LinkCount sub + is_kind KSymlink e)
          MaxUint64 ∧
  SubmoduleCount s =
    Z.min (SubmoduleCount s0 + sum_of SubmoduleCount sub + is_kind KCommit e)
          MaxUint64 ∧
  BlobSizeSum s =
    Z.min (BlobSizeSum s0 + sum_of BlobSizeSum sub + entry_blob_size bs e)
          MaxUint64 ∧
  MaxDepth s = Z.max (MaxDepth s0) (entry_depth ts e) ∧
  MaxTreeEntries s =
    Z.max (MaxTreeEntries s0) (max_of MaxTreeEntries sub).
Proof.
  intros Hts Hbs Hwf0 Htree Hblob.
  unfold merge_entry, entry_sub, is_kind, entry_depth, entry_blob_size.
  pose proof Hwf0 as (?&?&?&?&?&?&?&?).
  destruct (kind_of e) eqn:Hk; simpl.
  - destruct Htree as [sub Hsub]; [done|]. rewrite Hsub.
    pose proof (Hts _ _ Hsub) as Hwfsub. simpl in Hwfsub.
    pose proof Hwfsub as (?&?&?&?&?&?&?&?).
    split; [by apply addDescendent_wf|].
    unfold addDescendent. rewrite recordDepth_max.
    destruct (0 <? MaxPathLength sub); rewrite recordPathLength_max; simpl;
      rewrite !addCapped_min by done;
      unfold sum_of, max_of, is_count in *; simpl;
      (destruct (Z.ltb_spec (MaxTreeEntries s0) (MaxTreeEntries sub)));
      split_and!; lia.
  - split; [by apply addSubmodule_wf|].
    unfold addSubmodule. rewrite recordDepth_max, recordPathLength_max. simpl.
    rewrite !addCapped_min by auto with counts.
    unfold sum_of, max_of, is_count in *; simpl. split_and!; lia.
  - split; [by apply addLink_wf|].
    unfold addLink. rewrite recordDepth_max, recordPathLength_max. simpl.
    rewrite !addCapped_min by auto with counts.
    unfold sum_of, max_of, is_count in *; simpl. split_and!; lia.
  - destruct Hblob as [n Hn]; [done|]. rewrite Hn.
    pose proof (Hbs _ _ Hn) as Hcn. simpl in Hcn.
    split; [by apply addBlob_wf|].
    unfold addBlob. rewrite recordDepth_max, recordPathLength_max. simpl.
    rewrite !addCapped_min by auto with counts.
    unfold sum_of, max_of, is_count, Count in *; simpl. rewrite Hn.
    split_and!; lia.
Qed.

Lemma entry_blob_size_nonneg bs e :
  map_Forall (λ _ n, is_count n) bs → 0 <= entry_blob_size bs e.
Proof.
  intros Hbs. unfold entry_blob_size.
  destruct (decide (kind_of e = KBlob)); [|lia].
  destruct (bs !! EntryOid e) as [n|] eqn:Hn; [|lia].
  apply Hbs in Hn. unfold is_count in Hn. simpl in Hn. lia.
Qed.

Lemma blob_bytes_nonneg bs es :
  map_Forall (λ _ n, is_count n) bs → 0 <= blob_bytes bs es.
Proof.
  intros Hbs. unfold blob_bytes. induction es as [|e es IH]; simpl; [lia|].
  pose proof (entry_blob_size_nonneg bs e Hbs). lia.
Qed.

(** The fields of a record after all the entries [es] have been merged:
    counts are saturated sums, depth and entry count are maxima. *)
Lemma foldl_merge_fields ts bs es :
  map_Forall (λ _ s, wf_TreeSize s) ts →
  map_Forall (λ _ n, is_count n) bs →
  entries_resolved ts bs es →
  ∀ s0, wf_TreeSize s0 →
  let s := foldl (merge_entry ts bs) s0 es in
  let subs := subrecords ts es in
  wf_TreeSize s ∧
  TreeCount s = Z.min (TreeCount s0 + sum_of TreeCount subs) MaxUint64 ∧
  BlobCount s =
    Z.min (BlobCount s0 + sum_of BlobCount subs + count_kind KBlob es)
          MaxUint64 ∧
  LinkCount s =
    Z.min (LinkCount s0 + sum_of LinkCount subs + count_kind KSymlink es)
          MaxUint64 ∧
  SubmoduleCount s =
    Z.min (SubmoduleCount s0 + sum_of SubmoduleCount subs
           + count_kind KCommit es) MaxUint64 ∧
  BlobSizeSum s =
    Z.min (BlobSizeSum s0 + sum_of BlobSizeSum subs + blob_bytes bs es)
          MaxUint64 ∧
  MaxDepth s = Z.max (MaxDepth s0) (depth_below ts es) ∧
  MaxTreeEntries s = Z.max (MaxTreeEntries s0) (max_of MaxTreeEntries subs).
Proof.
  intros Hts Hbs Hall.
  induction Hall as [|e es [Htree Hblob] Hall IH]; intros s0 Hwf0.
  - simpl. pose proof Hwf0 as (?&?&?&?&?&?&?&?).
    unfold sum_of, max_of, count_kind, blob_bytes, depth_below, len,
      is_count in *.
    simpl. split_and!; try done; lia.
  - simpl foldl.
    destruct (merge_entry_fields ts bs s0 e Hts Hbs Hwf0 Htree Hblob)
      as (Hwf1 & HT1 & HB1 & HL1 & HS1 & HZ1 & HD1 & HE1).
    destruct (IH _ Hwf1) as (Hwf & HT & HB & HL & HS & HZ & HD & HE).
    split; [done|].
    rewrite HT, HB, HL, HS, HZ, HD, HE, HT1, HB1, HL1, HS1, HZ1, HD1, HE1.
    clear HT HB HL HS HZ HD HE HT1 HB1 HL1 HS1 HZ1 HD1 HE1.
    rewrite subrecords_cons, !sum_of_app, max_of_app, !count_kind_cons.
    pose proof (subrecords_wf ts es Hts) as Hsubs.
    assert (Forall wf_TreeSize (option_list (entry_sub ts e))) as Hsub1.
    { pose proof (subrecords_wf ts [e] Hts) as H1.
      by rewrite subrecords_cons, app_nil_r in H1. }
    assert (∀ f l, (∀ s, wf_TreeSize s → is_count (f s)) →
                   Forall wf_TreeSize l → 0 <= sum_of f l) as Hnn.
    { intros f l Hf Hl. apply sum_of_nonneg.
      eapply Forall_impl; [exact Hl|]. intros s Hs. by apply Hf in Hs as []. }
    pose proof (Hnn TreeCount _ ltac:(by intros ? (?&?&?&?&?&?&?&?)) Hsubs).
    pose proof (Hnn BlobCount _ ltac:(by intros ? (?&?&?&?&?&?&?&?)) Hsubs).
    pose proof (Hnn LinkCount _ ltac:(by intros ? (?&?&?&?&?&?&?&?)) Hsubs).
    pose proof (Hnn SubmoduleCount _ ltac:(by intros ? (?&?&?&?&?&?&?&?)) Hsubs).
    pose proof (Hnn BlobSizeSum _ ltac:(by intros ? (?&?&?&?&?&?&?&?)) Hsubs).
    pose proof (Hnn TreeCount _ ltac:(by intros ? (?&?&?&?&?&?&?&?)) Hsub1).
    pose proof (Hnn BlobCount _ ltac:(by intros ? (?&?&?&?&?&?&?&?)) Hsub1).
    pose proof (Hnn LinkCount _ ltac:(by intros ? (?&?&?&?&?&?&?&?)) Hsub1).
    pose proof (Hnn SubmoduleCount _ ltac:(by intros ? (?&?&?&?&?&?&?&?)) Hsub1).
    pose proof (Hnn BlobSizeSum _ ltac:(by intros ? (?&?&?&?&?&?&?&?)) Hsub1).
    pose proof (count_kind_nonneg KBlob es).
    pose proof (count_kind_nonneg KSymlink es).
    pose proof (count_kind_nonneg KCommit es).
    pose proof (blob_bytes_nonneg bs es Hbs).
    pose proof (entry_blob_size_nonneg bs e Hbs).
    assert (∀ k, 0 <= is_kind k e) as Hkind
      by (intros k; unfold is_kind; case_decide; lia).
    pose proof (Hkind KBlob). pose proof (Hkind KSymlink).
    pose proof (Hkind KCommit).
    unfold blob_bytes, depth_below. simpl.
    fold (blob_bytes bs es). fold (depth_below ts es).
    split_and!; lia.
Qed.

Lemma blob_closed_counts repo :
  blob_closed repo (map_Forall (λ _ n, is_count n)).
Proof.
  intros m oid n Hm Hh. apply ReadHeader_Ok_inv in Hh as [_ Hn].
  by apply map_Forall_insert_2.
Qed.

Lemma blob_closed_table_ok repo : blob_closed repo (blob_table_ok repo).
Proof.
  intros m oid n Hm Hh oid' n' Hl.
  destruct (decide (oid = oid')) as [<-|Hne].
  - rewrite lookup_insert_eq in Hl. by simplify_eq.
  - rewrite lookup_insert_ne in Hl by done. by apply Hm.
Qed.

Lemma incEntryCount_wrap n : incEntryCount (wrap64 n) = wrap64 (n + 1).
Proof. unfold incEntryCount, wrap64. apply Zplus_mod_idemp_l. Qed.

(** The entry count after [es]: increments that wrap at [2^64]. *)
Lemma entryCount_foldl (es : list TreeEntry) n :
  foldl (λ n _, incEntryCount n) (wrap64 n) es = wrap64 (n + len es).
Proof.
  revert n. unfold len.
  induction es as [|e es IH]; intros n; [by rewrite Z.add_0_r|].
  cbn [foldl]. rewrite incEntryCount_wrap, IH. f_equal.
  rewrite length_cons. lia.
Qed.

Lemma depth_below_nonneg ts es : 0 <= depth_below ts es.
Proof. unfold depth_below. induction es; simpl; lia. Qed.

(** The record a successful pass returns, field by field. *)
Lemma queueTree_Ok_fields repo cache oid s cache' :
  wf_cache cache →
  Cache.queueTree repo cache oid = Some (Ok s, cache') →
  ∃ data, ReadTree repo oid = Ok data ∧
    let es := tree_entries data in
    let ts := treeSizes cache in
    let bs := blobSizes cache' in
    let subs := subrecords ts es in
    entries_resolved ts bs es ∧
    wf_cache cache' ∧ todo cache' = todo cache ∧
    treeSizes cache' = treeSizes cache ∧
    wf_TreeSize s ∧
    TreeCount s = Z.min (1 + sum_of TreeCount subs) MaxUint64 ∧
    BlobCount s =
      Z.min (sum_of BlobCount subs + count_kind KBlob es) MaxUint64 ∧
    LinkCount s =
      Z.min (sum_of LinkCount subs + count_kind KSymlink es) MaxUint64 ∧
    SubmoduleCount s =
      Z.min (sum_of SubmoduleCount subs + count_kind KCommit es) MaxUint64 ∧
    BlobSizeSum s =
      Z.min (sum_of BlobSizeSum subs + blob_bytes bs es) MaxUint64 ∧
    MaxDepth s = addCapped (depth_below ts es) 1 ∧
    MaxPathLength s =
      MaxPathLength (foldl (merge_entry ts bs) (mkTreeSize 0 0 1 0 0 0 0 0) es) ∧
    MaxTreeEntries s =
      Z.max (max_of MaxTreeEntries subs) (wrap64 (len es)).
Proof.
  intros [Hwft Hwfb] H. unfold Cache.queueTree in H.
  destruct (ReadTree repo oid) as [data|err|p] eqn:HR; [|done..].
  exists data. split; [done|].
  destruct (Cache.queueTree_loop _ _ _ _ _) as [[rl c1]|] eqn:HL; [|done].
  apply queueTree_loop_inv in HL
    as (Hts & Hbs & HJ & Hne & pushed & Htodo & Hp & Hst).
  fold (tree_entries data) in Hp, Hst.
  destruct rl as [st|err|p]; [|done..].
  destruct (Hst st eq_refl) as (Hok & Hec & _ & Hsz). simpl in Hok, Hec.
  destruct (Cache.ok st) eqn:Hokst; simpl in H; [|done].
  destruct (Hsz eq_refl) as [Hsize Hres].
  symmetry in Hok. apply bool_decide_eq_true in Hok. subst pushed.
  rewrite app_nil_r in Htodo.
  change 0 with (wrap64 0) in Hec at 1.
  rewrite entryCount_foldl, Z.add_0_l in Hec.
  assert (map_Forall (λ _ n, is_count n) (blobSizes c1)) as Hwfb1.
  { by apply (HJ _ (blob_closed_counts repo)). }
  assert (wf_TreeSize (mkTreeSize 0 0 1 0 0 0 0 0)) as Hwf0.
  { unfold wf_TreeSize, is_count, MaxUint64. simpl. lia. }
  destruct (foldl_merge_fields _ _ _ Hwft Hwfb1 Hres _ Hwf0)
    as (Hwf & HT & HB & HL & HS & HZ & HD & HE).
  cbn [Cache.size] in Hsize.
  rewrite <- Hsize in Hwf, HT, HB, HL, HS, HZ, HD, HE.
  cbn [MaxDepth MaxPathLength TreeCount MaxTreeEntries BlobCount BlobSizeSum
       LinkCount SubmoduleCount] in HT, HB, HL, HS, HZ, HD, HE.
  simplify_eq. simpl.
  pose proof Hwf as (?&?&?&?&?&?&?&?).
  pose proof (wrap64_range (len (tree_entries data))) as Hecr.
  pose proof (max_of_nonneg MaxTreeEntries
                (subrecords (treeSizes cache) (tree_entries data))).
  pose proof (is_count_1).
  split_and!; try done; try lia.
  - split; [by rewrite Hts|done].
  - unfold wf_TreeSize. simpl. split_and!; auto with counts.
    rewrite Hec. by destruct (_ <? _).
  - rewrite HD. f_equal.
    pose proof (depth_below_nonneg (treeSizes cache) (tree_entries data)).
    lia.
  - by rewrite Hsize.
  - rewrite Hec, HE.
    destruct (_ <? _) eqn:E; [apply Z.ltb_lt in E | apply Z.ltb_ge in E]; lia.
Qed.

(** ** Bounds on what [ReadTree] delivers *)

Lemma ReadTree_len repo oid data :
  ReadTree repo oid = Ok data → len data < 2 ^ 63.
Proof.
  unfold ReadTree, ReadFull, len. intros H.
  destruct (ReadString _ _) as [[header [err|]] r]; [done|].
  repeat case_match; simplify_eq.
  rewrite !length_take.
  match goal with E : (2 ^ 63 - 1 <? ?n) = false |- _ =>
    apply Z.ltb_ge in E end.
  lia.
Qed.

Lemma entries_of_length fuel : ∀ data,
  (length (entries_of fuel data) * 23 <= length data)%nat.
Proof.
  induction fuel as [|fuel IH]; intros data; simpl; [lia|].
  destruct (NextEntry data) as [[[e rest]|]|err|p] eqn:HN; simpl; try lia.
  apply NextEntry_shrinks in HN as [HN _]. specialize (IH rest). lia.
Qed.

Lemma entries_of_count repo oid data :
  ReadTree repo oid = Ok data →
  wrap64 (len (tree_entries data)) = len (tree_entries data).
Proof.
  intros H%ReadTree_len. apply wrap64_small.
  pose proof (entries_of_length (S (length data)) data) as Hl.
  unfold tree_entries, len, MaxUint64 in *. lia.
Qed.

(** ** The example store *)

Lemma wf_cacheEA : wf_cache Sample.cacheEA.
Proof.
  split; simpl.
  - apply map_Forall_insert_2; [|apply map_Forall_insert_2];
      [..|apply map_Forall_empty];
      unfold wf_TreeSize, is_count, MaxUint64; simpl; lia.
  - apply map_Forall_empty.
Qed.

Lemma queueTree_T :
  Cache.queueTree Sample.repo Sample.cacheEA Sample.oidT =
  Some (Ok Sample.recT, Sample.cacheEAB).
Proof. vm_compute. reflexivity. Qed.

Lemma ReadTree_T : ReadTree Sample.repo Sample.oidT = Ok Sample.dataT.
Proof. vm_compute. reflexivity. Qed.

Lemma queueTree_U :
  Cache.queueTree Sample.repo Sample.cacheEA Sample.oidU =
  Some (Ok Sample.recU, Sample.cacheEA).
Proof. vm_compute. reflexivity. Qed.

Lemma ReadTree_U : ReadTree Sample.repo Sample.oidU = Ok Sample.dataU.
Proof. vm_compute. reflexivity. Qed.

(** * The claims *)

(** ** C1: saturating counters *)




(** ** C2: the depth law *)

Lemma depth_below_leaves ts es :
  es ≠ [] → Forall (λ e, kind_of e ≠ KTree) es → depth_below ts es = 1.
Proof.
  unfold depth_below. intros Hne Hall.
  induction Hall as [|e es He Hall IH]; [done|]. simpl.
  assert (entry_depth ts e = 1) as ->.
  { unfold entry_depth. by destruct (kind_of e). }
  destruct es as [|e' es]; [done|].
  rewrite IH by done. done.
Qed.

Lemma depth_below_le ts es d :
  0 <= d → Forall (λ e, entry_depth ts e <= d) es → depth_below ts es <= d.
Proof. unfold depth_below. intros Hd. induction 1; simpl; lia. Qed.

Lemma depth_below_max ts es d :
  0 <= d →
  (∃ e, e ∈ es ∧ entry_depth ts e = d) →
  Forall (λ e, entry_depth ts e <= d) es →
  depth_below ts es = d.
Proof.
  intros H0 (e & He & Hd) Hall.
  pose proof (depth_below_le ts es d H0 Hall) as Hle.
  assert (d <= depth_below ts es); [|lia].
  clear Hle Hall. unfold depth_below.
  induction es as [|e' es IH]; [by apply elem_of_nil in He|].
  simpl. apply elem_of_cons in He as [->|He]; [lia|].
  specialize (IH He). lia.
Qed.

(** C2: for a successfully computed record [s] of a tree with entries
    [es]: no entries give [MaxDepth] 1; entries that are all blobs,
    links or submodules give 2; a subtree entry whose record has depth
    [d] at least as large as any other entry's gives [d + 1], capped
    at [2^64-1]; in every case the depth is one more (saturating) than
    the maximum over the entries, and [MaxTreeEntries] is the maximum of
    the subtrees' values and the number of direct entries. *)
Theorem depth_law repo cache oid s cache' data :
  wf_cache cache →
  Cache.queueTree repo cache oid = Some (Ok s, cache') →
  ReadTree repo oid = Ok data →
  let es := tree_entries data in
  let ts := treeSizes cache in
  (es = [] → MaxDepth s = 1) ∧
  (es ≠ [] → Forall (λ e, kind_of e ≠ KTree) es → MaxDepth s = 2) ∧
  (∀ e sub,
     e ∈ es → kind_of e = KTree → ts !! EntryOid e = Some sub →
     Forall (λ e', entry_depth ts e' <= MaxDepth sub) es →
     MaxDepth s = addCapped (MaxDepth sub) 1 ∧
     (MaxDepth sub < MaxUint64 → MaxDepth s = MaxDepth sub + 1)) ∧
  MaxDepth s = addCapped (depth_below ts es) 1 ∧
  MaxTreeEntries s =
    Z.max (max_of MaxTreeEntries (subrecords ts es)) (len es).
Proof.
  intros Hwf HQ HR es ts.
  destruct (queueTree_Ok_fields _ _ _ _ _ Hwf HQ) as (data' & HR' & Hf).
  rewrite HR in HR'. injection HR' as <-.
  destruct Hf as (_ & _ & _ & _ & _ & _ & _ & _ & _ & _ & HD & _ & HE).
  rewrite (entries_of_count _ _ _ HR) in HE.
  fold es ts in HD, HE.
  split_and!; try done.
  - intros Hnil. rewrite HD, Hnil. reflexivity.
  - intros Hne Hall. rewrite HD, (depth_below_leaves ts es Hne Hall).
    reflexivity.
  - intros e sub He Hk Hsub Hall.
    assert (entry_depth ts e = MaxDepth sub) as Hd.
    { unfold entry_depth. by rewrite Hk, Hsub. }
    destruct Hwf as [Hwft _]. pose proof (Hwft _ _ Hsub) as (Hc & _).
    rewrite HD, (depth_below_max ts es (MaxDepth sub));
      [|unfold is_count in Hc; lia|eauto|done].
    split; [done|]. intros Hlt.
    rewrite addCapped_min by (done || apply is_count_1).
    unfold is_count in Hc. lia.
Qed.

Lemma depth_law_witness :
  MaxDepth Sample.recT = 2 ∧ MaxTreeEntries Sample.recT = 2.
Proof.
  destruct (depth_law Sample.repo Sample.cacheEA Sample.oidT
              Sample.recT Sample.cacheEAB Sample.dataT
              wf_cacheEA queueTree_T ReadTree_T)
    as (_ & _ & Hsub & _ & Hmte).
  split.
  - destruct (Hsub (mkTreeEntry (str "d") Sample.oidE 16384) Sample.recE)
      as [_ Hd].
    + vm_compute. apply list_elem_of_further, list_elem_of_here.
    + reflexivity.
    + reflexivity.
    + vm_compute. repeat constructor; discriminate.
    + rewrite Hd; [reflexivity|]. vm_compute. reflexivity.
  - rewrite Hmte. vm_compute. reflexivity.
Defined.

(** ** C3: the path-length law *)

Lemma addDescendent_path r name c :
  wf_TreeSize r → wf_TreeSize c → len name < 2 ^ 63 →
  MaxPathLength (addDescendent r name c) =
  if 0 <? MaxPathLength c
  then Z.max (MaxPathLength r)
             (Z.min (len name + 1 + MaxPathLength c) MaxUint64)
  else Z.max (MaxPathLength r) (len name).
Proof.
  intros (_ & Hr & _) (_ & Hc & _) Hlen.
  assert (0 <= len name) by (unfold len; lia).
  unfold addDescendent. rewrite recordDepth_max.
  unfold Count_of_len.
  rewrite (wrap64_small (len name)) by (unfold MaxUint64; lia).
  rewrite (wrap64_small (len name + 1)) by (unfold MaxUint64; lia).
  destruct (0 <? MaxPathLength c); rewrite recordPathLength_max; simpl;
    [|done].
  rewrite addCapped_min; [done| |done].
  unfold is_count, MaxUint64. lia.
Qed.

(** C3: merging a subtree child [c] under the entry name [name] sets
    the maximum path length to
    [max(r.MaxPathLength, len(name) + 1 + c.MaxPathLength)], the sum
    being capped at [2^64-1], when [c.MaxPathLength > 0], and to
    [max(r.MaxPathLength, len(name))] when it is 0. A tree whose only
    entry is a blob named "x" has [MaxPathLength] 1, and a tree whose
    only entry is a subtree named "a" with [MaxPathLength] 3 has 5. *)
Theorem path_length_law r name c :
  wf_TreeSize r → wf_TreeSize c → len name < 2 ^ 63 →
  let p := MaxPathLength (addDescendent r name c) in
  (0 < MaxPathLength c →
   p = Z.max (MaxPathLength r)
             (Z.min (len name + 1 + MaxPathLength c) MaxUint64)) ∧
  (0 < MaxPathLength c → len name + 1 + MaxPathLength c <= MaxUint64 →
   p = Z.max (MaxPathLength r) (len name + 1 + MaxPathLength c)) ∧
  (MaxPathLength c = 0 → p = Z.max (MaxPathLength r) (len name)) ∧
  (∀ repo cache oid s cache' data e,
     wf_cache cache →
     Cache.queueTree repo cache oid = Some (Ok s, cache') →
     ReadTree repo oid = Ok data →
     tree_entries data = [e] →
     (kind_of e = KBlob → Name e = str "x" → MaxPathLength s = 1) ∧
     (∀ sub, kind_of e = KTree → Name e = str "a" →
             treeSizes cache !! EntryOid e = Some sub →
             MaxPathLength sub = 3 → MaxPathLength s = 5)).
Proof.
  intros Hr Hc Hlen p. unfold p.
  rewrite (addDescendent_path r name c Hr Hc Hlen).
  split_and!.
  - intros H. apply Z.ltb_lt in H. by rewrite H.
  - intros H Hle. apply Z.ltb_lt in H. rewrite H. lia.
  - intros H. by rewrite H.
  - intros repo cache oid s cache' data e Hwf HQ HR Hes.
    destruct (queueTree_Ok_fields _ _ _ _ _ Hwf HQ) as (data' & HR' & Hf).
    rewrite HR in HR'. injection HR' as <-.
    destruct Hf as (Hres & _ & _ & _ & _ & _ & _ & _ & _ & _ & _ & HP & _).
    rewrite Hes in HP, Hres. simpl in HP.
    apply Forall_singleton in Hres as [Htree Hblob].
    unfold merge_entry in HP. split.
    + intros Hk Hname. rewrite Hk in HP.
      destruct (Hblob Hk) as [n Hn]. rewrite Hn, Hname in HP.
      rewrite HP. reflexivity.
    + intros sub Hk Hname Hsub H3. rewrite Hk, Hsub, Hname in HP.
      destruct Hwf as [Hwft _]. pose proof (Hwft _ _ Hsub) as Hwfsub.
      rewrite HP, addDescendent_path; [|by vm_compute|done|by vm_compute].
      rewrite H3. reflexivity.
Qed.

Lemma path_length_law_witness :
  MaxPathLength (addDescendent Sample.recE (str "a") Sample.recA) = 5 ∧
  MaxPathLength Sample.recU = 5.
Proof.
  destruct (path_length_law Sample.recE (str "a") Sample.recA)
    as (_ & Hsum & _ & Hex).
  - unfold wf_TreeSize, is_count, MaxUint64. simpl. lia.
  - unfold wf_TreeSize, is_count, MaxUint64. simpl. lia.
  - reflexivity.
  - split.
    + etrans; [apply Hsum; [reflexivity|by vm_compute]|reflexivity].
    + destruct (Hex Sample.repo Sample.cacheEA Sample.oidU Sample.recU
                  Sample.cacheEA Sample.dataU
                  (mkTreeEntry (str "a") Sample.oidA 16384)
                  wf_cacheEA queueTree_U ReadTree_U) as [_ Htree].
      * vm_compute. reflexivity.
      * apply (Htree Sample.recA); reflexivity.
Defined.

(** ** C4: count conservation *)

(** C4: in the record of a successfully computed tree, as long as the
    sums fit 64 bits, [TreeCount] is 1 plus the sum of [TreeCount] over
    the records merged for the subtree entries, and [BlobCount],
    [LinkCount] and [SubmoduleCount] are the sums of that field over
    those records plus the number of direct blob, link and submodule
    entries; every subtree entry has its record among the merged
    ones. *)
Theorem count_conservation repo cache oid s cache' data :
  wf_cache cache →
  Cache.queueTree repo cache oid = Some (Ok s, cache') →
  ReadTree repo oid = Ok data →
  let es := tree_entries data in
  let subs := subrecords (treeSizes cache) es in
  len subs = count_kind KTree es ∧
  (1 + sum_of TreeCount subs <= MaxUint64 →
   TreeCount s = 1 + sum_of TreeCount subs) ∧
  (sum_of BlobCount subs + count_kind KBlob es <= MaxUint64 →
   BlobCount s = sum_of BlobCount subs + count_kind KBlob es) ∧
  (sum_of LinkCount subs + count_kind KSymlink es <= MaxUint64 →
   LinkCount s = sum_of LinkCount subs + count_kind KSymlink es) ∧
  (sum_of SubmoduleCount subs + count_kind KCommit es <= MaxUint64 →
   SubmoduleCount s = sum_of SubmoduleCount subs + count_kind KCommit es).
Proof.
  intros Hwf HQ HR es subs.
  destruct (queueTree_Ok_fields _ _ _ _ _ Hwf HQ) as (data' & HR' & Hf).
  rewrite HR in HR'. injection HR' as <-.
  destruct Hf as (Hres & _ & _ & _ & _ & HT & HB & HL & HS & _).
  fold es subs in HT, HB, HL, HS, Hres.
  split_and!; try lia.
  unfold subs. clear -Hres.
  induction Hres as [|e es' [Htree _] Hres IH].
  - reflexivity.
  - rewrite subrecords_cons, count_kind_cons. unfold len in *.
    rewrite length_app, Nat2Z.inj_add, IH.
    unfold entry_sub, is_kind. destruct (decide (kind_of e = KTree)) as [Hk|];
      [|reflexivity].
    destruct (Htree Hk) as [sub ->]. reflexivity.
Qed.

Lemma count_conservation_witness :
  TreeCount Sample.recT = 1 + TreeCount Sample.recE ∧
  BlobCount Sample.recT = BlobCount Sample.recE + 1.
Proof.
  destruct (count_conservation Sample.repo Sample.cacheEA Sample.oidT
              Sample.recT Sample.cacheEAB Sample.dataT
              wf_cacheEA queueTree_T ReadTree_T) as (_ & HT & HB & _).
  split.
  - rewrite HT; [|by vm_compute]. vm_compute. reflexivity.
  - rewrite HB; [|by vm_compute]. vm_compute. reflexivity.
Defined.

(** ** C5: termination of the fixpoint loop *)

Lemma fill_empty fuel repo cache :
  todo cache = [] → Cache.fill (S fuel) repo cache = Some (Ok tt, cache).
Proof. intros H. simpl. by rewrite H. Qed.




(** ** C6: the record is there when [fill] returns *)

(** C6: when [TreeSize] has pushed [oid] and [fill] returns without
    error, the tree table holds a record for [oid] and [TreeSize]
    returns it. The check after the loop turns an absent record into
    the panic "queueTree() didn't fill tree", never into an error
    value: every error [TreeSize] returns is the one [fill]
    returned. *)
Theorem TreeSize_filled_after_fill fuel repo cache oid cache1 :
  treeSizes cache !! oid = None →
  Cache.fill fuel repo (set_todo cache (Push (todo cache) oid))
    = Some (Ok tt, cache1) →
  (∃ s, treeSizes cache1 !! oid = Some s ∧
        Cache.TreeSize_filled cache1 oid = Ok s ∧
        Cache.TreeSize fuel repo cache oid = Some (Ok s, cache1)) ∧
  (∀ c, treeSizes c !! oid = None →
        Cache.TreeSize_filled c oid = Panic PNotFilled) ∧
  (∀ c e, Cache.TreeSize_filled c oid ≠ Err e) ∧
  (∀ fuel' c e c1,
     Cache.TreeSize fuel' repo c oid = Some (Err e, c1) →
     Cache.fill fuel' repo (set_todo c (Push (todo c) oid))
       = Some (Err e, c1)).
Proof.
  intros Hnone Hfill. split_and!.
  - pose proof Hfill as Hfill'.
    apply fill_ok_memoized in Hfill' as (_ & _ & Hall). simpl in Hall.
    unfold Push in Hall. rewrite Forall_app, Forall_singleton in Hall.
    destruct Hall as [_ [s Hs]].
    exists s. unfold Cache.TreeSize, Cache.TreeSize_filled.
    by rewrite Hnone, Hfill, Hs.
  - intros c Hc. unfold Cache.TreeSize_filled. by rewrite Hc.
  - intros c e. unfold Cache.TreeSize_filled.
    by destruct (treeSizes c !! oid).
  - intros fuel' c e c1. unfold Cache.TreeSize, Cache.TreeSize_filled.
    destruct (treeSizes c !! oid); [done|].
    destruct (Cache.fill fuel' repo _) as [[[[]|e'|p] c2]|]; try done.
    + by destruct (treeSizes c2 !! oid).
    + by intros [= -> ->].
Qed.

Lemma TreeSize_filled_after_fill_witness :
  Cache.TreeSize 10 Sample.repo NewSizeCache Sample.oidU =
  Some (Ok Sample.recU, Sample.cacheU).
Proof.
  destruct (TreeSize_filled_after_fill 10 Sample.repo NewSizeCache
              Sample.oidU Sample.cacheU) as [(s & Hs & _ & HT) _].
  - reflexivity.
  - vm_compute. reflexivity.
  - rewrite HT. f_equal. f_equal. f_equal.
    assert (treeSizes Sample.cacheU !! Sample.oidU = Some Sample.recU)
      as Hrec by (vm_compute; reflexivity).
    rewrite Hrec in Hs. by injection Hs.
Defined.

(** ** C7: malformed responses *)

Lemma cut_line_app (w rest : bytes) (d : byte) :
  d ∉ w → cut_line (w ++ d :: rest) d = Some (w ++ [d], rest).
Proof.
  induction w as [|c w IH]; simpl; intros Hd.
  - by rewrite decide_True.
  - rewrite decide_False by set_solver. rewrite IH by set_solver. done.
Qed.

Lemma Split_app (w s : bytes) (sep : byte) :
  sep ∉ w → Split (w ++ sep :: s) sep = w :: Split s sep.
Proof.
  induction w as [|c w IH]; simpl; intros Hsep.
  - by rewrite decide_True.
  - rewrite decide_False by set_solver. rewrite IH by set_solver. done.
Qed.

Lemma Split_no_sep (w : bytes) (sep : byte) : sep ∉ w → Split w sep = [w].
Proof.
  induction w as [|c w IH]; simpl; intros Hsep; [done|].
  rewrite decide_False by set_solver. rewrite IH by set_solver. done.
Qed.

(** A response line without any SP makes [ReadHeader] index past the
    end of [words]. *)
Lemma ReadHeader_one_field repo oid line rest :
  SP ∉ line → LF ∉ line →
  pending (checkStdout repo oid) = line ++ LF :: rest →
  ReadHeader repo oid = Panic (PIndexOutOfRange 1 1).
Proof.
  intros Hsp Hlf Hp. unfold ReadHeader, ReadString.
  rewrite Hp, cut_line_app by done.
  rewrite length_app. simpl.
  replace (length line + 1 - 1)%nat with (length line) by lia.
  rewrite take_app_length, Split_no_sep by done. done.
Qed.

Lemma reports_missing_ReadHeader repo oid :
  reports_missing repo oid → ReadHeader repo oid = Err (EMissingObject oid).
Proof.
  intros (id & rest & Hsp & Hlf & Hp). unfold ReadHeader, ReadString.
  rewrite Hp, app_assoc, cut_line_app.
  2: { rewrite not_elem_of_app. split; [done|]. compute_done. }
  rewrite length_app. simpl.
  replace (length (id ++ str " missing") + 1 - 1)%nat
    with (length (id ++ str " missing")) by lia.
  rewrite take_app_length.
  change (str " missing") with (SP :: str "missing").
  rewrite Split_app by done. done.
Qed.

(** Everything [ReadHeader] can do: return a type other than "missing"
    with a [uint64] size, return the reader's error, the "missing
    object" error or the error of [ParseUint], or panic on an index
    past the end of [words]. *)
Lemma ReadHeader_outcomes repo oid :
  match ReadHeader repo oid with
  | Ok (t, n) => t ≠ str "missing" ∧ is_count n
  | Err e =>
      (∃ m, e = EReader m) ∨ e = EMissingObject oid ∨
      (∃ s k, e = ENumError s k)
  | Panic p => ∃ i n, p = PIndexOutOfRange i n ∧ n <= i <= 2
  end.
Proof.
  destruct (ReadHeader repo oid) as [[t n]|e|p] eqn:H.
  - by apply ReadHeader_Ok_inv in H.
  - by apply ReadHeader_Err_inv in H.
  - unfold ReadHeader in H.
    destruct (ReadString _ _) as [[header [err|]] r]; [done|].
    repeat case_match; simplify_eq;
      match goal with E : _ !! ?i = None |- _ =>
        apply lookup_ge_None in E; eexists _, _; split; [done|];
        unfold len; lia
      end.
Qed.

(** Everything [ReadTree] can do. *)
Lemma ReadTree_outcomes repo oid :
  match ReadTree repo oid with
  | Ok data => len data < 2 ^ 63
  | Err e =>
      (∃ m, e = EReader m) ∨ e = EMissingObject oid ∨
      (∃ s k, e = ENumError s k) ∨
      (∃ t, e = EUnexpectedType t oid ∧ t ≠ str "tree" ∧ t ≠ str "missing")
  | Panic p =>
      (∃ i n, p = PIndexOutOfRange i n ∧ n <= i <= 2) ∨
      p = PMakeSliceLen ∨ p = PSliceBounds
  end.
Proof.
  destruct (ReadTree repo oid) as [data|e|p] eqn:H.
  - by eapply ReadTree_len.
  - unfold ReadTree, ReadString, ReadFull in H.
    repeat case_match; simplify_eq; eauto 10.
    match goal with E : ParseUint _ _ _ = inr _ |- _ =>
      apply ParseUint_error in E as [k ->] end.
    eauto 10.
  - unfold ReadTree, ReadFull in H.
    destruct (ReadString _ _) as [[header [err|]] r]; [done|].
    repeat case_match; simplify_eq; eauto;
      match goal with E : _ !! ?i = None |- _ =>
        apply lookup_ge_None in E; left; eexists _, _; split; [done|];
        unfold len; lia
      end.
Qed.

(** The success path of [ReadTree]: after the line [<id> tree <size>],
    [size] bytes of payload and the LF, it returns the payload without
    the LF. *)
Lemma ReadTree_payload repo oid id digits payload rest :
  SP ∉ id → LF ∉ id → SP ∉ digits → LF ∉ digits →
  ParseUint digits 10 0 = inl (len payload) →
  len payload < 2 ^ 63 - 1 →
  pending (batchStdout repo oid) =
    id ++ SP :: str "tree" ++ SP :: digits ++ LF :: payload ++ LF :: rest →
  ReadTree repo oid = Ok payload.
Proof.
  intros Hsp Hlf Hdsp Hdlf Hparse Hlen Hp.
  unfold ReadTree, ReadString. rewrite Hp.
  replace (id ++ SP :: str "tree" ++ SP :: digits ++ LF :: payload ++ LF :: rest)
    with ((id ++ SP :: str "tree" ++ SP :: digits)
          ++ LF :: payload ++ LF :: rest)
    by (by rewrite <- !app_assoc).
  rewrite cut_line_app.
  2: { rewrite not_elem_of_app, not_elem_of_cons, not_elem_of_app,
         not_elem_of_cons.
       split_and!; try done; compute_done. }
  rewrite length_app. cbn [length].
  replace (length (id ++ SP :: str "tree" ++ SP :: digits) + 1 - 1)%nat
    with (length (id ++ SP :: str "tree" ++ SP :: digits)) by lia.
  rewrite take_app_length.
  rewrite Split_app by done.
  rewrite (Split_app (str "tree")) by compute_done.
  rewrite Split_no_sep by done.
  cbn [lookup list_lookup]. rewrite decide_False by done.
  rewrite decide_True by done. rewrite Hparse.
  assert (0 <= len payload) by (unfold len; lia).
  rewrite wrap64_small by (unfold MaxUint64; lia).
  destruct (Z.ltb_spec (2 ^ 63 - 1) (len payload + 1)); [lia|].
  unfold ReadFull. cbn [pending].
  assert (len (payload ++ LF :: rest) = len payload + 1 + len rest) as Hl.
  { unfold len. rewrite length_app. simpl. lia. }
  destruct (Z.leb_spec (len payload + 1) (len (payload ++ LF :: rest)));
    [|unfold len in *; lia].
  replace (Z.to_nat (len payload + 1)) with (length payload + 1)%nat
    by (unfold len; lia).
  rewrite take_app_add. cbn [take]. rewrite take_0.
  assert (len (payload ++ [LF]) - 1 = len payload) as Hl'.
  { unfold len. rewrite length_app. simpl. lia. }
  rewrite Hl'. destruct (Z.ltb_spec (len payload) 0); [lia|].
  unfold len. by rewrite Nat2Z.id, take_app_length.
Qed.

(** C7 fails on the code for a response line with fewer fields than
    the format has: on the line "deadbeef" [ReadHeader] does not return
    an error, it panics on [words[1]]; and on "deadbeef tree" [ReadTree]
    panics on [words[2]]. *)
Theorem ReadHeader_short_line_panics :
  ReadHeader Sample.short_repo Sample.oidZ = Panic (PIndexOutOfRange 1 1) ∧
  ReadTree Sample.short_repo Sample.oidZ = Panic (PIndexOutOfRange 2 2).
Proof. split; vm_compute; reflexivity. Qed.

(** ** C8: a missing object adds nothing to the cache *)

(** C8: when the header pipe reports [oid] missing, [ObjectSize]
    returns the "missing object" error, and so does [BlobSize] when it
    looks the header up; both leave the cache as it was, so neither
    table has an entry for [oid] afterwards. *)
Theorem missing_object_not_cached fuel repo cache oid :
  reports_missing repo oid →
  blobSizes cache !! oid = None →
  treeSizes cache !! oid = None →
  (∃ cache',
     Cache.ObjectSize fuel repo cache oid =
       Some (Returns (str "missing") None (Some (EMissingObject oid)),
             cache') ∧
     cache' = cache ∧
     blobSizes cache' !! oid = None ∧ treeSizes cache' !! oid = None) ∧
  (∃ cache',
     Cache.BlobSize repo cache oid = (Err (EMissingObject oid), cache') ∧
     cache' = cache ∧
     blobSizes cache' !! oid = None ∧ treeSizes cache' !! oid = None).
Proof.
  intros Hmiss%reports_missing_ReadHeader Hb Ht. split; exists cache.
  - unfold Cache.ObjectSize. by rewrite Hmiss.
  - unfold Cache.BlobSize. by rewrite Hb, Hmiss.
Qed.

Lemma missing_object_not_cached_witness :
  Cache.BlobSize Sample.repo NewSizeCache Sample.oidZ =
  (Err (EMissingObject Sample.oidZ), NewSizeCache).
Proof.
  destruct (missing_object_not_cached 1 Sample.repo NewSizeCache
              Sample.oidZ) as [_ (c & HB & -> & _)].
  - exists (str "7a7a7a7a7a7a7a7a7a7a7a7a7a7a7a7a7a7a7a7a"), [].
    split_and!; [compute_done|compute_done|reflexivity].
  - reflexivity.
  - reflexivity.
  - exact HB.
Defined.

(** ** C9: a truncated tree payload *)

Lemma parse_digits_digits s0 s base maxVal n v :
  parse_digits s0 s base maxVal n = inl v →
  Forall (λ c, is_Some (digit_val c)) s.
Proof.
  revert n. induction s as [|c s IH]; simpl; intros n H; [constructor|].
  destruct (digit_val c) as [d|] eqn:Hd; [|done].
  destruct (base <=? d); [done|].
  destruct (maxVal <? n * base + d); [done|].
  constructor; [by rewrite Hd | by eapply IH].
Qed.

Lemma ParseUint_no_SP s base bitSize v :
  ParseUint s base bitSize = inl v → SP ∉ s.
Proof.
  unfold ParseUint. destruct s as [|c s]; [done|].
  intros H%parse_digits_digits Hin.
  eapply Forall_forall in H; [|exact Hin].
  by destruct H as [d Hd].
Qed.

(** The decoder on a payload that stops inside an identifier. *)
Lemma NextEntry_truncated mode name partial m :
  ParseUint mode 8 32 = inl m → NUL ∉ name → (length partial < 20)%nat →
  NextEntry (mode ++ SP :: name ++ NUL :: partial) = Err ETruncated.
Proof.
  intros Hmode Hname Hpartial.
  pose proof (ParseUint_no_SP _ _ _ _ Hmode) as Hsp.
  unfold NextEntry.
  destruct (Z.eqb_spec (len (mode ++ SP :: name ++ NUL :: partial)) 0) as [H0|_].
  { unfold len in H0. rewrite length_app in H0. simpl in H0. lia. }
  rewrite IndexByte_app_here by done. unfold len.
  destruct (Z.ltb_spec (Z.of_nat (length mode)) 0); [lia|].
  rewrite Nat2Z.id, take_app_length, Hmode.
  replace (Z.to_nat (Z.of_nat (length mode) + 1)) with (length mode + 1)%nat
    by lia.
  rewrite (drop_app_add' mode) by done. simpl. rewrite drop_0.
  rewrite IndexByte_app_here by done. unfold len.
  destruct (Z.ltb_spec (Z.of_nat (length name)) 0); [lia|].
  replace (Z.to_nat (Z.of_nat (length name) + 1)) with (length name + 1)%nat
    by lia.
  rewrite (drop_app_add' name) by done. simpl. rewrite drop_0.
  destruct (Z.ltb_spec (Z.of_nat (length partial)) 20); [done|lia].
Qed.

Lemma truncated_payload_length data es :
  truncated_payload data es → (length es <= length data)%nat.
Proof.
  induction 1 as [|data e rest es HN _ IH]; simpl; [lia|].
  apply NextEntry_shrinks in HN as [HN _]. lia.
Qed.

(** The loop body goes on to the next entry when the size of a blob
    entry can be had. *)
Lemma queueTree_entry_ok repo e st cache :
  blob_known repo (blobSizes cache) e →
  ∃ st1 c1, Cache.queueTree_entry repo e st cache = (Ok st1, c1).
Proof.
  unfold blob_known, Cache.queueTree_entry, kind_of. intros Hb.
  destruct (entry_kind (Filemode e)); try by eauto.
  - destruct (treeSizes cache !! EntryOid e); [destruct (Cache.ok st)|];
      by eauto.
  - destruct (blobSizes cache !! EntryOid e) as [n|] eqn:Hn; [by eauto|].
    destruct Hb as [[n Hn']|[n Hh]]; [done|done|].
    unfold Cache.BlobSize. rewrite Hn, Hh. rewrite decide_True by done.
    by eauto.
Qed.

Lemma blob_known_weaken (repo : Repository) (bs bs' : gmap Oid Count)
    (e : TreeEntry) :
  bs ⊆ bs' → blob_known repo bs e → blob_known repo bs' e.
Proof.
  unfold blob_known. intros Hsub Hb Hk.
  destruct (Hb Hk) as [[n Hn]|?]; [left|by right].
  exists n. by eapply lookup_weaken.
Qed.

(** The loop of [queueTree] on a truncated payload ends with the
    decoder's error. *)
Lemma queueTree_loop_truncated repo data es :
  truncated_payload data es →
  ∀ fuel st cache,
    (length es < fuel)%nat →
    Forall (blob_known repo (blobSizes cache)) es →
    ∃ cache',
      Cache.queueTree_loop fuel repo data st cache
      = Some (Err ETruncated, cache').
Proof.
  induction 1 as [mode name partial m Hmode Hname Hpartial
                 |data e rest es HN _ IH];
    intros fuel st cache Hfuel Hall;
    (destruct fuel as [|fuel]; [simpl in Hfuel; lia|]); simpl.
  - rewrite (NextEntry_truncated _ _ _ _ Hmode Hname Hpartial). by eauto.
  - rewrite HN. apply Forall_cons in Hall as [He Hall].
    destruct (queueTree_entry_ok repo e st cache He) as (st1 & c1 & HE).
    rewrite HE. apply queueTree_entry_inv in HE as (_ & Hsub & _).
    apply IH; [simpl in Hfuel; lia|].
    eapply Forall_impl; [exact Hall|]. intros e'.
    by apply blob_known_weaken.
Qed.

(** C9 as stated fails on the code: after [TreeSize] has failed on the
    truncated tree [K], the cache is not the one it started from: the
    identifier of [K] is still on the work stack, and the size of the
    blob of the entry before the truncated one is in the blob table. *)
Lemma truncated_tree_changes_cache :
  Cache.TreeSize 10 Sample.repo NewSizeCache Sample.oidK =
    Some (Err ETruncated, Sample.cacheK) ∧
  Sample.cacheK ≠ NewSizeCache ∧
  todo Sample.cacheK = [Sample.oidK] ∧
  blobSizes Sample.cacheK !! Sample.oidB = Some 10.
Proof.
  split_and!; [vm_compute; reflexivity|discriminate|reflexivity|].
  vm_compute. reflexivity.
Qed.

(** C9, amended: [TreeSize] on a tree that has no record yet and whose
    payload stops inside an identifier, after entries whose blob sizes
    can be had, returns the decoder's error "tree entry ends
    unexpectedly" and leaves the tree-record table exactly as it was:
    no record is stored for that tree or for anything else. The blob
    table only gains sizes that the header pipe reports for blobs. *)
Theorem truncated_tree_not_memoized fuel repo cache oid data es :
  treeSizes cache !! oid = None →
  ReadTree repo oid = Ok data →
  truncated_payload data es →
  Forall (blob_known repo (blobSizes cache)) es →
  ∃ cache',
    Cache.TreeSize (S fuel) repo cache oid = Some (Err ETruncated, cache') ∧
    treeSizes cache' = treeSizes cache ∧
    treeSizes cache' !! oid = None ∧
    blobSizes cache ⊆ blobSizes cache' ∧
    (blob_table_ok repo (blobSizes cache) →
     blob_table_ok repo (blobSizes cache')).
Proof.
  intros Hnone HR Htrunc Hall.
  set (c0 := set_todo cache (Push (todo cache) oid)).
  destruct (queueTree_loop_truncated repo data es Htrunc (S (length data))
              (Cache.mkLoopState true 0 (mkTreeSize 0 0 1 0 0 0 0 0)) c0)
    as [c1 HL].
  { apply truncated_payload_length in Htrunc. lia. }
  { done. }
  assert (Cache.queueTree repo c0 oid = Some (Err ETruncated, c1)) as HQ.
  { unfold Cache.queueTree. by rewrite HR, HL. }
  exists c1.
  pose proof HQ as HQ'.
  apply queueTree_inv in HQ' as (Hts & Hbs & HJ & _).
  split_and!.
  - unfold Cache.TreeSize. rewrite Hnone. fold c0.
    rewrite (fill_step fuel repo c0 (todo cache) oid eq_refl).
    simpl treeSizes. by rewrite Hnone, HQ.
  - done.
  - by rewrite Hts.
  - done.
  - apply (HJ _ (blob_closed_table_ok repo)).
Qed.

Lemma truncated_dataK :
  truncated_payload Sample.dataK [mkTreeEntry (str "f") Sample.oidB 33188].
Proof.
  apply (truncated_later _ _
           (str "100644" ++ SP :: str "g" ++ NUL :: repeat ("k"%byte) 10)).
  - vm_compute. reflexivity.
  - apply (truncated_here _ _ _ 33188).
    + vm_compute. reflexivity.
    + compute_done.
    + simpl. lia.
Qed.

Lemma truncated_tree_not_memoized_witness :
  ∃ cache',
    Cache.TreeSize 10 Sample.repo NewSizeCache Sample.oidK
    = Some (Err ETruncated, cache') ∧
    treeSizes cache' = ∅.
Proof.
  destruct (truncated_tree_not_memoized 9 Sample.repo NewSizeCache
              Sample.oidK Sample.dataK
              [mkTreeEntry (str "f") Sample.oidB 33188])
    as (c' & HT & Hts & _).
  - reflexivity.
  - vm_compute. reflexivity.
  - exact truncated_dataK.
  - apply Forall_singleton. intros _. right. exists 10.
    vm_compute. reflexivity.
  - exists c'. split; [exact HT|exact Hts].
Defined.

(** ** C10: only blobs enter the blob table *)

Lemma fill_blob_closed repo J fuel : ∀ cache r cache',
  blob_closed repo J →
  Cache.fill fuel repo cache = Some (r, cache') →
  J (blobSizes cache) → J (blobSizes cache').
Proof.
  induction fuel as [|fuel IH]; intros cache r cache' HJ H Hc; [done|].
  simpl in H.
  destruct (Length (todo cache) =? 0); [by simplify_eq|].
  destruct (Peek (todo cache)) as [oid|]; [|by simplify_eq].
  destruct (treeSizes cache !! oid).
  { by eapply IH in H. }
  destruct (Cache.queueTree repo cache oid) as [[rq c1]|] eqn:HQ; [|done].
  apply queueTree_inv in HQ as (_ & _ & HJ1 & _).
  specialize (HJ1 J HJ Hc).
  destruct rq as [s|err|p].
  - by eapply IH in H.
  - destruct err; simplify_eq; try done. by eapply IH in H.
  - by simplify_eq.
Qed.

Lemma TreeSize_blob_closed repo J fuel cache oid r cache' :
  blob_closed repo J →
  Cache.TreeSize fuel repo cache oid = Some (r, cache') →
  J (blobSizes cache) → J (blobSizes cache').
Proof.
  unfold Cache.TreeSize. intros HJ H Hc.
  destruct (treeSizes cache !! oid); [by simplify_eq|].
  destruct (Cache.fill fuel repo _) as [[rf c1]|] eqn:HF; [|done].
  eapply fill_blob_closed in HF; [|done|done].
  destruct rf; by simplify_eq.
Qed.

Lemma blob_table_ok_empty repo : blob_table_ok repo (blobSizes NewSizeCache).
Proof. intros o m Hm. simpl in Hm. by rewrite lookup_empty in Hm. Qed.

(** C10: every size [BlobSize], [ObjectSize] and [TreeSize] put in the
    blob table is one the header pipe reports for that identifier with
    type "blob": a table of which this holds, such as the empty one,
    keeps it through all three. With such a table, when the header of
    [oid] reports a type [t] other than "blob", [BlobSize] returns the
    error "object ... is a [t], not a blob" and leaves the cache as it
    was. *)
Theorem BlobSize_only_blobs repo cache oid t n :
  blob_table_ok repo (blobSizes cache) →
  ReadHeader repo oid = Ok (t, n) →
  t ≠ str "blob" →
  Cache.BlobSize repo cache oid = (Err (ENotBlob oid t), cache) ∧
  blobSizes cache !! oid = None ∧
  blob_table_ok repo (blobSizes NewSizeCache) ∧
  (∀ c o r c',
     blob_table_ok repo (blobSizes c) →
     Cache.BlobSize repo c o = (r, c') →
     blob_table_ok repo (blobSizes c') ∧
     (∀ m, r = Ok m → ReadHeader repo o = Ok (str "blob", m))) ∧
  (∀ fuel c o r c',
     blob_table_ok repo (blobSizes c) →
     Cache.ObjectSize fuel repo c o = Some (r, c') →
     blob_table_ok repo (blobSizes c')) ∧
  (∀ fuel c o r c',
     blob_table_ok repo (blobSizes c) →
     Cache.TreeSize fuel repo c o = Some (r, c') →
     blob_table_ok repo (blobSizes c')).
Proof.
  intros Hinv Hh Ht.
  assert (blobSizes cache !! oid = None) as Hb.
  { destruct (blobSizes cache !! oid) as [m|] eqn:Hm; [|done].
    apply Hinv in Hm. rewrite Hh in Hm. by simplify_eq. }
  split_and!.
  - unfold Cache.BlobSize. rewrite Hb, Hh. by rewrite decide_False.
  - done.
  - apply blob_table_ok_empty.
  - intros c o r c' Hok HB. pose proof HB as HB'.
    apply BlobSize_inv in HB' as (_ & _ & _ & _ & Hn & HJ & _).
    split; [by apply (HJ _ (blob_closed_table_ok repo))|].
    intros m ->. apply (HJ _ (blob_closed_table_ok repo) Hok).
    by apply Hn.
  - intros fuel c o r c' Hok H. unfold Cache.ObjectSize in H.
    destruct (ReadHeader repo o) as [[t' n']|e|p] eqn:Hh'; [|by simplify_eq..].
    destruct (decide (t' = str "blob")) as [->|].
    { simplify_eq. simpl. by apply blob_closed_table_ok. }
    destruct (decide (t' = str "tree")).
    { destruct (Cache.TreeSize fuel repo c o) as [[rt c1]|] eqn:HT; [|done].
      eapply (TreeSize_blob_closed _ _ _ _ _ _ _ (blob_closed_table_ok repo))
        in HT; [|done].
      destruct rt; by simplify_eq. }
    repeat case_decide; by simplify_eq.
  - intros fuel c o r c' Hok H.
    by eapply (TreeSize_blob_closed _ _ _ _ _ _ _ (blob_closed_table_ok repo))
      in H.
Qed.

Lemma BlobSize_only_blobs_witness :
  Cache.BlobSize Sample.repo NewSizeCache Sample.oidT =
  (Err (ENotBlob Sample.oidT (str "tree")), NewSizeCache).
Proof.
  destruct (BlobSize_only_blobs Sample.repo NewSizeCache Sample.oidT
              (str "tree") 57) as [HB _].
  - apply blob_table_ok_empty.
  - vm_compute. reflexivity.
  - discriminate.
  - exact HB.
Defined.

(** * Further properties *)

(** ** The decoder: round trips and failure modes *)

Lemma IndexByte_split (b : bytes) (c : byte) :
  0 <= IndexByte b c →
  b = take (Z.to_nat (IndexByte b c)) b
        ++ c :: drop (Z.to_nat (IndexByte b c + 1)) b ∧
  (c ∉ take (Z.to_nat (IndexByte b c)) b).
Proof.
  induction b as [|x b IH]; simpl; [lia|].
  destruct (decide (x = c)) as [->|Hne].
  { intros _. simpl. rewrite drop_0. split; [done|]. apply not_elem_of_nil. }
  destruct (Z.ltb_spec (IndexByte b c) 0) as [|Hge]; [lia|]. intros _.
  destruct (IH Hge) as [Heq Hnot].
  replace (Z.to_nat (IndexByte b c + 1)) with (S (Z.to_nat (IndexByte b c)))
    by lia.
  replace (Z.to_nat (IndexByte b c + 1 + 1))
    with (S (S (Z.to_nat (IndexByte b c)))) by lia.
  simpl. split.
  - f_equal. rewrite Heq at 1. do 2 f_equal. f_equal. lia.
  - rewrite not_elem_of_cons. split; [done|exact Hnot].
Qed.

Lemma IndexByte_absent (b : bytes) (c : byte) :
  IndexByte b c < 0 → c ∉ b.
Proof.
  induction b as [|x b IH]; simpl; [intros _; apply not_elem_of_nil|].
  destruct (decide (x = c)); [lia|].
  destruct (Z.ltb_spec (IndexByte b c) 0); [|lia].
  intros _. rewrite not_elem_of_cons. split; [done|by apply IH].
Qed.

Lemma ParseUint_range32 s v :
  ParseUint s 8 32 = inl v → 0 <= v < 2 ^ 32.
Proof.
  unfold ParseUint. destruct s; [done|]. intros H.
  apply parse_digits_range in H; simpl in *; lia.
Qed.

(** X1: what [NextEntry] returns says what the payload holds. At the
    end of the payload, and only there, it reports the end. An entry it
    returns is followed by the new unread part: the payload is the
    entry's octal mode digits, SP, its name (without NUL), NUL, its 20
    identifier bytes, and the rest; the mode is below [2^32]. Its
    errors are: no SP anywhere; the bytes before the first SP are no
    octal number of 32 bits; no NUL after that SP; fewer than 20 bytes
    after the NUL. It returns no other error and does not panic. *)
Theorem NextEntry_spec (data : bytes) :
  match NextEntry data with
  | Ok None => data = []
  | Ok (Some (e, rest)) =>
      ∃ digits,
        data = encode_entry digits e ++ rest ∧
        well_encoded (digits, e) ∧ (SP ∉ digits) ∧
        0 <= Filemode e < 2 ^ 32
  | Err ENoSP => data ≠ [] ∧ SP ∉ data
  | Err (ENumError s k) =>
      ∃ tail, data = s ++ SP :: tail ∧ (SP ∉ s) ∧
              ParseUint s 8 32 = inr (ENumError s k)
  | Err ENoNUL =>
      ∃ digits tail, data = digits ++ SP :: tail ∧ (SP ∉ digits) ∧
                     (∃ m, ParseUint digits 8 32 = inl m) ∧ NUL ∉ tail
  | Err ETruncated =>
      ∃ digits name partial,
        data = digits ++ SP :: name ++ NUL :: partial ∧ (SP ∉ digits) ∧
        (∃ m, ParseUint digits 8 32 = inl m) ∧ (NUL ∉ name) ∧
        (length partial < 20)%nat
  | Err _ => False
  | Panic _ => False
  end.
Proof.
  unfold NextEntry.
  destruct (Z.eqb_spec (len data) 0) as [H0|H0].
  { unfold len in H0. by destruct data. }
  destruct (Z.ltb_spec (IndexByte data SP) 0) as [Hsp|Hsp].
  { split; [by intros ->|by apply IndexByte_absent]. }
  destruct (IndexByte_split data SP Hsp) as [Hdata Hnsp].
  set (digits := take (Z.to_nat (IndexByte data SP)) data) in *.
  set (tail := drop (Z.to_nat (IndexByte data SP + 1)) data) in *.
  destruct (ParseUint digits 8 32) as [mode|err] eqn:Hmode.
  2: { destruct (ParseUint_error _ _ _ _ Hmode) as [k ->].
       exists tail. by rewrite Hmode. }
  destruct (Z.ltb_spec (IndexByte tail NUL) 0) as [Hnul|Hnul].
  { exists digits, tail. rewrite Hmode.
    split_and!; [done|done|by eexists|by apply IndexByte_absent]. }
  destruct (IndexByte_split tail NUL Hnul) as [Htail Hnnul].
  set (name := take (Z.to_nat (IndexByte tail NUL)) tail) in *.
  set (after := drop (Z.to_nat (IndexByte tail NUL + 1)) tail) in *.
  destruct (Z.ltb_spec (len after) 20) as [Hlen|Hlen].
  { exists digits, name, after. rewrite Hmode.
    split_and!; try done; [by rewrite <- Htail|by eexists|unfold len in Hlen; lia]. }
  exists digits. unfold encode_entry, well_encoded. simpl.
  split_and!; try done.
  - rewrite <- app_assoc. cbn [app]. rewrite <- app_assoc. cbn [app].
    rewrite take_drop. etrans; [exact Hdata|]. do 2 f_equal. exact Htail.
  - rewrite length_take. unfold len in Hlen. lia.
  - apply ParseUint_range32 in Hmode. lia.
  - apply ParseUint_range32 in Hmode. lia.
Qed.
(** [NextEntry] on one encoded entry. *)
Lemma NextEntry_encode_entry (digits : bytes) (e : TreeEntry) (rest : bytes) :
  well_encoded (digits, e) →
  NextEntry (encode_entry digits e ++ rest) = Ok (Some (e, rest)).
Proof.
  unfold well_encoded, encode_entry. simpl. intros (Hmode & Hname & Hoid).
  pose proof (ParseUint_no_SP _ _ _ _ Hmode) as Hsp.
  destruct e as [name oid mode]. simpl in *.
  rewrite <- app_assoc. cbn [app]. rewrite <- app_assoc. cbn [app].
  unfold NextEntry.
  destruct (Z.eqb_spec (len (digits ++ SP :: name ++ NUL :: oid ++ rest)) 0)
    as [H0|_].
  { unfold len in H0. rewrite length_app in H0. simpl in H0. lia. }
  rewrite IndexByte_app_here by done. unfold len.
  destruct (Z.ltb_spec (Z.of_nat (length digits)) 0); [lia|].
  rewrite Nat2Z.id, take_app_length, Hmode.
  replace (Z.to_nat (Z.of_nat (length digits) + 1))
    with (length digits + 1)%nat by lia.
  rewrite (drop_app_add' digits) by done. cbn [drop]. rewrite !drop_0.
  rewrite IndexByte_app_here by done. unfold len.
  destruct (Z.ltb_spec (Z.of_nat (length name)) 0); [lia|].
  rewrite Nat2Z.id, take_app_length.
  replace (Z.to_nat (Z.of_nat (length name) + 1))
    with (length name + 1)%nat by lia.
  rewrite (drop_app_add' name) by done. cbn [drop]. rewrite !drop_0.
  destruct (Z.ltb_spec (Z.of_nat (length (oid ++ rest))) 20) as [Hlt|_].
  { rewrite length_app in Hlt. lia. }
  rewrite <- Hoid, take_app_length, drop_app_length. done.
Qed.


(** X2: an entry written in the payload format is read back: on the
    octal digits of a mode below [2^32], SP, a name without NUL, NUL, 20
    identifier bytes and any rest, [NextEntry] returns that mode, name
    and identifier, and leaves exactly the rest unread. *)
Theorem NextEntry_encode (digits : bytes) (e : TreeEntry) (rest : bytes) :
  well_encoded (digits, e) →
  NextEntry (encode_entry digits e ++ rest) = Ok (Some (e, rest)).
Proof. apply NextEntry_encode_entry. Qed.

Lemma NextEntry_encode_witness :
  NextEntry Sample.dataX =
  Ok (Some (mkTreeEntry (str "x") Sample.oidB 33188, [])).
Proof.
  apply (NextEntry_encode (str "100644")
           (mkTreeEntry (str "x") Sample.oidB 33188) []).
  split_and!; [reflexivity|compute_done|reflexivity].
Defined.

Lemma encode_tree_length (l : list (bytes * TreeEntry)) :
  (length l <= length (encode_tree l))%nat.
Proof.
  induction l as [|[d e] l IH]; simpl; [lia|].
  unfold encode_entry. rewrite !length_app. simpl. lia.
Qed.

Lemma entries_of_encode fuel : ∀ l,
  Forall well_encoded l → (length l < fuel)%nat →
  entries_of fuel (encode_tree l) = l.*2.
Proof.
  induction fuel as [|fuel IH]; intros l Hall Hfuel; [lia|].
  destruct l as [|[d e] l]; [done|].
  apply Forall_cons in Hall as [He Hall]. simpl.
  rewrite (NextEntry_encode_entry d e (encode_tree l) He).
  rewrite IH; [done|done|simpl in Hfuel; lia].
Qed.

(** X3: reading a whole payload: a payload made of entries in the
    format, one after the other, decodes into exactly these entries, in
    their order; in particular no entry is lost, doubled or invented. *)
Theorem tree_entries_encode (l : list (bytes * TreeEntry)) :
  Forall well_encoded l → tree_entries (encode_tree l) = l.*2.
Proof.
  intros Hall. apply entries_of_encode; [done|].
  pose proof (encode_tree_length l). lia.
Qed.

Lemma tree_entries_encode_witness :
  tree_entries Sample.dataT =
  [mkTreeEntry (str "f") Sample.oidB 33188;
   mkTreeEntry (str "d") Sample.oidE 16384].
Proof.
  apply (tree_entries_encode
           [(str "100644", mkTreeEntry (str "f") Sample.oidB 33188);
            (str "40000", mkTreeEntry (str "d") Sample.oidE 16384)]).
  repeat constructor; compute_done.
Defined.

(** ** The tables agree with the store *)

Lemma merge_entry_weaken_tables (ts ts' : gmap Oid TreeSize)
    (bs bs' : gmap Oid Count) (s : TreeSize) (e : TreeEntry) :
  ts ⊆ ts' → bs ⊆ bs' →
  (kind_of e = KTree → is_Some (ts !! EntryOid e)) →
  (kind_of e = KBlob → is_Some (bs !! EntryOid e)) →
  merge_entry ts bs s e = merge_entry ts' bs' s e.
Proof.
  intros Hts Hbs Ht Hb.
  rewrite (merge_entry_weaken ts bs bs' s e Hbs Hb).
  unfold merge_entry. destruct (kind_of e); try done.
  destruct Ht as [sub Hsub]; [done|].
  by rewrite Hsub, (lookup_weaken _ _ _ _ Hsub Hts).
Qed.

Lemma entries_resolved_weaken (ts ts' : gmap Oid TreeSize)
    (bs bs' : gmap Oid Count) (es : list TreeEntry) :
  ts ⊆ ts' → bs ⊆ bs' →
  entries_resolved ts bs es → entries_resolved ts' bs' es.
Proof.
  intros Hts Hbs Hres. unfold entries_resolved in *.
  eapply Forall_impl; [exact Hres|].
  intros e [Ht Hb]. split; intros Hk.
  - destruct (Ht Hk) as [s Hs]. exists s. by eapply lookup_weaken.
  - destruct (Hb Hk) as [n Hn]. exists n. by eapply lookup_weaken.
Qed.

Lemma record_of_weaken (ts ts' : gmap Oid TreeSize)
    (bs bs' : gmap Oid Count) (es : list TreeEntry) :
  ts ⊆ ts' → bs ⊆ bs' → entries_resolved ts bs es →
  record_of ts bs es = record_of ts' bs' es.
Proof.
  intros Hts Hbs Hres. unfold record_of. f_equal.
  generalize (mkTreeSize 0 0 1 0 0 0 0 0).
  induction Hres as [|e es [Ht Hb] Hres IH]; intros s0; [done|].
  simpl. rewrite (merge_entry_weaken_tables ts ts' bs bs') by done.
  apply IH.
Qed.

Lemma tree_table_ok_weaken (repo : Repository) (ts : gmap Oid TreeSize)
    (bs bs' : gmap Oid Count) :
  bs ⊆ bs' → tree_table_ok repo ts bs → tree_table_ok repo ts bs'.
Proof.
  intros Hbs Hok oid s Hs.
  destruct (Hok oid s Hs) as (data & HR & Hres & ->).
  exists data. split_and!; [done| |].
  - by eapply entries_resolved_weaken.
  - by apply record_of_weaken.
Qed.

(** The record a successful pass returns is [record_of] the entries. *)
Lemma queueTree_Ok_record repo cache oid s cache' :
  Cache.queueTree repo cache oid = Some (Ok s, cache') →
  ∃ data, ReadTree repo oid = Ok data ∧
    entries_resolved (treeSizes cache) (blobSizes cache') (tree_entries data) ∧
    s = record_of (treeSizes cache) (blobSizes cache') (tree_entries data).
Proof.
  unfold Cache.queueTree. intros H.
  destruct (ReadTree repo oid) as [data|err|p] eqn:HR; [|done..].
  exists data. split; [done|].
  destruct (Cache.queueTree_loop _ _ _ _ _) as [[rl c1]|] eqn:HL; [|done].
  apply queueTree_loop_inv in HL
    as (Hts & Hbs & HJ & Hne & pushed & Htodo & Hp & Hst).
  fold (tree_entries data) in Hp, Hst.
  destruct rl as [st|err|p]; [|done..].
  destruct (Hst st eq_refl) as (Hok & Hec & _ & Hsz).
  destruct (Cache.ok st) eqn:Hokst; simpl in H; [|done].
  destruct (Hsz eq_refl) as [Hsize Hres].
  cbn [Cache.size Cache.entryCount] in Hsize, Hec.
  simplify_eq. split; [done|].
  unfold record_of, finish. by rewrite <- Hsize, <- Hec.
Qed.

Lemma tree_table_ok_insert (repo : Repository) (ts : gmap Oid TreeSize)
    (bs : gmap Oid Count) (oid : Oid) (data : bytes) :
  ts !! oid = None →
  tree_table_ok repo ts bs →
  ReadTree repo oid = Ok data →
  entries_resolved ts bs (tree_entries data) →
  tree_table_ok repo (<[oid := record_of ts bs (tree_entries data)]> ts) bs.
Proof.
  intros Hnone Hok HR Hres oid' s' Hs'.
  assert (ts ⊆ <[oid := record_of ts bs (tree_entries data)]> ts) as Hsub
    by (by apply insert_subseteq).
  destruct (decide (oid = oid')) as [<-|Hne].
  - rewrite lookup_insert_eq in Hs'. injection Hs' as <-.
    exists data. split_and!; [done| |].
    + by eapply entries_resolved_weaken.
    + by apply record_of_weaken.
  - rewrite lookup_insert_ne in Hs' by done.
    destruct (Hok oid' s' Hs') as (data' & HR' & Hres' & ->).
    exists data'. split_and!; [done| |].
    + by eapply entries_resolved_weaken.
    + by apply record_of_weaken.
Qed.

(** A pass over a tree keeps the tables in agreement with the store. *)
Lemma queueTree_cache_ok repo cache oid r cache' :
  cache_ok repo cache →
  Cache.queueTree repo cache oid = Some (r, cache') →
  cache_ok repo cache' ∧
  (∀ s, r = Ok s → treeSizes cache !! oid = None →
        cache_ok repo (set_todo (set_treeSize cache' oid s)
                                (Drop (todo cache')))).
Proof.
  intros (Hwf & Hbok & Htok) HQ. pose proof HQ as HQ'.
  apply queueTree_inv in HQ' as (Hts & Hbs & HJ & _).
  assert (wf_cache cache') as Hwf'.
  { destruct Hwf as [Hwft Hwfb]. split; [by rewrite Hts|].
    by apply (HJ _ (blob_closed_counts repo)). }
  assert (blob_table_ok repo (blobSizes cache')) as Hbok'.
  { by apply (HJ _ (blob_closed_table_ok repo)). }
  assert (tree_table_ok repo (treeSizes cache') (blobSizes cache')) as Htok'.
  { rewrite Hts. by eapply tree_table_ok_weaken. }
  split; [done|].
  intros s -> Hnone.
  destruct (queueTree_Ok_fields _ _ _ _ _ Hwf HQ)
    as (_ & _ & _ & _ & _ & _ & Hwfs & _).
  destruct (queueTree_Ok_record _ _ _ _ _ HQ) as (data & HR & Hres & ->).
  split_and!; simpl.
  - destruct Hwf' as [Hwft Hwfb]. split; simpl; [|done].
    by apply map_Forall_insert_2.
  - done.
  - rewrite Hts. apply tree_table_ok_insert; try done.
    rewrite <- Hts. done.
Qed.

(** [fill] only adds to the tables, and keeps them in agreement with
    the store, whatever it returns. *)
Lemma fill_inv repo fuel : ∀ cache r cache',
  Cache.fill fuel repo cache = Some (r, cache') →
  treeSizes cache ⊆ treeSizes cache' ∧
  blobSizes cache ⊆ blobSizes cache' ∧
  (cache_ok repo cache → cache_ok repo cache').
Proof.
  induction fuel as [|fuel IH]; intros cache r cache' H; [done|].
  simpl in H.
  destruct (Length (todo cache) =? 0); [by simplify_eq|].
  destruct (Peek (todo cache)) as [oid|]; [|by simplify_eq].
  destruct (treeSizes cache !! oid) as [s0|] eqn:Hmem.
  { apply IH in H as (Ht & Hb & Hok). done. }
  destruct (Cache.queueTree repo cache oid) as [[rq c1]|] eqn:HQ; [|done].
  pose proof HQ as HQ'.
  apply queueTree_inv in HQ' as (Hts & Hbs & _).
  pose proof (λ Hc, queueTree_cache_ok _ _ _ _ _ Hc HQ) as Hc1.
  destruct rq as [s|err|p].
  - apply IH in H as (Ht & Hb & Hok). simpl in Ht, Hb. split_and!.
    + rewrite Hts in Ht. etrans; [|exact Ht]. by apply insert_subseteq.
    + by etrans.
    + intros Hc. apply Hok. destruct (Hc1 Hc) as [_ Hins]. by apply Hins.
  - destruct err; simplify_eq;
      try (split_and!; [by rewrite Hts|done|intros Hc; by apply Hc1]).
    apply IH in H as (Ht & Hb & Hok). split_and!.
    + by rewrite <- Hts.
    + by etrans.
    + intros Hc. apply Hok. by apply Hc1.
  - simplify_eq. split_and!; [by rewrite Hts|done|intros Hc; by apply Hc1].
Qed.

Lemma TreeSize_inv repo fuel cache oid r cache' :
  Cache.TreeSize fuel repo cache oid = Some (r, cache') →
  treeSizes cache ⊆ treeSizes cache' ∧
  blobSizes cache ⊆ blobSizes cache' ∧
  (cache_ok repo cache → cache_ok repo cache') ∧
  (∀ s, r = Ok s → treeSizes cache' !! oid = Some s).
Proof.
  unfold Cache.TreeSize, Cache.TreeSize_filled. intros H.
  destruct (treeSizes cache !! oid) as [s0|] eqn:Hmem.
  { simplify_eq. split_and!; try done. by intros s [= <-]. }
  destruct (Cache.fill fuel repo _) as [[rf c1]|] eqn:HF; [|done].
  apply fill_inv in HF as (Ht & Hb & Hok). simpl in Ht, Hb.
  assert (cache_ok repo cache → cache_ok repo c1) as Hok'.
  { intros Hc. apply Hok. exact Hc. }
  destruct rf as [[]|e|p]; simplify_eq; try by split_and!.
  split_and!; try done.
  intros s Hs. by destruct (treeSizes cache' !! oid); simplify_eq.
Qed.

Lemma cache_ok_set_blob repo cache oid n :
  cache_ok repo cache → ReadHeader repo oid = Ok (str "blob", n) →
  cache_ok repo (set_blobSize cache oid n).
Proof.
  intros ([Hwft Hwfb] & Hbok & Htok) Hh. split_and!; simpl.
  - split; [done|]. simpl. by apply (blob_closed_counts repo).
  - by apply blob_closed_table_ok.
  - eapply tree_table_ok_weaken; [|done].
    destruct (blobSizes cache !! oid) as [m|] eqn:Hm.
    + pose proof (Hbok _ _ Hm) as Hh'. rewrite Hh in Hh'.
      injection Hh' as ->. by rewrite insert_id.
    + by apply insert_subseteq.
Qed.


Lemma cache_ok_empty repo : cache_ok repo NewSizeCache.
Proof.
  split_and!.
  - split; apply map_Forall_empty.
  - apply blob_table_ok_empty.
  - intros oid s Hs. simpl in Hs. by rewrite lookup_empty in Hs.
Qed.

Lemma ObjectSize_inv repo fuel cache oid r cache' :
  blob_table_ok repo (blobSizes cache) →
  Cache.ObjectSize fuel repo cache oid = Some (r, cache') →
  treeSizes cache ⊆ treeSizes cache' ∧
  blobSizes cache ⊆ blobSizes cache' ∧
  (cache_ok repo cache → cache_ok repo cache').
Proof.
  unfold Cache.ObjectSize. intros Hbok H.
  destruct (ReadHeader repo oid) as [[t n]|e|p] eqn:Hh; [|by simplify_eq..].
  destruct (decide (t = str "blob")) as [->|].
  { simplify_eq. simpl. split_and!; [done| |by intros; apply cache_ok_set_blob].
    destruct (blobSizes cache !! oid) as [m|] eqn:Hm.
    - pose proof (Hbok _ _ Hm) as Hh'. rewrite Hh in Hh'.
      injection Hh' as ->. by rewrite insert_id.
    - by apply insert_subseteq. }
  destruct (decide (t = str "tree")).
  { destruct (Cache.TreeSize fuel repo cache oid) as [[rt c1]|] eqn:HT; [|done].
    apply TreeSize_inv in HT as (? & ? & ? & _).
    destruct rt; by simplify_eq. }
  repeat case_decide; by simplify_eq.
Qed.

(** X4: the tables only grow. Whatever [BlobSize], [TreeSize] and
    [ObjectSize] return, also an error or a panic, every entry the
    tree table and the blob table had is still there with the same
    value; [BlobSize] moreover leaves the tree table and the work stack
    as they were. For [ObjectSize], which writes the size it has just
    read over the entry of a blob, this rests on the blob table holding
    sizes the store reports. *)
Theorem tables_only_grow fuel repo cache oid :
  blob_table_ok repo (blobSizes cache) →
  (∀ r c', Cache.BlobSize repo cache oid = (r, c') →
           treeSizes c' = treeSizes cache ∧ todo c' = todo cache ∧
           blobSizes cache ⊆ blobSizes c') ∧
  (∀ r c', Cache.TreeSize fuel repo cache oid = Some (r, c') →
           treeSizes cache ⊆ treeSizes c' ∧
           blobSizes cache ⊆ blobSizes c') ∧
  (∀ r c', Cache.ObjectSize fuel repo cache oid = Some (r, c') →
           treeSizes cache ⊆ treeSizes c' ∧
           blobSizes cache ⊆ blobSizes c').
Proof.
  intros Hbok. split_and!.
  - intros r c' H. by apply BlobSize_inv in H as (? & ? & ? & _).
  - intros r c' H. by apply TreeSize_inv in H as (? & ? & _).
  - intros r c' H. by apply ObjectSize_inv in H as (? & ? & _).
Qed.

Lemma tables_only_grow_witness :
  treeSizes Sample.cacheEA
    ⊆ <[Sample.oidT := Sample.recT]> (treeSizes Sample.cacheEA) ∧
  blobSizes Sample.cacheEA ⊆ <[Sample.oidB := 10]> ∅.
Proof.
  destruct (tables_only_grow 10 Sample.repo Sample.cacheEA Sample.oidT)
    as (_ & HT & _).
  - intros o m Hm. simpl in Hm. by rewrite lookup_empty in Hm.
  - assert (Cache.TreeSize 10 Sample.repo Sample.cacheEA Sample.oidT =
            Some (Ok Sample.recT,
                  mkSizeCache (<[Sample.oidT := Sample.recT]>
                                 (treeSizes Sample.cacheEA))
                              (<[Sample.oidB := 10]> ∅) [])) as Hrun
      by (vm_compute; reflexivity).
    exact (HT _ _ Hrun).
Defined.


Lemma cache_ok_cacheU : cache_ok Sample.repo Sample.cacheU.
Proof.
  assert (Cache.TreeSize 10 Sample.repo NewSizeCache Sample.oidU =
          Some (Ok Sample.recU, Sample.cacheU)) as Hrun
    by (vm_compute; reflexivity).
  apply TreeSize_inv in Hrun as (_ & _ & Hc & _).
  apply Hc, cache_ok_empty.
Qed.


Lemma sum_of_elem (f : TreeSize → Count) (l : list TreeSize) (c : TreeSize) :
  Forall (λ s, 0 <= f s) l → c ∈ l → f c <= sum_of f l.
Proof.
  unfold sum_of. induction 1 as [|s l Hs Hl IH]; intros Hc.
  - by apply elem_of_nil in Hc.
  - simpl. apply elem_of_cons in Hc as [->|Hc].
    + pose proof (sum_of_nonneg f l Hl) as H0. unfold sum_of in H0. lia.
    + specialize (IH Hc). lia.
Qed.

Lemma max_of_elem (f : TreeSize → Count) (l : list TreeSize) (c : TreeSize) :
  c ∈ l → f c <= max_of f l.
Proof.
  unfold max_of. induction l as [|s l IH]; intros Hc.
  - by apply elem_of_nil in Hc.
  - simpl. apply elem_of_cons in Hc as [->|Hc]; [lia|].
    specialize (IH Hc). lia.
Qed.

Lemma depth_below_elem (ts : gmap Oid TreeSize) (es : list TreeEntry) e :
  e ∈ es → entry_depth ts e <= depth_below ts es.
Proof.
  unfold depth_below. induction es as [|e' es IH]; intros He.
  - by apply elem_of_nil in He.
  - simpl. apply elem_of_cons in He as [->|He]; [lia|].
    specialize (IH He). lia.
Qed.

Lemma subrecords_elem (ts : gmap Oid TreeSize) (es : list TreeEntry) e c :
  e ∈ es → kind_of e = KTree → ts !! EntryOid e = Some c →
  c ∈ subrecords ts es.
Proof.
  intros He Hk Hc. unfold subrecords. apply list_elem_of_omap.
  exists e. split; [done|]. by rewrite decide_True.
Qed.

Lemma wf_field_nonneg (f : TreeSize → Count) (l : list TreeSize) :
  (∀ s, wf_TreeSize s → is_count (f s)) →
  Forall wf_TreeSize l → Forall (λ s, 0 <= f s) l.
Proof.
  intros Hf Hl. eapply Forall_impl; [exact Hl|].
  intros s Hs. by apply Hf in Hs as [].
Qed.

Lemma entryCount_from_0 (es : list TreeEntry) :
  foldl (λ n _, incEntryCount n) 0 es = wrap64 (len es).
Proof.
  change 0 with (wrap64 0) at 1. by rewrite entryCount_foldl, Z.add_0_l.
Qed.

(** The fields of a record of the tree table, over the table. *)
Lemma tree_record_fields repo cache oid s :
  cache_ok repo cache →
  treeSizes cache !! oid = Some s →
  ∃ data, ReadTree repo oid = Ok data ∧
    let es := tree_entries data in
    let ts := treeSizes cache in
    let subs := subrecords ts es in
    (∀ e, e ∈ es → kind_of e = KTree → is_Some (ts !! EntryOid e)) ∧
    (∀ e, e ∈ es → kind_of e = KBlob →
          is_Some (blobSizes cache !! EntryOid e)) ∧
    TreeCount s = Z.min (1 + sum_of TreeCount subs) MaxUint64 ∧
    BlobCount s =
      Z.min (sum_of BlobCount subs + count_kind KBlob es) MaxUint64 ∧
    BlobSizeSum s =
      Z.min (sum_of BlobSizeSum subs + blob_bytes (blobSizes cache) es)
            MaxUint64 ∧
    LinkCount s =
      Z.min (sum_of LinkCount subs + count_kind KSymlink es) MaxUint64 ∧
    SubmoduleCount s =
      Z.min (sum_of SubmoduleCount subs + count_kind KCommit es) MaxUint64 ∧
    MaxDepth s = addCapped (depth_below ts es) 1 ∧
    MaxTreeEntries s = Z.max (max_of MaxTreeEntries subs) (len es).
Proof.
  intros ([Hwft Hwfb] & Hbok & Htok) Hs.
  destruct (Htok oid s Hs) as (data & HR & Hres & ->).
  exists data. split; [done|]. intros es ts subs.
  assert (wf_TreeSize (mkTreeSize 0 0 1 0 0 0 0 0)) as Hwf0.
  { unfold wf_TreeSize, is_count, MaxUint64. simpl. lia. }
  destruct (foldl_merge_fields _ _ _ Hwft Hwfb Hres _ Hwf0)
    as (Hwf & HT & HB & HL & HS & HZ & HD & HE).
  fold es ts subs in Hwf, HT, HB, HL, HS, HZ, HD, HE.
  cbn [MaxDepth MaxPathLength TreeCount MaxTreeEntries BlobCount BlobSizeSum
       LinkCount SubmoduleCount] in HT, HB, HL, HS, HZ, HD, HE.
  unfold record_of, finish. fold es ts.
  cbn [MaxDepth MaxPathLength TreeCount MaxTreeEntries BlobCount BlobSizeSum
       LinkCount SubmoduleCount].
  unfold entries_resolved in Hres. rewrite Forall_forall in Hres.
  split_and!; try done.
  - intros e He. by apply Hres.
  - intros e He. by apply Hres.
  - rewrite HD. f_equal.
    pose proof (depth_below_nonneg ts es). lia.
  - rewrite entryCount_from_0.
    unfold es at 2 3. rewrite (entries_of_count _ _ _ HR). fold es.
    rewrite HE. pose proof (max_of_nonneg MaxTreeEntries subs).
    destruct (_ <? _) eqn:E; [apply Z.ltb_lt in E|apply Z.ltb_ge in E]; lia.
Qed.

(** X6: the record of every tree in the table obeys the aggregation
    laws over the table as it is now, not only when it was computed:
    its tree count is 1 plus the tree counts of the records the table
    holds for its subtree entries, its blob, link and submodule counts
    and its blob bytes are the sums over those records plus its own
    direct entries, each sum capped at [2^64-1]; its depth is one more
    (capped) than the largest depth among its entries; its
    [MaxTreeEntries] is the largest of its subtrees' values and its own
    number of entries. Every subtree entry of a tree in the table is in
    the table too. *)
Theorem memoized_record_laws repo cache oid s :
  cache_ok repo cache →
  treeSizes cache !! oid = Some s →
  ∃ data, ReadTree repo oid = Ok data ∧
    let es := tree_entries data in
    let ts := treeSizes cache in
    let subs := subrecords ts es in
    (∀ e, e ∈ es → kind_of e = KTree → is_Some (ts !! EntryOid e)) ∧
    (∀ e, e ∈ es → kind_of e = KBlob →
          is_Some (blobSizes cache !! EntryOid e)) ∧
    TreeCount s = Z.min (1 + sum_of TreeCount subs) MaxUint64 ∧
    BlobCount s =
      Z.min (sum_of BlobCount subs + count_kind KBlob es) MaxUint64 ∧
    BlobSizeSum s =
      Z.min (sum_of BlobSizeSum subs + blob_bytes (blobSizes cache) es)
            MaxUint64 ∧
    LinkCount s =
      Z.min (sum_of LinkCount subs + count_kind KSymlink es) MaxUint64 ∧
    SubmoduleCount s =
      Z.min (sum_of SubmoduleCount subs + count_kind KCommit es) MaxUint64 ∧
    MaxDepth s = addCapped (depth_below ts es) 1 ∧
    MaxTreeEntries s = Z.max (max_of MaxTreeEntries subs) (len es).
Proof. apply tree_record_fields. Qed.

Lemma memoized_record_laws_witness :
  TreeCount Sample.recU = 1 + TreeCount Sample.recA.
Proof.
  destruct (memoized_record_laws Sample.repo Sample.cacheU Sample.oidU
              Sample.recU) as (data & HR & _ & _ & HT & _).
  - apply cache_ok_cacheU.
  - vm_compute. reflexivity.
  - assert (data = Sample.dataU) as ->.
    { assert (ReadTree Sample.repo Sample.oidU = Ok Sample.dataU) as HR'
        by (vm_compute; reflexivity).
      rewrite HR in HR'. by injection HR'. }
    rewrite HT. vm_compute. reflexivity.
Defined.

Lemma merge_entry_path_mono ts bs s e :
  MaxPathLength s <= MaxPathLength (merge_entry ts bs s e).
Proof.
  unfold merge_entry, addDescendent, addBlob, addLink, addSubmodule.
  destruct (kind_of e); [destruct (ts !! EntryOid e) as [c|]| | |
                         destruct (bs !! EntryOid e)];
    try lia;
    rewrite ?recordDepth_max;
    try destruct (0 <? MaxPathLength c);
    rewrite ?recordPathLength_max; simpl; lia.
Qed.

Lemma foldl_path_mono ts bs es : ∀ s,
  MaxPathLength s <= MaxPathLength (foldl (merge_entry ts bs) s es).
Proof.
  induction es as [|e es IH]; intros s; simpl; [lia|].
  pose proof (merge_entry_path_mono ts bs s e). specialize (IH (merge_entry ts bs s e)).
  lia.
Qed.

Lemma foldl_path_child ts bs es e c :
  wf_TreeSize c →
  e ∈ es → kind_of e = KTree → ts !! EntryOid e = Some c →
  ∀ s, MaxPathLength c <= MaxPathLength (foldl (merge_entry ts bs) s es).
Proof.
  intros (_ & Hc & _) He Hk Hsub.
  induction es as [|e' es IH]; intros s; [by apply elem_of_nil in He|].
  simpl. apply elem_of_cons in He as [<-|He]; [|by apply IH].
  etrans; [|apply foldl_path_mono].
  unfold merge_entry. rewrite Hk, Hsub. unfold addDescendent.
  rewrite recordDepth_max.
  destruct (Z.ltb_spec 0 (MaxPathLength c)); rewrite recordPathLength_max;
    simpl.
  - rewrite addCapped_min by (done || apply wrap64_range).
    pose proof (wrap64_range (Count_of_len (Name e) + 1)) as Hr.
    clear IH Hsub Hk. unfold is_count, Count in *.
    generalize dependent (wrap64 (Count_of_len (Name e) + 1)).
    generalize dependent (MaxPathLength c). intros. lia.
  - pose proof (wrap64_range (len (Name e))) as Hr.
    clear IH. unfold is_count, Count, Count_of_len in *. lia.
Qed.

(** X7: a tree's record dominates the records of its subtrees. For a
    tree in the table and any of its subtree entries, the subtree is in
    the table, and (with sums capped at [2^64-1]) the parent's depth is
    at least the child's plus 1, its tree count at least the child's
    plus 1, and its path length, blob count, blob bytes, link count,
    submodule count and [MaxTreeEntries] are at least the child's. *)
Theorem parent_dominates_child repo cache oid s data e :
  cache_ok repo cache →
  treeSizes cache !! oid = Some s →
  ReadTree repo oid = Ok data →
  e ∈ tree_entries data → kind_of e = KTree →
  ∃ c, treeSizes cache !! EntryOid e = Some c ∧
       Z.min (MaxDepth c + 1) MaxUint64 <= MaxDepth s ∧
       Z.min (TreeCount c + 1) MaxUint64 <= TreeCount s ∧
       MaxPathLength c <= MaxPathLength s ∧
       BlobCount c <= BlobCount s ∧
       BlobSizeSum c <= BlobSizeSum s ∧
       LinkCount c <= LinkCount s ∧
       SubmoduleCount c <= SubmoduleCount s ∧
       MaxTreeEntries c <= MaxTreeEntries s.
Proof.
  intros Hok Hs HR He Hk.
  destruct (tree_record_fields repo cache oid s Hok Hs)
    as (data' & HR' & Hf).
  rewrite HR in HR'. injection HR' as <-.
  destruct Hf as (Htree & _ & HT & HB & HZ & HL & HS & HD & HE).
  destruct (Htree e He Hk) as [c Hc]. exists c. split; [done|].
  destruct Hok as ([Hwft Hwfb] & Hbok & Htok).
  pose proof (Hwft _ _ Hc) as Hwfc. simpl in Hwfc.
  pose proof Hwfc as (?&?&?&?&?&?&?&?).
  pose proof (subrecords_wf (treeSizes cache) (tree_entries data) Hwft)
    as Hsubs.
  pose proof (subrecords_elem _ _ _ _ He Hk Hc) as Hin.
  assert (∀ f, (∀ s, wf_TreeSize s → is_count (f s)) →
               f c <= sum_of f (subrecords (treeSizes cache)
                                           (tree_entries data))) as Hsum.
  { intros f Hf. apply sum_of_elem; [|done]. by apply wf_field_nonneg. }
  pose proof (Hsum TreeCount ltac:(by intros ? (?&?&?&?&?&?&?&?))).
  pose proof (Hsum BlobCount ltac:(by intros ? (?&?&?&?&?&?&?&?))).
  pose proof (Hsum BlobSizeSum ltac:(by intros ? (?&?&?&?&?&?&?&?))).
  pose proof (Hsum LinkCount ltac:(by intros ? (?&?&?&?&?&?&?&?))).
  pose proof (Hsum SubmoduleCount ltac:(by intros ? (?&?&?&?&?&?&?&?))).
  pose proof (max_of_elem MaxTreeEntries _ _ Hin).
  pose proof (depth_below_elem (treeSizes cache) _ _ He) as Hdep.
  unfold entry_depth in Hdep. rewrite Hk, Hc in Hdep. simpl in Hdep.
  pose proof (count_kind_nonneg KBlob (tree_entries data)).
  pose proof (count_kind_nonneg KSymlink (tree_entries data)).
  pose proof (count_kind_nonneg KCommit (tree_entries data)).
  pose proof (blob_bytes_nonneg (blobSizes cache) (tree_entries data) Hwfb).
  rewrite addCapped_min in HD.
  2: { pose proof (depth_below_nonneg (treeSizes cache) (tree_entries data)).
       pose proof (depth_below_le (treeSizes cache) (tree_entries data)
                     MaxUint64) as Hle.
       unfold is_count. split; [done|]. apply Hle; [unfold MaxUint64; lia|].
       apply Forall_forall. intros e' He'. unfold entry_depth.
       destruct (kind_of e') eqn:Hk'; try (unfold MaxUint64; lia).
       destruct (treeSizes cache !! EntryOid e') as [c'|] eqn:Hc';
         [|simpl; unfold MaxUint64; lia].
       simpl. by pose proof (Hwft _ _ Hc') as ([_ ?] & _). }
  2: apply is_count_1.
  unfold is_count in *. split_and!; try lia.
  destruct (Htok oid s Hs) as (data2 & HR2 & _ & ->).
  rewrite HR in HR2. injection HR2 as <-.
  unfold record_of, finish. simpl.
  by apply (foldl_path_child _ _ _ e c).
Qed.

Lemma parent_dominates_child_witness :
  Z.min (MaxDepth Sample.recA + 1) MaxUint64 <= MaxDepth Sample.recU.
Proof.
  destruct (parent_dominates_child Sample.repo Sample.cacheU Sample.oidU
              Sample.recU Sample.dataU
              (mkTreeEntry (str "a") Sample.oidA 16384))
    as (c & Hc & HD & _).
  - apply cache_ok_cacheU.
  - vm_compute. reflexivity.
  - vm_compute. reflexivity.
  - vm_compute. apply list_elem_of_here.
  - reflexivity.
  - assert (treeSizes Sample.cacheU !! Sample.oidA = Some Sample.recA) as Hc'
      by (vm_compute; reflexivity).
    assert (Some c = Some Sample.recA) as Heq
      by (etrans; [symmetry; exact Hc|exact Hc']).
    injection Heq as ->. exact HD.
Defined.

(** X8: a record once returned is returned again without work. After a
    successful [TreeSize] the record is in the tree table, and a second
    [TreeSize] for the same identifier returns the same record and the
    same cache, on any store and without any fuel: it makes no request
    and does not enter the loop. *)
Theorem TreeSize_cache_hit fuel repo cache oid s cache' :
  Cache.TreeSize fuel repo cache oid = Some (Ok s, cache') →
  treeSizes cache' !! oid = Some s ∧
  ∀ fuel' repo', Cache.TreeSize fuel' repo' cache' oid = Some (Ok s, cache').
Proof.
  intros H. apply TreeSize_inv in H as (_ & _ & _ & Hs).
  specialize (Hs s eq_refl). split; [done|].
  intros fuel' repo'. unfold Cache.TreeSize. by rewrite Hs.
Qed.

Lemma TreeSize_cache_hit_witness :
  Cache.TreeSize 0 Sample.short_repo Sample.cacheU Sample.oidU =
  Some (Ok Sample.recU, Sample.cacheU).
Proof.
  destruct (TreeSize_cache_hit 10 Sample.repo NewSizeCache Sample.oidU
              Sample.recU Sample.cacheU) as [_ Hhit].
  - vm_compute. reflexivity.
  - apply Hhit.
Defined.

(** X9: a blob size once returned is returned again without a request.
    After a successful [BlobSize] the size is in the blob table, and a
    second [BlobSize] for the same identifier returns the same size and
    the same cache on any store. The same holds after [ObjectSize] has
    returned a blob size. *)
Theorem BlobSize_cache_hit repo cache oid n cache' :
  Cache.BlobSize repo cache oid = (Ok n, cache') →
  blobSizes cache' !! oid = Some n ∧
  (∀ repo', Cache.BlobSize repo' cache' oid = (Ok n, cache')) ∧
  (∀ fuel c t m c1,
     Cache.ObjectSize fuel repo c oid
       = Some (Returns t (Some (SizeOfBlob m)) None, c1) →
     ∀ repo', Cache.BlobSize repo' c1 oid = (Ok m, c1)).
Proof.
  intros H. pose proof H as H'.
  apply BlobSize_inv in H' as (_ & _ & _ & _ & Hn & _).
  specialize (Hn n eq_refl). split_and!; [done| |].
  - intros repo'. unfold Cache.BlobSize. by rewrite Hn.
  - intros fuel c t m c1. unfold Cache.ObjectSize.
    destruct (ReadHeader repo oid) as [[t' n']|e|p]; [|done..].
    destruct (decide (t' = str "blob")).
    + intros [= <- <- <-] repo'. unfold Cache.BlobSize. simpl.
      by rewrite lookup_insert_eq.
    + destruct (decide (t' = str "tree")).
      * destruct (Cache.TreeSize fuel repo c oid) as [[[]]|]; done.
      * repeat case_decide; done.
Qed.

Lemma BlobSize_cache_hit_witness :
  Cache.BlobSize Sample.short_repo
    (set_blobSize NewSizeCache Sample.oidB 10) Sample.oidB =
  (Ok 10, set_blobSize NewSizeCache Sample.oidB 10).
Proof.
  destruct (BlobSize_cache_hit Sample.repo NewSizeCache Sample.oidB 10
              (set_blobSize NewSizeCache Sample.oidB 10)) as (_ & Hhit & _).
  - vm_compute. reflexivity.
  - apply Hhit.
Defined.

Lemma foldl_merge_agree (ts1 ts2 : gmap Oid TreeSize)
    (bs1 bs2 : gmap Oid Count) (es : list TreeEntry) :
  Forall (λ e, (kind_of e = KTree → ts1 !! EntryOid e = ts2 !! EntryOid e) ∧
               (kind_of e = KBlob → bs1 !! EntryOid e = bs2 !! EntryOid e))
         es →
  ∀ s, foldl (merge_entry ts1 bs1) s es = foldl (merge_entry ts2 bs2) s es.
Proof.
  induction 1 as [|e es [Ht Hb] _ IH]; intros s; [done|]. simpl.
  rewrite <- IH. f_equal. unfold merge_entry.
  destruct (kind_of e); [rewrite Ht by done|..|rewrite Hb by done]; done.
Qed.













Lemma healthy_child (repo : Repository) (oid c : Oid) :
  healthy repo oid → child repo c oid → healthy repo c.
Proof.
  intros [oid' l HR Hall _ Hsub] Hc. unfold child, children in Hc.
  rewrite HR in Hc. unfold tree_entries in Hc.
  rewrite (entries_of_encode _ l Hall) in Hc
    by (pose proof (encode_tree_length l); lia).
  apply list_elem_of_fmap in Hc as (e & -> & He).
  apply list_elem_of_filter in He as [Hk He]. by apply Hsub.
Qed.

Lemma healthy_Acc (repo : Repository) (oid : Oid) :
  healthy repo oid → Acc (child repo) oid.
Proof.
  induction 1 as [oid l HR Hall _ _ IH]. constructor. intros c Hc.
  unfold child, children in Hc. rewrite HR in Hc.
  unfold tree_entries in Hc.
  rewrite (entries_of_encode _ l Hall) in Hc
    by (pose proof (encode_tree_length l); lia).
  apply list_elem_of_fmap in Hc as (e & -> & He).
  apply list_elem_of_filter in He as [Hk He]. by apply IH.
Qed.

(** The loop of [queueTree] runs to the end of a well-formed payload
    whose blob sizes can be had. *)
Lemma queueTree_loop_healthy repo : ∀ l fuel st cache,
  Forall well_encoded l →
  Forall (blob_known repo (blobSizes cache)) l.*2 →
  (length l < fuel)%nat →
  ∃ st' cache',
    Cache.queueTree_loop fuel repo (encode_tree l) st cache
    = Some (Ok st', cache').
Proof.
  induction l as [|[d e] l IH]; intros fuel st cache Hall Hblobs Hfuel;
    (destruct fuel as [|fuel]; [simpl in Hfuel; lia|]);
    cbn [Cache.queueTree_loop].
  - simpl. by eauto.
  - apply Forall_cons in Hall as [He Hall].
    cbn [fmap list_fmap] in Hblobs. apply Forall_cons in Hblobs as [Hb Hblobs].
    change (encode_tree ((d, e) :: l))
      with (encode_entry d e ++ encode_tree l).
    rewrite (NextEntry_encode_entry d e (encode_tree l) He).
    destruct (queueTree_entry_ok repo e st cache Hb) as (st1 & c1 & Hrun).
    rewrite Hrun.
    apply IH; [done| |simpl in Hfuel; lia].
    apply queueTree_entry_inv in Hrun as (_ & Hsub & _).
    eapply Forall_impl; [exact Hblobs|].
    intros e'. by apply blob_known_weaken.
Qed.

(** A pass over a healthy tree returns a record or [NotYetKnown]. *)
Lemma queueTree_healthy repo cache oid :
  healthy repo oid →
  ∃ r cache', Cache.queueTree repo cache oid = Some (r, cache') ∧
              (r = Err NotYetKnown ∨ ∃ s, r = Ok s).
Proof.
  intros [oid' l HR Hall Hblob _]. unfold Cache.queueTree. rewrite HR.
  assert (Forall (blob_known repo (blobSizes cache)) l.*2) as Hknown.
  { apply Forall_forall. intros e He Hk. right. by apply Hblob. }
  assert (length l < S (length (encode_tree l)))%nat as Hfuel.
  { pose proof (encode_tree_length l). lia. }
  destruct (queueTree_loop_healthy repo l (S (length (encode_tree l)))
              (Cache.mkLoopState true 0 (mkTreeSize 0 0 1 0 0 0 0 0)) cache
              Hall Hknown Hfuel) as (st & c1 & ->).
  destruct (negb (Cache.ok st));
    (eexists _, _; split; [reflexivity|]); [by left|right; by eexists].
Qed.

(** On a stack of healthy trees [fill] does not fail. *)
Lemma fill_healthy repo fuel : ∀ cache r cache',
  Forall (healthy repo) (todo cache) →
  Cache.fill fuel repo cache = Some (r, cache') → r = Ok tt.
Proof.
  induction fuel as [|fuel IH]; intros cache r cache' Hall Hrun; [done|].
  destruct (Length (todo cache) =? 0) eqn:Hlen.
  { simpl in Hrun. rewrite Hlen in Hrun. by simplify_eq. }
  destruct (Peek (todo cache)) as [oid|] eqn:HP.
  2: { unfold Peek in HP. apply last_None in HP. by rewrite HP in Hlen. }
  apply Peek_Some in HP as [rest Htodo].
  rewrite (fill_step _ _ _ _ _ Htodo) in Hrun.
  rewrite Htodo in Hall. unfold Push in Hall.
  apply Forall_app in Hall as [Hrest Hoid].
  rewrite Forall_singleton in Hoid.
  destruct (treeSizes cache !! oid).
  { eapply IH; [|exact Hrun]. done. }
  destruct (queueTree_healthy repo cache oid Hoid)
    as (r1 & c1 & HQ & Hr1).
  rewrite HQ in Hrun.
  apply queueTree_inv in HQ as (_ & _ & _ & pushed & Htodo1 & Hp & _ & Hok).
  destruct Hr1 as [->|[s ->]].
  - eapply IH; [|exact Hrun].
    rewrite Htodo1, Htodo. unfold Push.
    rewrite !Forall_app, Forall_singleton. split_and!; [done..|].
    eapply Forall_impl; [exact Hp|]. simpl. intros c [Hc _].
    by eapply healthy_child.
  - eapply IH; [|exact Hrun]. simpl.
    by rewrite Htodo1, (Hok s eq_refl), app_nil_r, Htodo, Drop_Push.
Qed.

(** X12: on a healthy tree [TreeSize] succeeds. If the tree and all
    trees below it have well-formed payloads and the store reports a
    blob for every blob entry, and the work stack holds no unhealthy
    leftovers, then from some amount of fuel on [TreeSize] returns a
    record, without error or panic, and leaves the record in the table
    and the stack empty. *)
Theorem TreeSize_succeeds_on_healthy repo cache oid :
  healthy repo oid → Forall (healthy repo) (todo cache) →
  ∃ fuel s cache',
    (∀ k, Cache.TreeSize (fuel + k) repo cache oid = Some (Ok s, cache')) ∧
    treeSizes cache' !! oid = Some s ∧
    (treeSizes cache !! oid = None → todo cache' = []).
Proof.
  intros Hoid Hstack.
  destruct (treeSizes cache !! oid) as [s|] eqn:Hmem.
  { exists 0%nat, s, cache. split_and!; [|done..].
    intros k. unfold Cache.TreeSize. by rewrite Hmem. }
  set (c0 := set_todo cache (Push (todo cache) oid)).
  assert (Forall (healthy repo) (todo c0)) as Hall.
  { simpl. unfold Push. apply Forall_app. split; [done|].
    by apply Forall_singleton. }
  assert (Forall (λ c, ∀ cache rest, todo cache = Push rest c →
                       resolves repo cache rest (memoized c)) (todo c0))
    as Hres.
  { eapply Forall_impl; [exact Hall|]. simpl. intros c Hc.
    by apply resolves_top, healthy_Acc. }
  destruct (resolves_all repo (todo c0) Hres c0 [] eq_refl)
    as [n [(c1 & Htodo1 & Hsub1 & Hm1 & Hrun1)|(r & c1 & Hr & Hrun1)]].
  2: { specialize (Hrun1 0%nat). apply fill_healthy in Hrun1; done. }
  assert (is_Some (treeSizes c1 !! oid)) as [s Hs].
  { rewrite Forall_forall in Hm1. apply Hm1. simpl. unfold Push.
    apply elem_of_app. right. apply list_elem_of_here. }
  exists (n + 1)%nat, s, c1. split_and!; [|done..].
  intros k. unfold Cache.TreeSize. rewrite Hmem. fold c0.
  rewrite <- Nat.add_assoc, Hrun1. change (1 + k)%nat with (S k).
  rewrite (fill_empty _ _ _ Htodo1). unfold Cache.TreeSize_filled.
  by rewrite Hs.
Qed.

Lemma healthy_sample_U : healthy Sample.repo Sample.oidU.
Proof.
  apply (healthy_tree _ _
           [(str "40000", mkTreeEntry (str "a") Sample.oidA 16384)]).
  - vm_compute. reflexivity.
  - apply Forall_singleton.
    split_and!; [reflexivity|compute_done|reflexivity].
  - intros e He Hk. apply list_elem_of_singleton in He as ->.
    vm_compute in Hk. discriminate.
  - intros e He _. apply list_elem_of_singleton in He as ->.
    apply (healthy_tree _ _
             [(str "100644", mkTreeEntry (str "xyz") Sample.oidB 33188)]).
    + vm_compute. reflexivity.
    + apply Forall_singleton.
      split_and!; [reflexivity|compute_done|reflexivity].
    + intros e He _. apply list_elem_of_singleton in He as ->.
      exists 10. vm_compute. reflexivity.
    + intros e He Hk. apply list_elem_of_singleton in He as ->.
      vm_compute in Hk. discriminate.
Qed.

Lemma TreeSize_succeeds_on_healthy_witness :
  ∃ fuel s cache',
    ∀ k, Cache.TreeSize (fuel + k) Sample.repo NewSizeCache Sample.oidU
         = Some (Ok s, cache').
Proof.
  destruct (TreeSize_succeeds_on_healthy Sample.repo NewSizeCache
              Sample.oidU) as (fuel & s & c' & Hrun & _).
  - exact healthy_sample_U.
  - apply Forall_nil. done.
  - by exists fuel, s, c'.
Defined.



(** X13: [ReadHeader] on a line of three or more fields. On a response
    line [<id> SP <type> SP <size>], possibly followed by further
    SP-separated fields, [ReadHeader] looks at the second and third
    field only: type "missing" gives the "missing object" error
    whatever follows; otherwise the result is the type with the size
    [ParseUint] reads in base 10 from the third field, or the error of
    [ParseUint]. The first field and any field after the third are
    ignored. *)
Theorem ReadHeader_fields repo oid id t digits more rest :
  SP ∉ id → LF ∉ id → SP ∉ t → LF ∉ t → SP ∉ digits → LF ∉ digits →
  LF ∉ more → more = [] ∨ (∃ m, more = SP :: m) →
  pending (checkStdout repo oid) =
    id ++ SP :: t ++ SP :: digits ++ more ++ LF :: rest →
  ReadHeader repo oid =
    if decide (t = str "missing") then Err (EMissingObject oid)
    else match ParseUint digits 10 0 with
         | inl n => Ok (t, n)
         | inr e => Err e
         end.
Proof.
  intros Hisp Hilf Htsp Htlf Hdsp Hdlf Hmlf Hmore Hp.
  unfold ReadHeader, ReadString. rewrite Hp.
  replace (id ++ SP :: t ++ SP :: digits ++ more ++ LF :: rest)
    with ((id ++ SP :: t ++ SP :: digits ++ more) ++ LF :: rest)
    by (rewrite <- !app_assoc; cbn [app]; rewrite <- !app_assoc;
        cbn [app]; by rewrite <- !app_assoc).
  rewrite cut_line_app.
  2: { rewrite !not_elem_of_app, !not_elem_of_cons, !not_elem_of_app,
         !not_elem_of_cons, !not_elem_of_app.
       split_and!; done. }
  rewrite length_app. cbn [length].
  replace (length (id ++ SP :: t ++ SP :: digits ++ more) + 1 - 1)%nat
    with (length (id ++ SP :: t ++ SP :: digits ++ more)) by lia.
  rewrite take_app_length.
  rewrite Split_app by done. rewrite (Split_app t) by done.
  assert (∃ ws, Split (digits ++ more) SP = digits :: ws) as [ws ->].
  { destruct Hmore as [->|[m ->]].
    - rewrite app_nil_r, Split_no_sep by done. by eexists.
    - rewrite Split_app by done. by eexists. }
  cbn [lookup list_lookup].
  reflexivity.
Qed.

Lemma ReadHeader_fields_witness :
  ReadHeader Sample.repo Sample.oidB = Ok (str "blob", 10).
Proof.
  apply (ReadHeader_fields Sample.repo Sample.oidB
           (str "6262626262626262626262626262626262626262")
           (str "blob") (str "10") [] []);
    first [compute_done | by left | reflexivity].
Defined.



Lemma hex_byte_round_trip (v : byte) :
  fromHexChar (hex_digit (Z.shiftr (byte_val v) 4)) =
    Some (Z.shiftr (byte_val v) 4) ∧
  fromHexChar (hex_digit (Z.land (byte_val v) 15)) =
    Some (Z.land (byte_val v) 15) ∧
  byte_of_Z (Z.lor (Z.shiftl (Z.shiftr (byte_val v) 4) 4)
                   (Z.land (byte_val v) 15)) = v.
Proof. destruct v; vm_compute; done. Qed.

Lemma Decode_Encode (src : bytes) : Decode (EncodeToString src) = (src, None).
Proof.
  induction src as [|v src IH]; [done|].
  destruct (hex_byte_round_trip v) as (Ha & Hb & Hv).
  change (EncodeToString (v :: src))
    with (hex_digit (Z.shiftr (byte_val v) 4)
          :: hex_digit (Z.land (byte_val v) 15) :: EncodeToString src).
  cbn [Decode]. rewrite Ha, Hb, IH, Hv. done.
Qed.

Lemma EncodeToString_length (src : bytes) :
  length (EncodeToString src) = (2 * length src)%nat.
Proof.
  induction src as [|v src IH]; [done|].
  change (EncodeToString (v :: src))
    with (hex_digit (Z.shiftr (byte_val v) 4)
          :: hex_digit (Z.land (byte_val v) 15) :: EncodeToString src).
  cbn [length]. rewrite IH. lia.
Qed.

(** X15: an identifier survives printing and parsing: for the 20 bytes
    of an identifier, [NewOid] of its [String] is the identifier. The
    string has 40 characters, all of them lower-case hexadecimal
    digits. *)
Theorem NewOid_String (oid : Oid) :
  length oid = 20%nat →
  NewOid (Oid_String oid) = inl oid ∧
  length (Oid_String oid) = 40%nat ∧
  Forall (λ c, c ∈ hextable) (Oid_String oid).
Proof.
  intros Hlen. unfold NewOid, DecodeString, Oid_String. split_and!.
  - rewrite Decode_Encode. by rewrite decide_True.
  - rewrite EncodeToString_length. lia.
  - clear Hlen. induction oid as [|v oid IH]; [done|].
    change (EncodeToString (v :: oid))
      with (hex_digit (Z.shiftr (byte_val v) 4)
            :: hex_digit (Z.land (byte_val v) 15) :: EncodeToString oid).
    constructor; [|constructor; [|exact IH]]; destruct v; compute_done.
Qed.

Lemma NewOid_String_witness :
  NewOid (Oid_String Sample.oidB) = inl Sample.oidB.
Proof. apply (NewOid_String Sample.oidB). reflexivity. Defined.

Lemma fromHexChar_lower (p : byte) (a : Z) :
  fromHexChar p = Some a → 0 <= a < 16 ∧ hex_digit a = lower p.
Proof. destruct p; vm_compute; intros H; simplify_eq; done. Qed.

Lemma nibbles (a b : Z) :
  0 <= a < 16 → 0 <= b < 16 →
  Z.shiftr (byte_val (byte_of_Z (Z.lor (Z.shiftl a 4) b))) 4 = a ∧
  Z.land (byte_val (byte_of_Z (Z.lor (Z.shiftl a 4) b))) 15 = b.
Proof.
  intros Ha Hb.
  assert (a = 0 ∨ a = 1 ∨ a = 2 ∨ a = 3 ∨ a = 4 ∨ a = 5 ∨ a = 6 ∨ a = 7 ∨
          a = 8 ∨ a = 9 ∨ a = 10 ∨ a = 11 ∨ a = 12 ∨ a = 13 ∨ a = 14 ∨
          a = 15) as Hcase_a by lia.
  assert (b = 0 ∨ b = 1 ∨ b = 2 ∨ b = 3 ∨ b = 4 ∨ b = 5 ∨ b = 6 ∨ b = 7 ∨
          b = 8 ∨ b = 9 ∨ b = 10 ∨ b = 11 ∨ b = 12 ∨ b = 13 ∨ b = 14 ∨
          b = 15) as Hcase_b by lia.
  clear Ha Hb.
  repeat (destruct Hcase_a as [->|Hcase_a]);
    repeat (destruct Hcase_b as [->|Hcase_b]); subst; done.
Qed.

Lemma Decode_lower (n : nat) : ∀ s dst,
  (length s <= n)%nat →
  Decode s = (dst, None) →
  EncodeToString dst = lower <$> s ∧ length s = (2 * length dst)%nat.
Proof.
  induction n as [|n IH]; intros s dst Hn Hdec.
  { destruct s; [|simpl in Hn; lia]. by simplify_eq/=. }
  destruct s as [|p [|q s]].
  - by simplify_eq/=.
  - cbn [Decode] in Hdec. by destruct (fromHexChar p).
  - cbn [Decode] in Hdec.
    destruct (fromHexChar p) as [a|] eqn:Hp; [|done].
    destruct (fromHexChar q) as [b|] eqn:Hq; [|done].
    destruct (Decode s) as [dst' err] eqn:Hs. simplify_eq.
    apply fromHexChar_lower in Hp as [Ha Hpl].
    apply fromHexChar_lower in Hq as [Hb Hql].
    destruct (nibbles a b Ha Hb) as [Hhi Hlo].
    destruct (IH s dst' ltac:(simpl in Hn; lia) Hs) as [Henc Hlen].
    split; [|simpl; lia].
    change (EncodeToString (byte_of_Z (Z.lor (Z.shiftl a 4) b) :: dst'))
      with (hex_digit
              (Z.shiftr (byte_val (byte_of_Z (Z.lor (Z.shiftl a 4) b))) 4)
            :: hex_digit
                 (Z.land (byte_val (byte_of_Z (Z.lor (Z.shiftl a 4) b))) 15)
            :: EncodeToString dst').
    rewrite Hhi, Hlo, Hpl, Hql, Henc. done.
Qed.

(** X16: what [NewOid] accepts. When [NewOid] returns an identifier,
    the string had 40 characters, the identifier has 20 bytes, and
    printing it gives the string back with its letters in lower case;
    so on lower-case input [String] inverts [NewOid]. *)
Theorem String_NewOid (s : bytes) (oid : Oid) :
  NewOid s = inl oid →
  length s = 40%nat ∧ length oid = 20%nat ∧
  Oid_String oid = lower <$> s.
Proof.
  unfold NewOid, DecodeString, Oid_String.
  destruct (Decode s) as [dst [err|]] eqn:Hdec; [done|].
  destruct (decide (length dst = 20%nat)) as [Hlen|]; [|done].
  intros [= <-].
  destruct (Decode_lower (length s) s dst ltac:(lia) Hdec) as [Henc Hl].
  split_and!; [lia|done|done].
Qed.

Lemma String_NewOid_witness :
  Oid_String Sample.oidK
  = lower <$> str "6B6b6b6b6b6b6B6b6b6b6b6b6b6b6b6b6b6b6b6B".
Proof.
  apply (String_NewOid (str "6B6b6b6b6b6b6B6b6b6b6b6b6b6b6b6b6b6b6b6B")
           Sample.oidK).
  vm_compute. reflexivity.
Defined.

Lemma addCapped_swap (a b c : Count) :
  is_count a → is_count b → is_count c →
  addCapped (addCapped a b) c = addCapped (addCapped a c) b.
Proof.
  intros Ha Hb Hc.
  rewrite (addCapped_min a b), (addCapped_min a c) by done.
  rewrite !addCapped_min_l by (done || unfold is_count in *; lia).
  f_equal. lia.
Qed.

(** X17: the capped sum is a commutative monoid operation on [uint64]
    values with a top element: [addCapped] is commutative and
    associative, 0 is neutral, [2^64-1] absorbs, and the sum is
    monotone in its arguments. *)
Theorem addCapped_laws (a b c : Count) :
  is_count a → is_count b → is_count c →
  addCapped a b = addCapped b a ∧
  addCapped (addCapped a b) c = addCapped a (addCapped b c) ∧
  addCapped a 0 = a ∧
  addCapped a MaxUint64 = MaxUint64 ∧
  (a <= b → addCapped a c <= addCapped b c).
Proof.
  intros Ha Hb Hc.
  assert (is_count 0) as H0 by (unfold is_count, MaxUint64; lia).
  assert (is_count MaxUint64) as HM by (unfold is_count, MaxUint64; lia).
  pose proof (addCapped_count a b Ha Hb) as Hab.
  pose proof (addCapped_count b c Hb Hc) as Hbc.
  rewrite (addCapped_min (addCapped a b) c), (addCapped_min a (addCapped b c))
    by done.
  rewrite !addCapped_min by done.
  unfold is_count in *. split_and!; lia.
Qed.

Lemma addCapped_laws_witness :
  addCapped (addCapped (2 ^ 64 - 2) 1) 5 = addCapped (2 ^ 64 - 2) (addCapped 1 5).
Proof.
  apply (addCapped_laws (2 ^ 64 - 2) 1 5);
    unfold is_count, MaxUint64; lia.
Defined.

Lemma addDescendent_norm s name s2 :
  addDescendent s name s2 =
  mkTreeSize
    (Z.max (MaxDepth s) (MaxDepth s2))
    (Z.max (MaxPathLength s)
       (if 0 <? MaxPathLength s2
        then addCapped (wrap64 (Count_of_len name + 1)) (MaxPathLength s2)
        else Count_of_len name))
    (addCapped (TreeCount s) (TreeCount s2))
    (Z.max (MaxTreeEntries s) (MaxTreeEntries s2))
    (addCapped (BlobCount s) (BlobCount s2))
    (addCapped (BlobSizeSum s) (BlobSizeSum s2))
    (addCapped (LinkCount s) (LinkCount s2))
    (addCapped (SubmoduleCount s) (SubmoduleCount s2)).
Proof.
  unfold addDescendent. rewrite recordDepth_max.
  destruct (0 <? MaxPathLength s2); rewrite recordPathLength_max; simpl;
    f_equal; destruct (Z.ltb_spec (MaxTreeEntries s) (MaxTreeEntries s2)); lia.
Qed.

Lemma addBlob_norm s name n :
  addBlob s name n =
  mkTreeSize (Z.max (MaxDepth s) 1)
    (Z.max (MaxPathLength s) (Count_of_len name))
    (TreeCount s) (MaxTreeEntries s)
    (addCapped (BlobCount s) 1) (addCapped (BlobSizeSum s) n)
    (LinkCount s) (SubmoduleCount s).
Proof.
  unfold addBlob. by rewrite recordDepth_max, recordPathLength_max.
Qed.

Lemma addLink_norm s name :
  addLink s name =
  mkTreeSize (Z.max (MaxDepth s) 1)
    (Z.max (MaxPathLength s) (Count_of_len name))
    (TreeCount s) (MaxTreeEntries s) (BlobCount s) (BlobSizeSum s)
    (addCapped (LinkCount s) 1) (SubmoduleCount s).
Proof.
  unfold addLink. by rewrite recordDepth_max, recordPathLength_max.
Qed.

Lemma addSubmodule_norm s name :
  addSubmodule s name =
  mkTreeSize (Z.max (MaxDepth s) 1)
    (Z.max (MaxPathLength s) (Count_of_len name))
    (TreeCount s) (MaxTreeEntries s) (BlobCount s) (BlobSizeSum s)
    (LinkCount s) (addCapped (SubmoduleCount s) 1).
Proof.
  unfold addSubmodule. by rewrite recordDepth_max, recordPathLength_max.
Qed.

(** Merging two entries in either order gives the same record. *)
Lemma merge_entry_comm (ts : gmap Oid TreeSize) (bs : gmap Oid Count)
    (s : TreeSize) (e1 e2 : TreeEntry) :
  map_Forall (λ _ s, wf_TreeSize s) ts →
  map_Forall (λ _ n, is_count n) bs →
  wf_TreeSize s →
  merge_entry ts bs (merge_entry ts bs s e1) e2 =
  merge_entry ts bs (merge_entry ts bs s e2) e1.
Proof.
  intros Hts Hbs (?&?&?&?&?&?&?&?).
  pose proof is_count_1.
  unfold merge_entry.
  destruct (kind_of e1) eqn:Hk1, (kind_of e2) eqn:Hk2;
    repeat match goal with
    | |- context [ts !! ?k] =>
        let H := fresh "Hl" in
        destruct (ts !! k) as [?|] eqn:H;
        [apply Hts in H; destruct H as (?&?&?&?&?&?&?&?)|]
    | |- context [bs !! ?k] =>
        let H := fresh "Hl" in
        destruct (bs !! k) as [?|] eqn:H; [apply Hbs in H|]
    end;
    try reflexivity;
    rewrite ?addDescendent_norm, ?addBlob_norm, ?addLink_norm,
      ?addSubmodule_norm; cbn [MaxDepth MaxPathLength TreeCount
      MaxTreeEntries BlobCount BlobSizeSum LinkCount SubmoduleCount];
    f_equal; first [lia | by apply addCapped_swap].
Qed.

Lemma merge_entry_wf (ts : gmap Oid TreeSize) (bs : gmap Oid Count)
    (s : TreeSize) (e : TreeEntry) :
  map_Forall (λ _ s, wf_TreeSize s) ts →
  map_Forall (λ _ n, is_count n) bs →
  wf_TreeSize s → wf_TreeSize (merge_entry ts bs s e).
Proof.
  intros Hts Hbs Hs. unfold merge_entry.
  destruct (kind_of e).
  - destruct (ts !! EntryOid e) eqn:Hl; [|done].
    apply addDescendent_wf; [done|]. by apply Hts in Hl.
  - by apply addSubmodule_wf.
  - by apply addLink_wf.
  - destruct (bs !! EntryOid e) eqn:Hl; [|done].
    apply addBlob_wf; [done|]. by apply Hbs in Hl.
Qed.

Lemma foldl_merge_perm (ts : gmap Oid TreeSize) (bs : gmap Oid Count)
    (es es' : list TreeEntry) :
  map_Forall (λ _ s, wf_TreeSize s) ts →
  map_Forall (λ _ n, is_count n) bs →
  es ≡ₚ es' →
  ∀ s, wf_TreeSize s →
       foldl (merge_entry ts bs) s es = foldl (merge_entry ts bs) s es'.
Proof.
  intros Hts Hbs. induction 1 as [|e es es' _ IH|e1 e2 es|es1 es2 es3 _ IH1 _ IH2];
    intros s Hs.
  - done.
  - simpl. apply IH. by apply merge_entry_wf.
  - simpl. by rewrite merge_entry_comm.
  - etrans; [by apply IH1|by apply IH2].
Qed.

Lemma record_of_perm (ts : gmap Oid TreeSize) (bs : gmap Oid Count)
    (es es' : list TreeEntry) :
  map_Forall (λ _ s, wf_TreeSize s) ts →
  map_Forall (λ _ n, is_count n) bs →
  es ≡ₚ es' → record_of ts bs es = record_of ts bs es'.
Proof.
  intros Hts Hbs Hp. unfold record_of.
  rewrite (foldl_merge_perm ts bs es es' Hts Hbs Hp).
  2: { unfold wf_TreeSize, is_count, MaxUint64. simpl. lia. }
  rewrite !entryCount_from_0. unfold len.
  by rewrite (Permutation_length Hp).
Qed.

(** X18: the record of a tree does not depend on the order of its
    entries. Two trees whose payloads hold the same entries in
    different orders get, from the same cache, the same record from
    [queueTree]. *)
Theorem queueTree_order_independent repo cache oid1 oid2 data1 data2
    s1 c1 s2 c2 :
  wf_cache cache → blob_table_ok repo (blobSizes cache) →
  ReadTree repo oid1 = Ok data1 → ReadTree repo oid2 = Ok data2 →
  tree_entries data1 ≡ₚ tree_entries data2 →
  Cache.queueTree repo cache oid1 = Some (Ok s1, c1) →
  Cache.queueTree repo cache oid2 = Some (Ok s2, c2) →
  s1 = s2.
Proof.
  intros [Hwft Hwfb] Hb HR1 HR2 Hperm Hq1 Hq2.
  pose proof Hq1 as Hi1. pose proof Hq2 as Hi2.
  apply queueTree_inv in Hi1 as (_ & _ & HJ1 & _).
  apply queueTree_inv in Hi2 as (_ & _ & HJ2 & _).
  pose proof (HJ1 _ (blob_closed_table_ok repo) Hb) as Hb1.
  pose proof (HJ2 _ (blob_closed_table_ok repo) Hb) as Hb2.
  assert (map_Forall (λ _ n, is_count n) (blobSizes c2)) as Hwf2.
  { intros k n Hl. apply Hb2 in Hl. by apply ReadHeader_Ok_inv in Hl as []. }
  apply queueTree_Ok_record in Hq1 as (d1 & HR1' & Hres1 & ->).
  apply queueTree_Ok_record in Hq2 as (d2 & HR2' & Hres2 & ->).
  rewrite HR1 in HR1'. rewrite HR2 in HR2'. simplify_eq.
  rewrite <- (record_of_perm _ _ _ _ Hwft Hwf2 Hperm).
  unfold record_of. f_equal. apply foldl_merge_agree.
  unfold entries_resolved in Hres1, Hres2.
  rewrite <- Hperm in Hres2.
  rewrite Forall_forall in Hres1, Hres2.
  apply Forall_forall. intros e He. split; [done|]. intros Hk.
  destruct (Hres1 e He) as [_ [n1 Hn1]]; [done|].
  destruct (Hres2 e He) as [_ [n2 Hn2]]; [done|].
  rewrite Hn1, Hn2. apply Hb1 in Hn1. apply Hb2 in Hn2.
  rewrite Hn1 in Hn2. by simplify_eq.
Qed.

Lemma queueTree_order_independent_witness :
  fst <$> Cache.queueTree Permuted.repo Sample.cacheEA Sample.oidT =
  fst <$> Cache.queueTree Permuted.repo Sample.cacheEA Permuted.oidP.
Proof.
  assert (Cache.queueTree Permuted.repo Sample.cacheEA Sample.oidT
          = Some (Ok Sample.recT, Sample.cacheEAB)) as H1
    by (vm_compute; reflexivity).
  assert (Cache.queueTree Permuted.repo Sample.cacheEA Permuted.oidP
          = Some (Ok Sample.recT, Sample.cacheEAB)) as H2
    by (vm_compute; reflexivity).
  rewrite H1, H2.
  refine (f_equal (λ s, Some (Ok s))
            (queueTree_order_independent Permuted.repo Sample.cacheEA
               Sample.oidT Permuted.oidP Sample.dataT Permuted.dataP
               _ _ _ _ _ _ _ _ _ H1 H2)).
  - exact wf_cacheEA.
  - intros oid n Hl. simpl in Hl. by rewrite lookup_empty in Hl.
  - vm_compute. reflexivity.
  - vm_compute. reflexivity.
  - assert (tree_entries Sample.dataT =
            [mkTreeEntry (str "f") Sample.oidB 33188;
             mkTreeEntry (str "d") Sample.oidE 16384]) as ->
      by (vm_compute; reflexivity).
    assert (tree_entries Permuted.dataP =
            [mkTreeEntry (str "d") Sample.oidE 16384;
             mkTreeEntry (str "f") Sample.oidB 33188]) as ->
      by (vm_compute; reflexivity).
    apply perm_swap.
Defined.

Section FilterValueProperties.

Context {ReferenceFilter RegexpError Combiner RefGroup Symbol : Type}.
Context `{!EqDecision Symbol}.
Variable RegexpFilter : bytes → ReferenceFilter + RegexpError.
Variable PrefixFilter : bytes → ReferenceFilter.
Variable Inverted : Combiner → Combiner.
Variable Combine :
  Combiner → ReferenceFilter → ReferenceFilter → ReferenceFilter.
Variable RefGroupSymbol : bytes → Symbol.
Variable noSymbol : Symbol.
Variable groups : Symbol → option RefGroup.
Variable refGroupFilter : RefGroup → ReferenceFilter.

Local Abbreviation interpret :=
  (RefOpts.interpretFlexibly RegexpFilter PrefixFilter RefGroupSymbol
     noSymbol groups refGroupFilter).
Lemma HasPrefix_slash (s : bytes) :
  RefOpts.HasPrefix s (str "/") = true ↔ ∃ t, s = "/"%byte :: t.
Proof.
  unfold RefOpts.HasPrefix. rewrite bool_decide_eq_true. split.
  - intros [t ->]. by exists t.
  - intros [t ->]. by exists t.
Qed.

Lemma HasSuffix_slash (s : bytes) :
  RefOpts.HasSuffix s (str "/") = true ↔ ∃ t, s = t ++ ["/"%byte].
Proof.
  unfold RefOpts.HasSuffix. rewrite bool_decide_eq_true. split.
  - intros [t ->]. by exists t.
  - intros [t ->]. by exists t.
Qed.

Lemma bracketed_iff (s : bytes) :
  (2 <=? len s) && RefOpts.HasPrefix s (str "/")
    && RefOpts.HasSuffix s (str "/") = true
  ↔ ∃ p, s = "/"%byte :: p ++ ["/"%byte].
Proof.
  rewrite !andb_true_iff, HasPrefix_slash, HasSuffix_slash, Z.leb_le.
  split.
  - intros [[Hlen [t ->]] [u Hu]].
    destruct u as [|c u]; simpl in Hu.
    { injection Hu as ->. unfold len in Hlen. simpl in Hlen. lia. }
    injection Hu as <- ->. by exists u.
  - intros [p ->]. split_and!.
    + unfold len. simpl. rewrite length_app. simpl. lia.
    + by eexists.
    + by exists ("/"%byte :: p).
Qed.

Lemma slice_tail (c : byte) (t : bytes) :
  RefOpts.slice (c :: t) 1 (len (c :: t)) = Some t.
Proof.
  unfold RefOpts.slice, len. cbn [length].
  destruct (Z.leb_spec 1 (Z.of_nat (S (length t)))); [|lia].
  rewrite Z.leb_refl. simpl.
  replace (Z.to_nat (Z.of_nat (S (length t)) - 1)) with (length t) by lia.
  by rewrite firstn_all.
Qed.

Lemma slice_inner (p : bytes) :
  RefOpts.slice ("/"%byte :: p ++ ["/"%byte]) 1
    (len ("/"%byte :: p ++ ["/"%byte]) - 1) = Some p.
Proof.
  unfold RefOpts.slice, len. cbn [length]. rewrite length_app. cbn [length].
  destruct (Z.leb_spec 1 (Z.of_nat (S (length p + 1)) - 1)); [|lia].
  destruct (Z.leb_spec (Z.of_nat (S (length p + 1)) - 1)
              (Z.of_nat (S (length p + 1)))); [|lia].
  simpl.
  replace (Z.to_nat (Z.of_nat (S (length p + 1)) - 1 - 1)) with (length p)
    by lia.
  by rewrite drop_0, take_app_length.
Qed.

Lemma interpret_bracketed (p : bytes) :
  interpret ("/"%byte :: p ++ ["/"%byte]) =
  Some match RegexpFilter p with
       | inl f => inl f
       | inr e => inr (RefOpts.ERegexp e)
       end.
Proof.
  unfold RefOpts.interpretFlexibly.
  rewrite (proj2 (bracketed_iff _)) by by exists p.
  by rewrite slice_inner.
Qed.

Lemma interpret_group (n : bytes) :
  interpret ("@"%byte :: n) =
  Some (if decide (RefGroupSymbol n = noSymbol)
        then inr RefOpts.EMissingRefgroupName
        else match groups (RefGroupSymbol n) with
             | None => inr (RefOpts.EUndefinedRefgroup (RefGroupSymbol n))
             | Some g => inl (refGroupFilter g)
             end).
Proof.
  unfold RefOpts.interpretFlexibly.
  destruct ((2 <=? len ("@"%byte :: n))
            && RefOpts.HasPrefix ("@"%byte :: n) (str "/")
            && RefOpts.HasSuffix ("@"%byte :: n) (str "/")) eqn:Hb.
  { apply bracketed_iff in Hb as [p Hp]. done. }
  assert ((1 <=? len ("@"%byte :: n)) = true) as ->
    by (apply Z.leb_le; unfold len; simpl; lia).
  cbn [lookup list_lookup]. rewrite bool_decide_eq_true_2 by done.
  rewrite slice_tail.
  destruct (decide (RefGroupSymbol n = noSymbol)); [done|].
  by destruct (groups (RefGroupSymbol n)).
Qed.

Lemma interpret_prefix (s : bytes) :
  (∀ p, s ≠ "/"%byte :: p ++ ["/"%byte]) → (∀ n, s ≠ "@"%byte :: n) →
  interpret s = Some (inl (PrefixFilter s)).
Proof.
  intros Hns Hna. unfold RefOpts.interpretFlexibly.
  destruct ((2 <=? len s) && RefOpts.HasPrefix s (str "/")
            && RefOpts.HasSuffix s (str "/")) eqn:Hb.
  { apply bracketed_iff in Hb as [p Hp]. by destruct (Hns p). }
  destruct s as [|c s]; [done|].
  assert ((1 <=? len (c :: s)) = true) as ->
    by (apply Z.leb_le; unfold len; simpl; lia).
  cbn [lookup list_lookup].
  rewrite bool_decide_eq_false_2; [done|].
  intros ->. by destruct (Hna s).
Qed.

Lemma interpret_total (s : bytes) : is_Some (interpret s).
Proof.
  destruct ((2 <=? len s) && RefOpts.HasPrefix s (str "/")
            && RefOpts.HasSuffix s (str "/")) eqn:Hb.
  { apply bracketed_iff in Hb as [p ->]. rewrite interpret_bracketed.
    by eexists. }
  assert (¬ ∃ p, s = "/"%byte :: p ++ ["/"%byte]) as Hns.
  { intros Hp. apply bracketed_iff in Hp. by rewrite Hp in Hb. }
  destruct s as [|c s]; [by rewrite interpret_prefix|].
  destruct (decide (c = "@"%byte)) as [->|Hc].
  { rewrite interpret_group. by eexists. }
  rewrite interpret_prefix; [by eexists| |].
  - intros p Hp. apply Hns. by exists p.
  - intros n [= -> _]. done.
Qed.

(** X19: how an option argument is interpreted. [interpretFlexibly]
    never panics, and its result is fixed by the shape of the argument:
    - [/p/], for any [p] (also empty, also with slashes inside), is the
      regexp [p], or the error of [RegexpFilter];
    - [@n] names a reference group: an error when the symbol is empty
      or the group undefined, else the filter of the group;
    - everything else, including the empty string and the single
      character [/], is a prefix. *)
Theorem interpretFlexibly_spec :
  (∀ s, is_Some
          (RefOpts.interpretFlexibly RegexpFilter PrefixFilter
             RefGroupSymbol noSymbol groups refGroupFilter s)) ∧
  (∀ p, RefOpts.interpretFlexibly RegexpFilter PrefixFilter
          RefGroupSymbol noSymbol groups refGroupFilter
          ("/"%byte :: p ++ ["/"%byte]) =
        Some match RegexpFilter p with
             | inl f => inl f
             | inr e => inr (RefOpts.ERegexp e)
             end) ∧
  (∀ n, RefOpts.interpretFlexibly RegexpFilter PrefixFilter
          RefGroupSymbol noSymbol groups refGroupFilter ("@"%byte :: n) =
        Some (if decide (RefGroupSymbol n = noSymbol)
              then inr RefOpts.EMissingRefgroupName
              else match groups (RefGroupSymbol n) with
                   | None =>
                       inr (RefOpts.EUndefinedRefgroup (RefGroupSymbol n))
                   | Some g => inl (refGroupFilter g)
                   end)) ∧
  (∀ s, (∀ p, s ≠ "/"%byte :: p ++ ["/"%byte]) →
        (∀ n, s ≠ "@"%byte :: n) →
        RefOpts.interpretFlexibly RegexpFilter PrefixFilter
          RefGroupSymbol noSymbol groups refGroupFilter s =
        Some (inl (PrefixFilter s))).
Proof.
  split_and!.
  - apply interpret_total.
  - apply interpret_bracketed.
  - apply interpret_group.
  - apply interpret_prefix.
Qed.

(** X20: [Set] changes the top-level filter only on success. [Set]
    never panics; when it returns an error the top-level filter is the
    one it found; when it returns [nil] the filter is the old one
    combined with the new one, under the option's combiner, or under
    the inverted combiner exactly when the option has a fixed pattern
    and the argument is a spelling of "false". For an option with a
    fixed pattern, an argument that is no boolean is refused. *)
Theorem Set_spec (v : RefOpts.filterValue Combiner) (s : bytes)
    (filter : ReferenceFilter) :
  ∃ err filter',
    RefOpts.Set_ RegexpFilter PrefixFilter Inverted Combine RefGroupSymbol
      noSymbol groups refGroupFilter v s filter = Some (err, filter') ∧
    (err ≠ None → filter' = filter) ∧
    (err = None →
     ∃ f, filter' =
          Combine (if decide (RefOpts.pattern v ≠ [] ∧
                              RefOpts.ParseBool s = Some false)
                   then Inverted (RefOpts.combiner v)
                   else RefOpts.combiner v) filter f) ∧
    (RefOpts.pattern v ≠ [] → RefOpts.ParseBool s = None →
     err = Some (RefOpts.EParseBool s)).
Proof.
  pose proof interpret_total as Htotal.
  unfold RefOpts.Set_.
  destruct (decide (RefOpts.pattern v ≠ [])) as [Hfix|Hfree].
  - destruct (RefOpts.ParseBool s) as [b|] eqn:Hb.
    2: { eexists _, _. split_and!; try done. }
    destruct (RefOpts.regexp v).
    + destruct (RegexpFilter (RefOpts.pattern v)) as [f|e];
        eexists _, _; (split; [reflexivity|]); split_and!; try done.
      intros _. exists f. destruct b.
      * rewrite decide_False; [done|]. by intros [_ ?].
      * by rewrite decide_True.
    + destruct (Htotal (RefOpts.pattern v)) as [[f|e] ->];
        eexists _, _; (split; [reflexivity|]); split_and!; try done.
      intros _. exists f. destruct b.
      * rewrite decide_False; [done|]. by intros [_ ?].
      * by rewrite decide_True.
  - rewrite decide_False by (by intros [? _]).
    destruct (RefOpts.regexp v).
    + destruct (RegexpFilter s) as [f|e];
        eexists _, _; (split; [reflexivity|]); split_and!; try done.
      intros _. by exists f.
    + destruct (Htotal s) as [[f|e] ->];
        eexists _, _; (split; [reflexivity|]); split_and!; try done.
      intros _. by exists f.
Qed.

End FilterValueProperties.
